(** * seshdoc: appointment matching and pipe-delimited list helpers

    A shallow embedding of the parts of the repository that carry design
    decisions:

    - [PipeDelimitedHelpers] (src/PipeDelimitedHelpers.js): the
      [|]-separated ordered list stored in one spreadsheet cell;
    - the appointment matcher of src/CalendarService.js
      ([extractClientFromTitle], [matchAppointmentToClient],
      [calculateMatchConfidence]);
    - [GoalManagementService.addGoal] (src/ConfigurationService.js), the
      one list operation that reports bad input by throwing.

    JavaScript values are modelled by the inductive type [value]:
    undefined, null, booleans, integer numbers, strings, arrays and plain
    objects (an association list, the first binding of a key counts);
    there are no callable values.  A JavaScript string is a Rocq
    [string] whose characters are the code units 0..255 (Latin-1).
    Exceptions are explicit: a computation that may throw has type
    [result A], and [try_catch] is the [try { } catch { }] statement.
    Functions that live outside the source files ([getAllClients],
    [getGoals], [setGoals]) are inputs of the model.

    The definitions come first, module by module as in the sources; the
    lemmas and the guarantees follow. *)

From Stdlib Require Import Bool Arith ZArith Lia List String Ascii.
From Stdlib Require Import Permutation DecimalString DecimalPos DecimalZ.
Import ListNotations.
Open Scope string_scope.
Open Scope nat_scope.
Open Scope list_scope.

Set Warnings "-register-all".
Set Warnings "-notation-overridden".
Set Warnings "-notation-incompatible-prefix".

(* ================================================================== *)
(** * JavaScript strings *)
(* ================================================================== *)

Module JsString.

(** [WhiteSpace] and [LineTerminator] code units below 256: TAB, LF, VT,
    FF, CR, SPACE and NBSP.  This is the set removed by
    [String.prototype.trim] and matched by the regular expression
    class [\s]. *)
Definition isWhiteSpace (c : ascii) : bool :=
  let n := nat_of_ascii c in
  ((9 <=? n) && (n <=? 13)) || (n =? 32) || (n =? 160).

(** Lower-casing of one Latin-1 code unit: A-Z and the accented capitals
    U+00C0..U+00DE (except the multiplication sign U+00D7) move up
    by 32. *)
Definition lower_char (c : ascii) : ascii :=
  let n := nat_of_ascii c in
  if ((65 <=? n) && (n <=? 90))
     || ((192 <=? n) && (n <=? 222) && negb (n =? 215))
  then ascii_of_nat (n + 32) else c.

(** [s.toLowerCase()] *)
Fixpoint toLowerCase (s : string) : string :=
  match s with
  | EmptyString => EmptyString
  | String c r => String (lower_char c) (toLowerCase r)
  end.

(** [s.trimStart()] *)
Fixpoint trimStart (s : string) : string :=
  match s with
  | EmptyString => EmptyString
  | String c r => if isWhiteSpace c then trimStart r else s
  end.

(** [s.trimEnd()] *)
Fixpoint trimEnd (s : string) : string :=
  match s with
  | EmptyString => EmptyString
  | String c r =>
      match trimEnd r with
      | EmptyString => if isWhiteSpace c then EmptyString else String c EmptyString
      | r' => String c r'
      end
  end.

(** [s.trim()] *)
Definition trim (s : string) : string := trimEnd (trimStart s).

(** [s.length === 0] *)
Definition isEmpty (s : string) : bool :=
  match s with EmptyString => true | _ => false end.

(** [s.split(sep)] for a one-character separator.  The result is never
    the empty array: [''.split('|')] is [['']]. *)
Fixpoint split (sep : ascii) (s : string) : list string :=
  match s with
  | EmptyString => [EmptyString]
  | String c r =>
      if Ascii.eqb c sep then EmptyString :: split sep r
      else match split sep r with
           | h :: t => String c h :: t
           | [] => [String c EmptyString]
           end
  end.

(** [items.join(sep)] on an array of strings. *)
Definition join (sep : string) (items : list string) : string :=
  String.concat sep items.

(** [s.includes(t)]: [t] occurs in [s] as a contiguous substring. *)
Fixpoint includes (s t : string) : bool :=
  String.prefix t s ||
  match s with
  | EmptyString => false
  | String _ r => includes r t
  end.

(** [s.includes(c)] for a single character. *)
Fixpoint includesChar (s : string) (c : ascii) : bool :=
  match s with
  | EmptyString => false
  | String d r => Ascii.eqb d c || includesChar r c
  end.

(** [items.includes(x)] on an array of strings. *)
Definition mem (x : string) (items : list string) : bool :=
  existsb (String.eqb x) items.

(** [[...new Set(items)]]: insertion order, first occurrence kept. *)
Fixpoint unique (items : list string) : list string :=
  match items with
  | [] => []
  | x :: r => x :: filter (fun y => negb (String.eqb y x)) (unique r)
  end.

(** Decimal rendering of an integer, as in a template literal. *)
Definition ofZ (n : Z) : string := NilZero.string_of_int (Z.to_int n).
Definition ofNat (n : nat) : string := ofZ (Z.of_nat n).

End JsString.
Import JsString.

(* ================================================================== *)
(** * JavaScript values and exceptions *)
(* ================================================================== *)

Inductive value : Type :=
  | VUndefined
  | VNull
  | VBool (b : bool)
  | VNumber (n : Z)
  | VString (s : string)
  | VArray (elems : list value)
  | VObject (fields : list (string * value)).

(** The outcome of evaluating code that may throw. *)
Inductive result (A : Type) : Type :=
  | Normal (a : A)
  | Throw (error : string).
Arguments Normal {A} a.
Arguments Throw {A} error.

Definition bind {A B} (m : result A) (k : A -> result B) : result B :=
  match m with
  | Normal a => k a
  | Throw e => Throw e
  end.

Notation "x <- m ;; k" := (bind m (fun x => k))
  (at level 61, m at next level, right associativity).

(** [try { body } catch (error) { handler }] *)
Definition try_catch {A} (body : result A) (handler : string -> result A)
  : result A :=
  match body with
  | Normal a => Normal a
  | Throw e => handler e
  end.

Module Js.

(** ToBoolean *)
Definition truthy (v : value) : bool :=
  match v with
  | VUndefined | VNull => false
  | VBool b => b
  | VNumber n => negb (Z.eqb n 0)
  | VString s => negb (isEmpty s)
  | VArray _ | VObject _ => true
  end.

(** [a || b] on values *)
Definition logicalOr (a b : value) : value := if truthy a then a else b.

(** [a && b] where evaluating either side may throw: the value of [a]
    when it is falsy, otherwise the value of [b]. *)
Definition logicalAnd (a b : result value) : result value :=
  x <- a ;; if truthy x then b else Normal x.

(** The test of [if (c)], of [find] and of [filter]. *)
Definition test (c : result value) : result bool :=
  x <- c ;; Normal (truthy x).

(** [typeof v === 'string'] *)
Definition isString (v : value) : bool :=
  match v with VString _ => true | _ => false end.

(** [Array.isArray(v)] *)
Definition isArray (v : value) : bool :=
  match v with VArray _ => true | _ => false end.

(** [String(v)] *)
Fixpoint toString (v : value) : string :=
  match v with
  | VUndefined => "undefined"
  | VNull => "null"
  | VBool true => "true"
  | VBool false => "false"
  | VNumber n => ofZ n
  | VString s => s
  | VArray l =>
      join ","
        (List.map (fun x => match x with
                            | VUndefined | VNull => EmptyString
                            | _ => toString x
                            end) l)
  | VObject _ => "[object Object]"
  end.

(** The message of a TypeError.  [Throw] carries [error.message]. *)
Definition typeError (message : string) : string := message.

(** [v.trim()]: only strings have the method; there are no callable
    values, so on anything else the call is a TypeError. *)
Definition callTrim (v : value) : result string :=
  match v with
  | VString s => Normal (trim s)
  | VUndefined | VNull => Throw (typeError (String.append "Cannot read properties of " (toString v)))
  | _ => Throw (typeError "trim is not a function")
  end.

(** [v.toLowerCase()] *)
Definition callToLowerCase (v : value) : result string :=
  match v with
  | VString s => Normal (toLowerCase s)
  | VUndefined | VNull => Throw (typeError (String.append "Cannot read properties of " (toString v)))
  | _ => Throw (typeError "toLowerCase is not a function")
  end.

Fixpoint lookup (k : string) (fields : list (string * value)) : value :=
  match fields with
  | [] => VUndefined
  | (k', v) :: r => if String.eqb k k' then v else lookup k r
  end.

(** [v.k] for a property name [k] that is not an array index: a
    TypeError on undefined and null, the field of an object, [length]
    of a string or an array, and undefined otherwise. *)
Definition get (v : value) (k : string) : result value :=
  match v with
  | VUndefined | VNull => Throw (typeError (String.append "Cannot read properties of " (toString v)))
  | VObject fields => Normal (lookup k fields)
  | VString s =>
      Normal (if String.eqb k "length" then VNumber (Z.of_nat (String.length s))
              else VUndefined)
  | VArray l =>
      Normal (if String.eqb k "length" then VNumber (Z.of_nat (List.length l))
              else VUndefined)
  | VBool _ | VNumber _ => Normal VUndefined
  end.

(** [a === b] where [b] is known to be a string. *)
Definition strictEqString (a : value) (b : string) : bool :=
  match a with VString s => String.eqb s b | _ => false end.

(** [arr.find(pred)] when [arr] is an array. *)
Fixpoint findIn (pred : value -> result bool) (l : list value) : result value :=
  match l with
  | [] => Normal VUndefined
  | x :: r => b <- pred x ;; if b then Normal x else findIn pred r
  end.

(** [v.find(pred)]: only arrays have the method. *)
Definition callFind (v : value) (pred : value -> result bool) : result value :=
  match v with
  | VArray l => findIn pred l
  | VUndefined | VNull => Throw (typeError (String.append "Cannot read properties of " (toString v)))
  | _ => Throw (typeError "find is not a function")
  end.

End Js.
Import Js.

(** A default parameter value: [f(x = d)] uses [d] when the argument is
  undefined (or was not passed). *)
Definition defaultTo (d : value) (arg : value) : value :=
  match arg with VUndefined => d | _ => arg end.

(** A JavaScript array whose elements are the given strings. *)
Definition strings (items : list string) : value :=
  VArray (List.map VString items).

(* ================================================================== *)
(** * src/PipeDelimitedHelpers.js *)
(* ================================================================== *)

Module PipeDelimitedHelpers.

Definition pipe : ascii := "|"%char.

(** [item => item.length > 0] *)
Definition nonEmpty (item : string) : bool := negb (isEmpty item).

(** [parse(data, trim = true)] *)
Definition parse (data : value) (trimArg : value) : result (list string) :=
  let trimFlag := defaultTo (VBool true) trimArg in
  try_catch
    (if negb (truthy data) || negb (isString data) then Normal []
     else
       match data with
       | VString s =>
           let items := split pipe s in
           Normal (if truthy trimFlag
                   then filter nonEmpty (List.map trim items)
                   else items)
       | _ => Normal []
       end)
    (fun _ => Normal []).

(** [stringify(items, trim = true)] *)
Definition stringify (items : value) (trimArg : value) : result string :=
  let trimFlag := defaultTo (VBool true) trimArg in
  try_catch
    (match items with
     | VArray l =>
         let processedItems :=
           if truthy trimFlag
           then filter nonEmpty (List.map (fun item => trim (toString item)) l)
           else List.map toString l in
         Normal (join "|" processedItems)
     | _ => Normal EmptyString
     end)
    (fun _ => Normal EmptyString).

(** [addItem(data, newItem, allowDuplicates = false)] *)
Definition addItem (data newItem allowDuplicates : value) : result value :=
  let allowDuplicates := defaultTo (VBool false) allowDuplicates in
  try_catch
    (if negb (truthy newItem) || negb (isString newItem)
     then Normal (Js.logicalOr data (VString ""))
     else
       items <- parse data VUndefined ;;
       trimmedNewItem <- callTrim newItem ;;
       if negb (truthy allowDuplicates) && mem trimmedNewItem items
       then Normal data
       else
         let items := items ++ [trimmedNewItem] in
         s <- stringify (strings items) VUndefined ;;
         Normal (VString s))
    (fun _ => Normal (Js.logicalOr data (VString ""))).

(** [removeItem(data, itemToRemove)] *)
Definition removeItem (data itemToRemove : value) : result value :=
  try_catch
    (if negb (truthy data) || negb (truthy itemToRemove)
     then Normal (Js.logicalOr data (VString ""))
     else
       items <- parse data VUndefined ;;
       trimmedItem <- callTrim itemToRemove ;;
       let filteredItems :=
         filter (fun item => negb (String.eqb item trimmedItem)) items in
       s <- stringify (strings filteredItems) VUndefined ;;
       Normal (VString s))
    (fun _ => Normal (Js.logicalOr data (VString ""))).

(** [updateItem(data, oldItem, newItem)] *)
Definition updateItem (data oldItem newItem : value) : result value :=
  try_catch
    (if negb (truthy data) || negb (truthy oldItem) || negb (truthy newItem)
     then Normal (Js.logicalOr data (VString ""))
     else
       items <- parse data VUndefined ;;
       trimmedOldItem <- callTrim oldItem ;;
       trimmedNewItem <- callTrim newItem ;;
       let updatedItems :=
         List.map (fun item => if String.eqb item trimmedOldItem
                               then trimmedNewItem else item) items in
       s <- stringify (strings updatedItems) VUndefined ;;
       Normal (VString s))
    (fun _ => Normal (Js.logicalOr data (VString ""))).

(** [currentItems.includes(item)] for an arbitrary [item]: the elements
    of [currentItems] are strings, so only an equal string is found. *)
Definition includesValue (currentItems : list string) (item : value) : bool :=
  match item with VString s => mem s currentItems | _ => false end.

(** [newOrder.includes(item)] for a string [item]. *)
Definition includesString (newOrder : list value) (item : string) : bool :=
  existsb (fun v => strictEqString v item) newOrder.

(** [reorderItems(data, newOrder)] *)
Definition reorderItems (data newOrder : value) : result value :=
  try_catch
    (if negb (truthy data) || negb (isArray newOrder)
     then Normal (Js.logicalOr data (VString ""))
     else
       match newOrder with
       | VArray newOrder =>
           currentItems <- parse data VUndefined ;;
           let validNewOrder := filter (includesValue currentItems) newOrder in
           let missingItems :=
             filter (fun item => negb (includesString newOrder item)) currentItems in
           let finalOrder := validNewOrder ++ List.map VString missingItems in
           s <- stringify (VArray finalOrder) VUndefined ;;
           Normal (VString s)
       | _ => Normal (Js.logicalOr data (VString ""))
       end)
    (fun _ => Normal (Js.logicalOr data (VString ""))).

(** [contains(data, item)] *)
Definition contains (data item : value) : result bool :=
  try_catch
    (if negb (truthy data) || negb (truthy item) then Normal false
     else
       items <- parse data VUndefined ;;
       trimmed <- callTrim item ;;
       Normal (mem trimmed items))
    (fun _ => Normal false).

(** The body of [dataArray.forEach(data => { ... })] in [merge],
    threading the accumulator [allItems]. *)
Fixpoint mergeEach (dataArray : list value) (allItems : list string)
  : result (list string) :=
  match dataArray with
  | [] => Normal allItems
  | data :: rest =>
      if truthy data && isString data then
        items <- parse data VUndefined ;;
        mergeEach rest (allItems ++ items)
      else mergeEach rest allItems
  end.

(** [merge(dataArray, removeDuplicates = true)] *)
Definition merge (dataArray removeDuplicates : value) : result string :=
  let removeDuplicates := defaultTo (VBool true) removeDuplicates in
  try_catch
    (match dataArray with
     | VArray l =>
         allItems <- mergeEach l [] ;;
         let allItems := if truthy removeDuplicates then unique allItems
                         else allItems in
         stringify (strings allItems) VUndefined
     | _ => Normal EmptyString
     end)
    (fun _ => Normal EmptyString).

(** The object returned by [validate]; [uniqueItemCount] is absent on
    the early returns. *)
Record report : Type := Report {
  valid : bool;
  itemCount : nat;
  uniqueItemCount : option nat;
  issues : list string
  }.

Definition LF : ascii := ascii_of_nat 10.
Definition CR : ascii := ascii_of_nat 13.
Definition TAB : ascii := ascii_of_nat 9.

(** [item.includes('\n') || item.includes('\r') || item.includes('\t')] *)
Definition problematic (item : string) : bool :=
  includesChar item LF || includesChar item CR || includesChar item TAB.

(** [issues.push(x)] when [cond] holds. *)
Definition pushIf (cond : bool) (x : string) (issues : list string) : list string :=
  if cond then issues ++ [x] else issues.

(** [validate(data)] *)
Definition validate (data : value) : result report :=
  try_catch
    (if negb (truthy data) then Normal (Report true 0 None [])
     else if negb (isString data)
     then Normal (Report false 0 None ["Data must be a string"])
     else
       items <- parse data VUndefined ;;
       let issues := [] in
       let emptyItems := filter (fun item => String.eqb (trim item) "") items in
       let issues :=
         pushIf (0 <? List.length emptyItems)
           (String.append "Found "
              (String.append (ofNat (List.length emptyItems)) " empty items"))
           issues in
       let uniqueItems := unique items in
       let issues :=
         pushIf (negb (List.length uniqueItems =? List.length items))
           (String.append "Found "
              (String.append
                 (ofZ (Z.of_nat (List.length items)
                       - Z.of_nat (List.length uniqueItems))%Z)
                 " duplicate items"))
           issues in
       let problematicItems := filter problematic items in
       let issues :=
         pushIf (0 <? List.length problematicItems)
           (String.append "Found "
              (String.append (ofNat (List.length problematicItems))
                 " items with line breaks or tabs"))
           issues in
       Normal (Report (List.length issues =? 0) (List.length items)
                 (Some (List.length uniqueItems)) issues))
    (fun error =>
       Normal (Report false 0 None [String.append "Validation error: " error])).

(** [item.replace(/[\n\r\t]/g, ' ')] *)
Fixpoint replaceBreaks (item : string) : string :=
  match item with
  | EmptyString => EmptyString
  | String c r =>
      String (if Ascii.eqb c LF || Ascii.eqb c CR || Ascii.eqb c TAB
              then " "%char else c)
             (replaceBreaks r)
  end.

(** [item.replace(/\s+/g, ' ')]: every maximal run of white space
    becomes one space (emitted at the last character of the run). *)
Fixpoint collapseSpaces (item : string) : string :=
  match item with
  | EmptyString => EmptyString
  | String c r =>
      if isWhiteSpace c then
        match r with
        | String d _ =>
            if isWhiteSpace d then collapseSpaces r
            else String " "%char (collapseSpaces r)
        | EmptyString => String " "%char EmptyString
        end
      else String c (collapseSpaces r)
  end.

Fixpoint hasKey (k : string) (fields : list (string * value)) : bool :=
  match fields with
  | [] => false
  | (k', _) :: r => String.eqb k k' || hasKey k r
  end.

(** [({ ...defaultOptions, ...options })[name]] where every default
    is [true]: the own property of [options] when it has one. *)
Definition opt (options : value) (name : string) : value :=
  match options with
  | VObject fields =>
      if hasKey name fields then lookup name fields else VBool true
  | _ => VBool true
  end.

(** [clean(data, options = {})] *)
Definition clean (data options : value) : result value :=
  let options := defaultTo (VObject []) options in
  try_catch
    (if negb (truthy data) then Normal (VString "")
     else
       items <- parse data (opt options "trimItems") ;;
       let items :=
         if truthy (opt options "removeEmpty")
         then filter (fun item => 0 <? String.length (trim item)) items
         else items in
       let items :=
         if truthy (opt options "removeLineBreaks")
         then List.map (fun item => trim (collapseSpaces (replaceBreaks item))) items
         else items in
       let items :=
         if truthy (opt options "removeDuplicates") then unique items
         else items in
       s <- stringify (strings items) VUndefined ;;
       Normal (VString s))
    (fun _ => Normal (Js.logicalOr data (VString ""))).

(** [getCount(data)] *)
Definition getCount (data : value) : result nat :=
  try_catch
    (if negb (truthy data) then Normal 0
     else
       items <- parse data VUndefined ;;
       Normal (List.length items))
    (fun _ => Normal 0).

End PipeDelimitedHelpers.

(** The two methods of [PipeDelimitedHelpers] that take a callback.
    They stand in a module of their own because their names are those
    of the list functions.  A callback is code of the caller: it can
    throw any value, [null] and [undefined] included, and the handlers
    of the two methods call [error.toString()] on what was thrown. *)
Module PipeDelimitedCallbacks.

(** How a call of the callback, or the body of the [try] block, ends:
    with a value, or with a thrown value. *)
Inductive completion (A : Type) : Type :=
| Returned (a : A)
| Thrown (error : value).
Arguments Returned {A} a.
Arguments Thrown {A} error.

Definition andThen {A B} (m : completion A) (k : A -> completion B)
  : completion B :=
  match m with
  | Returned a => k a
  | Thrown error => Thrown error
  end.

(** The Error object behind a [Throw] of the helpers, as a thrown
    value. *)
Definition errorObject (message : string) : value :=
  VObject [("message", VString message)].

(** A call of a helper inside the [try] block. *)
Definition raise {A} (r : result A) : completion A :=
  match r with
  | Normal a => Returned a
  | Throw message => Thrown (errorObject message)
  end.

(** Whether a value can be converted to a string.  No value of the model
    is a function, so an object that has a property [toString] of its
    own cannot; an array is joined from its elements. *)
Fixpoint convertible (v : value) : bool :=
  match v with
  | VArray l => forallb convertible l
  | VObject fields => negb (PipeDelimitedHelpers.hasKey "toString" fields)
  | _ => true
  end.

(** [error.toString()] in a handler.  The text only reaches
    [Logger.log], so it is not kept; the call itself is a TypeError on
    [null] and [undefined] and on a value that cannot be converted. *)
Definition callToString (error : value) : result unit :=
  match error with
  | VUndefined | VNull =>
      Throw (typeError (String.append "Cannot read properties of " (toString error)))
  | VObject _ =>
      if convertible error then Normal tt
      else Throw (typeError "error.toString is not a function")
  | _ =>
      if convertible error then Normal tt
      else Throw (typeError "Cannot convert object to primitive value")
  end.

(** The handler of both methods:
    [Logger.log('...' + error.toString()); return data || '';] *)
Definition logAndReturn (data error : value) : result value :=
  _ <- callToString error ;;
  Normal (Js.logicalOr data (VString "")).

(** The argument passed as [filterFunction] or [mapFunction]: some value
    that is not a function, or a function of the item, its index and
    the array, without effects of its own, that returns a value or
    throws one. *)
Inductive callback : Type :=
| NotCallable (v : value)
| Callable (f : string -> nat -> list string -> completion value).

(** [typeof fn !== 'function'] *)
Definition notFunction (fn : callback) : bool :=
  match fn with NotCallable _ => true | Callable _ => false end.

(** [array.filter(f)], from position [index] on: the callback is called
    on every item in order; the items with a truthy answer are kept. *)
Fixpoint filterLoop (f : string -> nat -> list string -> completion value)
         (array : list string) (index : nat) (items : list string)
  : completion (list string) :=
  match items with
  | [] => Returned []
  | item :: rest =>
      andThen (f item index array) (fun keep =>
      andThen (filterLoop f array (S index) rest) (fun kept =>
      Returned (if truthy keep then item :: kept else kept)))
  end.

(** [array.map(f)], from position [index] on. *)
Fixpoint mapLoop (f : string -> nat -> list string -> completion value)
         (array : list string) (index : nat) (items : list string)
  : completion (list value) :=
  match items with
  | [] => Returned []
  | item :: rest =>
      andThen (f item index array) (fun y =>
      andThen (mapLoop f array (S index) rest) (fun ys =>
      Returned (y :: ys)))
  end.

(** [filter(data, filterFunction)] *)
Definition filter (data : value) (filterFunction : callback) : result value :=
  let body :=
    if negb (truthy data) || notFunction filterFunction
    then Returned (Js.logicalOr data (VString ""))
    else
      match filterFunction with
      | Callable f =>
          andThen (raise (PipeDelimitedHelpers.parse data VUndefined)) (fun items =>
          andThen (filterLoop f items 0 items) (fun filteredItems =>
          andThen (raise (PipeDelimitedHelpers.stringify
                            (strings filteredItems) VUndefined)) (fun s =>
          Returned (VString s))))
      | NotCallable _ => Returned (Js.logicalOr data (VString ""))
      end in
  match body with
  | Returned v => Normal v
  | Thrown error => logAndReturn data error
  end.

(** [map(data, mapFunction)] *)
Definition map (data : value) (mapFunction : callback) : result value :=
  let body :=
    if negb (truthy data) || notFunction mapFunction
    then Returned (Js.logicalOr data (VString ""))
    else
      match mapFunction with
      | Callable f =>
          andThen (raise (PipeDelimitedHelpers.parse data VUndefined)) (fun items =>
          andThen (mapLoop f items 0 items) (fun mappedItems =>
          andThen (raise (PipeDelimitedHelpers.stringify
                            (VArray mappedItems) VUndefined)) (fun s =>
          Returned (VString s))))
      | NotCallable _ => Returned (Js.logicalOr data (VString ""))
      end in
  match body with
  | Returned v => Normal v
  | Thrown error => logAndReturn data error
  end.

End PipeDelimitedCallbacks.

(* ================================================================== *)
(** * Regular expressions *)
(* ================================================================== *)

(** The fragment of JavaScript regular expressions that the title
    parser uses, with the backtracking semantics of the language:
    alternatives are tried left to right, quantifiers are greedy, and a
    match is the first success in that order. *)
Module RegExp.

(** Repetition is only ever applied to a character class. *)
Inductive regex : Type :=
  | Lit (w : string)                    (* a literal word *)
  | OneOf (p : ascii -> bool)           (* one character of a class *)
  | Star (p : ascii -> bool)            (* [c*], greedy *)
  | Plus (p : ascii -> bool)            (* [c+], greedy *)
  | Opt (r : regex)                     (* [r?], greedy *)
  | Seq (r1 r2 : regex)
  | Alt (r1 r2 : regex)
  | Group (r : regex).                  (* the capturing group *)

(** Canonicalization of a code unit under the [i] flag: the upper-case
    form when that is again a single Latin-1 code unit. *)
Definition canonical_char (c : ascii) : ascii :=
  let n := nat_of_ascii c in
  if ((97 <=? n) && (n <=? 122))
   || ((224 <=? n) && (n <=? 254) && negb (n =? 247))
  then ascii_of_nat (n - 32) else c.

Definition sameChar (ignoreCase : bool) (c d : ascii) : bool :=
  if ignoreCase then Ascii.eqb (canonical_char c) (canonical_char d)
  else Ascii.eqb c d.

(** What a successful match leaves: the rest of the input and the text
    of the capturing group. *)
Definition state : Type := (string * option string)%type.

(** The first [n] characters of [s]. *)
Fixpoint take (n : nat) (s : string) : string :=
  match n, s with
  | S m, String c r => String c (take m r)
  | _, _ => EmptyString
  end.

(** The part of [s] consumed when [rest] is what is left of it. *)
Definition consumed (s rest : string) : string :=
  take (String.length s - String.length rest) s.

(** A literal word at the front of the input. *)
Fixpoint matchLit (ignoreCase : bool) (w s : string) : option string :=
  match w with
  | EmptyString => Some s
  | String c w' =>
    match s with
    | String d s' => if sameChar ignoreCase c d then matchLit ignoreCase w' s' else None
    | EmptyString => None
    end
  end.

(** [c*] followed by the continuation [k]: the longest run first, then
    shorter ones. *)
Fixpoint matchStar (p : ascii -> bool) (s : string) (cap : option string)
         (k : string -> option string -> option state) : option state :=
  match s with
  | String d s' =>
    if p d then
      match matchStar p s' cap k with
      | Some x => Some x
      | None => k s cap
      end
    else k s cap
  | EmptyString => k s cap
  end.

(** [matchRe ignoreCase r s cap k]: match [r] at the front of [s], then
    continue with [k] on what is left. *)
Fixpoint matchRe (ignoreCase : bool) (r : regex) (s : string) (cap : option string)
         (k : string -> option string -> option state) : option state :=
  match r with
  | Lit w =>
    match matchLit ignoreCase w s with
    | Some s' => k s' cap
    | None => None
    end
  | OneOf p =>
    match s with
    | String d s' => if p d then k s' cap else None
    | EmptyString => None
    end
  | Star p => matchStar p s cap k
  | Plus p =>
    match s with
    | String d s' => if p d then matchStar p s' cap k else None
    | EmptyString => None
    end
  | Opt r =>
    match matchRe ignoreCase r s cap k with
    | Some x => Some x
    | None => k s cap
    end
  | Seq r1 r2 =>
    matchRe ignoreCase r1 s cap (fun s' cap' => matchRe ignoreCase r2 s' cap' k)
  | Alt r1 r2 =>
    match matchRe ignoreCase r1 s cap k with
    | Some x => Some x
    | None => matchRe ignoreCase r2 s cap k
    end
  | Group r =>
    matchRe ignoreCase r s cap (fun s' _ => k s' (Some (consumed s s')))
  end.

(** A match that starts at the front of [s]. *)
Definition matchAt (ignoreCase : bool) (r : regex) (s : string) : option state :=
  matchRe ignoreCase r s None (fun s' cap => Some (s', cap)).

(** [s.match(r)] for a pattern without the [g] flag: the capture of the
    leftmost match ([Some None] when the group took no part), or [None]
    when there is no match. *)
Fixpoint exec (ignoreCase : bool) (r : regex) (s : string) : option (option string) :=
  match matchAt ignoreCase r s with
  | Some (_, cap) => Some cap
  | None =>
    match s with
    | String _ s' => exec ignoreCase r s'
    | EmptyString => None
    end
  end.

(** [s.replace(r, '')] for a pattern with the [g] flag.  [skip] counts
    the characters of the current match that are still to be dropped;
    after an empty match the scan moves on by one character. *)
Fixpoint removeFrom (ignoreCase : bool) (r : regex) (s : string) (skip : nat)
  : string :=
  match s with
  | EmptyString => EmptyString
  | String c s' =>
    match skip with
    | S n => removeFrom ignoreCase r s' n
    | 0 =>
        match matchAt ignoreCase r s with
        | Some (rest, _) =>
            match String.length s - String.length rest with
            | S n => removeFrom ignoreCase r s' n
            | 0 => String c (removeFrom ignoreCase r s' 0)
            end
        | None => String c (removeFrom ignoreCase r s' 0)
        end
    end
  end.

Definition removeAll (ignoreCase : bool) (r : regex) (s : string) : string :=
  removeFrom ignoreCase r s 0.

End RegExp.

(* ================================================================== *)
(** * src/CalendarService.js: the appointment matcher *)
(* ================================================================== *)

Module CalendarService.

(** The confidence labels ['high'], ['medium'], ['low'], ['none']. *)
Inductive confidence : Type := high | medium | low | none.

(** What the global [getAllClients] does when
    [matchAppointmentToClient] evaluates
    [typeof getAllClients !== 'undefined'] and calls it: the function
    lives outside this file, so it is an input of the model. *)
Inductive clientSource : Type :=
  | NotDefined
  | Returns (allClients : value)
  | Fails (error : string).

(** [[A-Z0-9]] *)
Definition upperOrDigit (c : ascii) : bool :=
  let n := nat_of_ascii c in
  ((65 <=? n) && (n <=? 90)) || ((48 <=? n) && (n <=? 57)).

(** [[^)]] *)
Definition notClosing (c : ascii) : bool := negb (Ascii.eqb c ")"%char).

(** [/\(([A-Z0-9]+)\)/] *)
Definition idPattern : RegExp.regex :=
  RegExp.Seq (RegExp.Lit "(")
  (RegExp.Seq (RegExp.Group (RegExp.Plus upperOrDigit)) (RegExp.Lit ")")).

(** [(therapy|session|counseling|appointment|meeting|consultation|treatment)] *)
Definition keywords : RegExp.regex :=
  RegExp.Group
  (RegExp.Alt (RegExp.Lit "therapy")
  (RegExp.Alt (RegExp.Lit "session")
  (RegExp.Alt (RegExp.Lit "counseling")
  (RegExp.Alt (RegExp.Lit "appointment")
  (RegExp.Alt (RegExp.Lit "meeting")
  (RegExp.Alt (RegExp.Lit "consultation")
              (RegExp.Lit "treatment"))))))).

(** [/\s*-\s*(therapy|...|treatment)\s*/gi] *)
Definition dashKeyword : RegExp.regex :=
  RegExp.Seq (RegExp.Star isWhiteSpace)
  (RegExp.Seq (RegExp.Lit "-")
  (RegExp.Seq (RegExp.Star isWhiteSpace)
  (RegExp.Seq keywords (RegExp.Star isWhiteSpace)))).

(** [/\s*(therapy|...|treatment)\s*-?\s*/gi] *)
Definition keywordDash : RegExp.regex :=
  RegExp.Seq (RegExp.Star isWhiteSpace)
  (RegExp.Seq keywords
  (RegExp.Seq (RegExp.Star isWhiteSpace)
  (RegExp.Seq (RegExp.Opt (RegExp.Lit "-")) (RegExp.Star isWhiteSpace)))).

(** [/\([^)]*\)/g] *)
Definition parenthetical : RegExp.regex :=
  RegExp.Seq (RegExp.Lit "(")
  (RegExp.Seq (RegExp.Star notClosing) (RegExp.Lit ")")).

(** The chain of [replace] calls and the final [trim] that produce
    [cleanTitle]. *)
Definition cleanTitle (title : string) : string :=
  trim (RegExp.removeAll false parenthetical
        (RegExp.removeAll true keywordDash
           (RegExp.removeAll true dashKeyword title))).

(** The object [{ name, id }] returned by [extractClientFromTitle]. *)
Record extracted : Type := Extracted {
  name : value;
  id : string
  }.

(** [extractClientFromTitle(title)].  [match] and [replace] are methods
    of strings only, so on any other title the first call throws, the
    handler keeps the title as the name, and [id] is still [''] . *)
Definition extractClientFromTitle (title : value) : result extracted :=
  try_catch
  (match title with
   | VString t =>
       let id :=
         match RegExp.exec false idPattern t with
         | Some (Some group1) => group1
         | _ => EmptyString
         end in
       let name := Js.logicalOr (VString (cleanTitle t)) title in
       Normal (Extracted name id)
   | VUndefined | VNull =>
       Throw (typeError (String.append "Cannot read properties of " (toString title)))
   | _ => Throw (typeError "title.match is not a function")
   end)
  (fun _ => Normal (Extracted title EmptyString)).

(** [client.id.toLowerCase() === appointment.extractedClientId.toLowerCase()] *)
Definition sameId (appointment client : value) : result value :=
  id <- get client "id" ;;
  a <- callToLowerCase id ;;
  extractedClientId <- get appointment "extractedClientId" ;;
  b <- callToLowerCase extractedClientId ;;
  Normal (VBool (String.eqb a b)).

(** [client.name.toLowerCase() === extractedName] *)
Definition sameName (extractedName : string) (client : value) : result value :=
  name <- get client "name" ;;
  a <- callToLowerCase name ;;
  Normal (VBool (String.eqb a extractedName)).

(** [client => client.id && client.id.toLowerCase() ===
      appointment.extractedClientId.toLowerCase()] *)
Definition idMatches (appointment client : value) : result bool :=
  test (Js.logicalAnd (get client "id") (sameId appointment client)).

(** [client => client.name && client.name.toLowerCase() === extractedName] *)
Definition nameMatches (extractedName : string) (client : value) : result bool :=
  test (Js.logicalAnd (get client "name") (sameName extractedName client)).

(** The callback of the partial name search. *)
Definition namePartiallyMatches (extractedName : string) (client : value)
  : result bool :=
  name <- get client "name" ;;
  if negb (truthy name) then Normal false
  else
    name <- get client "name" ;;
    clientName <- callToLowerCase name ;;
    Normal (includes clientName extractedName || includes extractedName clientName).

(** [!allClients || allClients.length === 0] *)
Definition noClients (allClients : value) : result bool :=
  if negb (truthy allClients) then Normal true
  else
    len <- get allClients "length" ;;
    Normal (match len with VNumber n => Z.eqb n 0 | _ => false end).

(** [matchAppointmentToClient(appointment, sheetName)]; [sheetName] is
    only passed on to [getAllClients], whose outcome is [source]. *)
Definition matchAppointmentToClient (source : clientSource) (appointment : value)
  : result value :=
  try_catch
    (match source with
     | NotDefined => Normal VNull
     | Fails _ => Normal VNull
     | Returns allClients =>
         empty <- noClients allClients ;;
         if empty then Normal VNull
         else
           extractedClientId <- get appointment "extractedClientId" ;;
           byId <- (if truthy extractedClientId
                    then callFind allClients (idMatches appointment)
                    else Normal VUndefined) ;;
           if truthy byId then Normal byId
           else
             extractedClientName <- get appointment "extractedClientName" ;;
             if truthy extractedClientName then
               lowered <- callToLowerCase extractedClientName ;;
               let extractedName := trim lowered in
               exactMatch <- callFind allClients (nameMatches extractedName) ;;
               if truthy exactMatch then Normal exactMatch
               else
                 partialMatch <-
                   callFind allClients (namePartiallyMatches extractedName) ;;
                 if truthy partialMatch then Normal partialMatch
                 else Normal VNull
             else Normal VNull
     end)
    (fun _ => Normal VNull).

(** [client.name.toLowerCase() === appointment.extractedClientName.toLowerCase()] *)
Definition sameFullName (appointment client : value) : result value :=
  name <- get client "name" ;;
  a <- callToLowerCase name ;;
  extractedClientName <- get appointment "extractedClientName" ;;
  b <- callToLowerCase extractedClientName ;;
  Normal (VBool (String.eqb a b)).

(** [calculateMatchConfidence(appointment, client)] *)
Definition calculateMatchConfidence (appointment client : value)
  : result confidence :=
  if negb (truthy client) then Normal none
  else
    try_catch
      (idHit <- test (Js.logicalAnd (get appointment "extractedClientId")
                        (Js.logicalAnd (get client "id") (sameId appointment client))) ;;
       if idHit then Normal high
       else
         nameHit <- test (Js.logicalAnd (get appointment "extractedClientName")
                            (Js.logicalAnd (get client "name")
                               (sameFullName appointment client))) ;;
         if nameHit then Normal high
         else
           both <- test (Js.logicalAnd (get appointment "extractedClientName")
                           (get client "name")) ;;
           if both then
             extractedClientName <- get appointment "extractedClientName" ;;
             extractedName <- callToLowerCase extractedClientName ;;
             name <- get client "name" ;;
             clientName <- callToLowerCase name ;;
             if includes clientName extractedName || includes extractedName clientName
             then Normal medium
             else Normal low
           else Normal low)
      (fun _ => Normal low).

(** [ToInt32]: the signed 32-bit integer congruent to [z]. *)
Definition toInt32 (z : Z) : Z :=
  ((z + 2147483648) mod 4294967296 - 2147483648)%Z.

(** [b.charCodeAt(0)] *)
Definition charCode (b : ascii) : Z := Z.of_nat (nat_of_ascii b).

(** [(a, b) => { a = ((a << 5) - a) + b.charCodeAt(0); return a & a; }]:
    the shift and the bitwise and work on 32-bit integers, the
    subtraction and the addition are exact. *)
Definition hashStep (a : Z) (b : ascii) : Z :=
  let a := (toInt32 (Z.shiftl a 5) - a + charCode b)%Z in
  toInt32 a.

(** [title.split('').reduce(f, a)] *)
Fixpoint reduceChars (f : Z -> ascii -> Z) (a : Z) (title : string) : Z :=
  match title with
  | EmptyString => a
  | String b rest => reduceChars f (f a b) rest
  end.

(** The [titleHash] of [generateEventId]. *)
Definition titleHash (title : string) : Z := reduceChars hashStep 0%Z title.

(** [generateEventId(startTime, title)], where [timestamp] is
    [startTime.getTime()]. *)
Definition generateEventId (timestamp : Z) (title : string) : string :=
  String.append "generated_"
    (String.append (ofZ timestamp)
       (String.append "_" (ofZ (Z.abs (titleHash title))))).

(** An appointment as [removeDuplicateEvents] reads it: the time of its
    start ([startTime.getTime()]) and its title. *)
Record event : Type := {
  eventStart : Z;
  eventTitle : string;
  eventRest : list (string * value)
}.

(** [`${event.startTime.getTime()}-${event.title}`] *)
Definition eventKey (e : event) : string :=
  String.append (ofZ (eventStart e)) (String.append "-" (eventTitle e)).

(** The [filter] of [removeDuplicateEvents], with the set [seen]. *)
Fixpoint filterUnseen (seen : list string) (events : list event) : list event :=
  match events with
  | [] => []
  | e :: rest =>
      let key := eventKey e in
      if mem key seen then filterUnseen seen rest
      else e :: filterUnseen (key :: seen) rest
  end.

(** [removeDuplicateEvents(events)] *)
Definition removeDuplicateEvents (events : list event) : list event :=
  filterUnseen [] events.

(** One element of the array returned by
    [getAppointmentsWithClientMatches]: the appointment with the three
    properties added to it. *)
Record matchedAppointment : Type := {
  appointment : value;
  matchedClient : value;
  hasClientMatch : bool;
  matchConfidence : confidence
}.

(** The callback that [getAppointmentsWithClientMatches] (and
    [enhanceAppointmentsWithStatus] in src/DialogHandler.js) maps over
    the appointments. *)
Definition withClientMatch (source : clientSource) (appointment : value)
  : result matchedAppointment :=
  try_catch
    (matchedClient <- matchAppointmentToClient source appointment ;;
     matchConfidence <- calculateMatchConfidence appointment matchedClient ;;
     Normal {| appointment := appointment;
               matchedClient := matchedClient;
               hasClientMatch := truthy matchedClient;
               matchConfidence := matchConfidence |})
    (fun _ =>
       Normal {| appointment := appointment;
                 matchedClient := VNull;
                 hasClientMatch := false;
                 matchConfidence := none |}).

(** [appointments.map(f)] for a callback that may throw. *)
Fixpoint mapAppointments {A} (f : value -> result A) (appointments : list value)
  : result (list A) :=
  match appointments with
  | [] => Normal []
  | a :: rest =>
      x <- f a ;;
      xs <- mapAppointments f rest ;;
      Normal (x :: xs)
  end.

(** [getAppointmentsWithClientMatches(startDate, endDate, sheetName)]:
    [fetched] is what [getAppointmentsInRangeWithRetry] does for the
    range, and [source] what [getAllClients] does at each call. *)
Definition getAppointmentsWithClientMatches (fetched : result (list value))
           (source : clientSource) : result (list matchedAppointment) :=
  try_catch
    (appointments <- fetched ;;
     mapAppointments (withClientMatch source) appointments)
    (fun error => Throw error).

End CalendarService.

(* ================================================================== *)
(** * src/ConfigurationService.js: GoalManagementService *)
(* ================================================================== *)

Module GoalManagementService.

(** [addGoal(clientId, goalText, sheetName = 'Clients')].  The globals
    [getGoals] and [setGoals] live outside this file: what the call
    [getGoals(clientId, sheetName)] yields and what [setGoals] does with
    the new list are inputs of the model.  [logGoalChange] catches its
    own errors and returns nothing. *)
Definition addGoal (getGoals : result (list string))
           (setGoals : list string -> result unit) (goalText : value)
  : result (list string) :=
  try_catch
  (blank <- (if negb (truthy goalText) then Normal true
             else trimmed <- callTrim goalText ;;
                  Normal (String.eqb trimmed "")) ;;
   if blank then Throw "Goal text cannot be empty"
   else
     currentGoals <- getGoals ;;
     trimmedGoal <- callTrim goalText ;;
     if existsb (fun goal => String.eqb (toLowerCase goal) (toLowerCase trimmedGoal))
          currentGoals
     then Throw "This goal already exists for the client"
     else
       let updatedGoals := currentGoals ++ [trimmedGoal] in
       _ <- setGoals updatedGoals ;;
       Normal updatedGoals)
  (fun error => Throw (String.append "Failed to add goal: " error)).

(** [!text || text.trim() === ''] *)
Definition blank (text : value) : result bool :=
  if negb (truthy text) then Normal true
  else trimmed <- callTrim text ;;
       Normal (String.eqb trimmed "").

(** [removeGoal(clientId, goalText, sheetName = 'Clients')] *)
Definition removeGoal (getGoals : result (list string))
           (setGoals : list string -> result unit) (goalText : value)
  : result (list string) :=
  try_catch
    (currentGoals <- getGoals ;;
     let updatedGoals :=
       List.filter (fun goal => negb (strictEqString goalText goal)) currentGoals in
     if List.length updatedGoals =? List.length currentGoals
     then Throw "Goal not found"
     else
       _ <- setGoals updatedGoals ;;
       Normal updatedGoals)
    (fun error => Throw (String.append "Failed to remove goal: " error)).

(** [goals.findIndex(p)], [None] for [-1]. *)
Fixpoint findIndex (p : string -> bool) (goals : list string) : option nat :=
  match goals with
  | [] => None
  | goal :: rest =>
      if p goal then Some 0
      else match findIndex p rest with
           | Some i => Some (S i)
           | None => None
           end
  end.

(** [goals.filter((_, index) => index !== i)] *)
Fixpoint withoutIndex (i : nat) (goals : list string) : list string :=
  match goals, i with
  | [], _ => []
  | _ :: rest, 0 => rest
  | goal :: rest, S j => goal :: withoutIndex j rest
  end.

(** [goals[i] = x] on a copy, for an index inside the array. *)
Fixpoint setIndex (i : nat) (x : string) (goals : list string) : list string :=
  match goals, i with
  | [], _ => []
  | _ :: rest, 0 => x :: rest
  | goal :: rest, S j => goal :: setIndex j x rest
  end.

(** [goals.some(goal => goal.toLowerCase() === text.toLowerCase())] *)
Definition someSameIgnoringCase (text : string) (goals : list string) : bool :=
  existsb (fun goal => String.eqb (toLowerCase goal) (toLowerCase text)) goals.

(** [updateGoal(clientId, oldGoalText, newGoalText, sheetName = 'Clients')] *)
Definition updateGoal (getGoals : result (list string))
           (setGoals : list string -> result unit) (oldGoalText newGoalText : value)
  : result (list string) :=
  try_catch
    (isBlank <- blank newGoalText ;;
     if isBlank then Throw "New goal text cannot be empty"
     else
       currentGoals <- getGoals ;;
       trimmedNewGoal <- callTrim newGoalText ;;
       match findIndex (strictEqString oldGoalText) currentGoals with
       | None => Throw "Original goal not found"
       | Some goalIndex =>
           let otherGoals := withoutIndex goalIndex currentGoals in
           if someSameIgnoringCase trimmedNewGoal otherGoals
           then Throw "A goal with this text already exists"
           else
             let updatedGoals := setIndex goalIndex trimmedNewGoal currentGoals in
             _ <- setGoals updatedGoals ;;
             Normal updatedGoals
       end)
    (fun error => Throw (String.append "Failed to update goal: " error)).

(** [reorderGoals(clientId, reorderedGoals, sheetName = 'Clients')] on
    an array of strings. *)
Definition reorderGoals (getGoals : result (list string))
           (setGoals : list string -> result unit) (reorderedGoals : list string)
  : result (list string) :=
  try_catch
    (currentGoals <- getGoals ;;
     if negb (List.length reorderedGoals =? List.length currentGoals)
     then Throw "Reordered goals must contain the same number of goals"
     else
       let currentSet := unique currentGoals in
       let reorderedSet := unique reorderedGoals in
       if negb (List.length currentSet =? List.length reorderedSet)
          || negb (forallb (fun goal => mem goal reorderedSet) currentSet)
       then Throw "Reordered goals must contain exactly the same goals"
       else
         _ <- setGoals reorderedGoals ;;
         Normal reorderedGoals)
    (fun error => Throw (String.append "Failed to reorder goals: " error)).

(** [newGoals.filter(goal => goal && goal.trim() !== '')] *)
Fixpoint filterNonBlank (newGoals : list value) : result (list value) :=
  match newGoals with
  | [] => Normal []
  | goal :: rest =>
      keep <- (if truthy goal
               then trimmed <- callTrim goal ;;
                    Normal (negb (String.eqb trimmed ""))
               else Normal false) ;;
      kept <- filterNonBlank rest ;;
      Normal (if keep then goal :: kept else kept)
  end.

(** [goals.map(goal => goal.trim())] *)
Fixpoint trimAll (goals : list value) : result (list string) :=
  match goals with
  | [] => Normal []
  | goal :: rest =>
      trimmed <- callTrim goal ;;
      others <- trimAll rest ;;
      Normal (trimmed :: others)
  end.

(** [bulkUpdateGoals(clientId, newGoals, sheetName = 'Clients')] on an
    array; the last [filter], which keeps an element when [indexOf]
    finds it at its own index, keeps the first occurrences. *)
Definition bulkUpdateGoals (setGoals : list string -> result unit)
           (newGoals : list value) : result (list string) :=
  try_catch
    (nonBlank <- filterNonBlank newGoals ;;
     trimmed <- trimAll nonBlank ;;
     let validatedGoals := unique trimmed in
     _ <- setGoals validatedGoals ;;
     Normal validatedGoals)
    (fun error => Throw (String.append "Failed to bulk update goals: " error)).

End GoalManagementService.

(* ================================================================== *)
(** * The list of a cell, as the statements see it *)
(* ================================================================== *)

(** A string that does not begin with white space. *)
Definition startsClean (s : string) : Prop :=
  match s with
  | EmptyString => True
  | String c _ => isWhiteSpace c = false
  end.

(** The entries of a cell: what [parse] returns on a string. *)
Definition entries (text : string) : list string :=
  filter PipeDelimitedHelpers.nonEmpty
    (List.map trim (split PipeDelimitedHelpers.pipe text)).

(** What [stringify] returns on an array of strings. *)
Definition serialize (items : list string) : string :=
  join "|" (filter PipeDelimitedHelpers.nonEmpty (List.map trim items)).

(** An item that survives a write and a read: trimmed, not empty and
    free of the separator. *)
Definition storable (item : string) : Prop :=
  trim item = item /\ item <> EmptyString /\
  includesChar item PipeDelimitedHelpers.pipe = false.

(** A cell in canonical form: exactly the serialization of its entries. *)
Definition canonical (text : string) : Prop :=
  text = join "|" (entries text).

(** The string elements of an array, in order. *)
Fixpoint stringsOf (l : list value) : list string :=
  match l with
  | [] => []
  | VString s :: r => s :: stringsOf r
  | _ :: r => stringsOf r
  end.

(** The array that [reorderItems] hands to [stringify]: the strings of
    [newOrder] that are current entries, then the current entries that
    [newOrder] does not name. *)
Definition reordered (cur : list string) (newOrder : list value) : list string :=
  filter (fun s => mem s cur) (stringsOf newOrder)
  ++ filter (fun item => negb (mem item (stringsOf newOrder))) cur.

(* ================================================================== *)
(** * Typed views of the matcher's inputs *)
(* ================================================================== *)

(** A client record: identifier, name, and further columns that the
    matcher never reads. *)
Record Client : Type := {
  clientId : string;
  clientName : string;
  clientRest : list (string * value)
}.

Definition clientValue (c : Client) : value :=
  VObject (("id", VString (clientId c))
           :: ("name", VString (clientName c))
           :: clientRest c).

(** An appointment as [formatAppointmentData] builds it, reduced to the
    two fields the matcher reads. *)
Record Appointment : Type := {
  extractedClientId : string;
  extractedClientName : string;
  appointmentRest : list (string * value)
}.

Definition appointmentValue (a : Appointment) : value :=
  VObject (("extractedClientId", VString (extractedClientId a))
           :: ("extractedClientName", VString (extractedClientName a))
           :: appointmentRest a).

(** The value that [matchAppointmentToClient] returns for an optional
    client. *)
Definition optionalClient (c : option Client) : value :=
  match c with
  | Some c => clientValue c
  | None => VNull
  end.

(** Equality of two strings up to letter case. *)
Definition sameIgnoringCase (a b : string) : bool :=
  String.eqb (toLowerCase a) (toLowerCase b).

(** One string contains the other, up to letter case. *)
Definition overlapIgnoringCase (a b : string) : bool :=
  includes (toLowerCase a) (toLowerCase b)
  || includes (toLowerCase b) (toLowerCase a).

(** The three searches of [matchAppointmentToClient], as predicates on
    client records. *)
Definition idCandidate (extractedId : string) (c : Client) : bool :=
  PipeDelimitedHelpers.nonEmpty (clientId c)
  && String.eqb (toLowerCase (clientId c)) (toLowerCase extractedId).

Definition exactCandidate (extractedName : string) (c : Client) : bool :=
  PipeDelimitedHelpers.nonEmpty (clientName c)
  && String.eqb (toLowerCase (clientName c)) extractedName.

Definition partialCandidate (extractedName : string) (c : Client) : bool :=
  PipeDelimitedHelpers.nonEmpty (clientName c)
  && (includes (toLowerCase (clientName c)) extractedName
      || includes extractedName (toLowerCase (clientName c))).

(** The priority cascade of the specification: identifier, then exact
    name, then partial name, each time the first hit in list order. *)
Definition cascade (clients : list Client) (a : Appointment) : option Client :=
  let byId :=
    if PipeDelimitedHelpers.nonEmpty (extractedClientId a)
    then find (idCandidate (extractedClientId a)) clients
    else None in
  match byId with
  | Some c => Some c
  | None =>
      if PipeDelimitedHelpers.nonEmpty (extractedClientName a) then
        let extractedName := trim (toLowerCase (extractedClientName a)) in
        match find (exactCandidate extractedName) clients with
        | Some c => Some c
        | None => find (partialCandidate extractedName) clients
        end
      else None
  end.

(** The scoring rule of the specification, on records: identifiers or
    names present on both sides and equal up to case give [high]; names
    present on both sides, one containing the other, give [medium];
    anything else gives [low]. *)
Definition confidenceRule (a : Appointment) (c : Client)
  : CalendarService.confidence :=
  let present := PipeDelimitedHelpers.nonEmpty in
  if (present (extractedClientId a) && present (clientId c)
      && sameIgnoringCase (clientId c) (extractedClientId a))
     || (present (extractedClientName a) && present (clientName c)
         && sameIgnoringCase (clientName c) (extractedClientName a))
  then CalendarService.high
  else if present (extractedClientName a) && present (clientName c)
          && overlapIgnoringCase (clientName c) (extractedClientName a)
  then CalendarService.medium
  else CalendarService.low.

(** Overlap between an appointment and a candidate as the search sees
    it: identifiers present and equal up to case; names present, one
    containing the other once the extracted name is lower-cased and
    trimmed. *)
Definition idOverlap (a : Appointment) (c : Client) : bool :=
  PipeDelimitedHelpers.nonEmpty (extractedClientId a)
  && PipeDelimitedHelpers.nonEmpty (clientId c)
  && sameIgnoringCase (clientId c) (extractedClientId a).

Definition nameOverlap (a : Appointment) (c : Client) : bool :=
  let extractedName := trim (toLowerCase (extractedClientName a)) in
  PipeDelimitedHelpers.nonEmpty (extractedClientName a)
  && PipeDelimitedHelpers.nonEmpty (clientName c)
  && (includes (toLowerCase (clientName c)) extractedName
      || includes extractedName (toLowerCase (clientName c))).

(* ================================================================== *)
(** * Title parsing, in the words of the specification *)
(* ================================================================== *)

(** [rest] is a suffix of [s]. *)
Definition suffix (rest s : string) : Prop :=
  exists m, s = String.append m rest.

(** The longest run of characters of a class at the front of a string,
    and what follows it. *)
Fixpoint takeRun (p : ascii -> bool) (s : string) : string :=
  match s with
  | String c r => if p c then String c (takeRun p r) else EmptyString
  | EmptyString => EmptyString
  end.

Fixpoint skipRun (p : ascii -> bool) (s : string) : string :=
  match s with
  | String c r => if p c then skipRun p r else s
  | EmptyString => EmptyString
  end.

Fixpoint allChars (p : ascii -> bool) (s : string) : bool :=
  match s with
  | String c r => p c && allChars p r
  | EmptyString => true
  end.

(** [s] begins with a parenthesized token: an opening parenthesis, a
    non-empty run [tok] of upper-case letters and digits, and a closing
    parenthesis; [rest] is what follows. *)
Definition tokenAt (s tok rest : string) : Prop :=
  s = String "("%char (String.append tok (String ")"%char rest))
  /\ tok <> EmptyString
  /\ allChars CalendarService.upperOrDigit tok = true.

(** The parenthesized token at the front of [s], computed. *)
Definition tokenHere (s : string) : option (string * string) :=
  match s with
  | String c s1 =>
      if Ascii.eqb c "("%char then
        match takeRun CalendarService.upperOrDigit s1,
              skipRun CalendarService.upperOrDigit s1 with
        | String x tok, String e rest =>
            if Ascii.eqb e ")"%char then Some (String x tok, rest) else None
        | _, _ => None
        end
      else None
  | EmptyString => None
  end.

(** [tok] is the first parenthesized token of the title: no token
    begins at an earlier position. *)
Inductive firstToken : string -> string -> Prop :=
| token_here (s tok rest : string) :
    tokenAt s tok rest -> firstToken s tok
| token_later (c : ascii) (s tok : string) :
    (forall tok' rest, ~ tokenAt (String c s) tok' rest) ->
    firstToken s tok ->
    firstToken (String c s) tok.

(** The string holds parenthetical content: an opening parenthesis with
    a closing one somewhere after it. *)
Fixpoint hasParenthetical (s : string) : bool :=
  match s with
  | String c r =>
      (Ascii.eqb c "("%char && includesChar r ")"%char) || hasParenthetical r
  | EmptyString => false
  end.

(** The session keywords. *)
Definition keywordList : list string :=
  ["therapy"; "session"; "counseling"; "appointment"; "meeting";
   "consultation"; "treatment"].

(** Some keyword stands at the front of [s], in any letter case. *)
Definition keywordAt (s : string) : bool :=
  existsb (fun w => match RegExp.matchLit true w s with
                    | Some _ => true
                    | None => false
                    end) keywordList.

(** Some keyword occurs in [s], in any letter case. *)
Fixpoint hasKeyword (s : string) : bool :=
  keywordAt s ||
  match s with
  | String _ r => hasKeyword r
  | EmptyString => false
  end.

(** A dash followed by a keyword stands at the front of [s], with
    optional white space before the dash and before the keyword. *)
Definition dashKeywordAt (s : string) : bool :=
  match skipRun isWhiteSpace s with
  | String c r => Ascii.eqb c "-"%char && keywordAt (skipRun isWhiteSpace r)
  | EmptyString => false
  end.

(** The words of a regular expression: [matches ignoreCase r m] says
    that [m] belongs to the language of [r]. *)
Inductive matches (ignoreCase : bool) : RegExp.regex -> string -> Prop :=
| matches_lit (w m : string) :
    RegExp.matchLit ignoreCase w m = Some EmptyString ->
    matches ignoreCase (RegExp.Lit w) m
| matches_class (p : ascii -> bool) (c : ascii) :
    p c = true -> matches ignoreCase (RegExp.OneOf p) (String c EmptyString)
| matches_star (p : ascii -> bool) (m : string) :
    allChars p m = true -> matches ignoreCase (RegExp.Star p) m
| matches_plus (p : ascii -> bool) (m : string) :
    allChars p m = true -> m <> EmptyString ->
    matches ignoreCase (RegExp.Plus p) m
| matches_opt_some (r : RegExp.regex) (m : string) :
    matches ignoreCase r m -> matches ignoreCase (RegExp.Opt r) m
| matches_opt_none (r : RegExp.regex) :
    matches ignoreCase (RegExp.Opt r) EmptyString
| matches_seq (r1 r2 : RegExp.regex) (m1 m2 : string) :
    matches ignoreCase r1 m1 -> matches ignoreCase r2 m2 ->
    matches ignoreCase (RegExp.Seq r1 r2) (String.append m1 m2)
| matches_alt_left (r1 r2 : RegExp.regex) (m : string) :
    matches ignoreCase r1 m -> matches ignoreCase (RegExp.Alt r1 r2) m
| matches_alt_right (r1 r2 : RegExp.regex) (m : string) :
    matches ignoreCase r2 m -> matches ignoreCase (RegExp.Alt r1 r2) m
| matches_group (r : RegExp.regex) (m : string) :
    matches ignoreCase r m -> matches ignoreCase (RegExp.Group r) m.

(** [deletes seg s t]: [t] is [s] with some non-empty segments that
    satisfy [seg] deleted, and nothing else changed. *)
Inductive deletes (seg : string -> Prop) : string -> string -> Prop :=
| deletes_nil : deletes seg EmptyString EmptyString
| deletes_keep (c : ascii) (s t : string) :
    deletes seg s t -> deletes seg (String c s) (String c t)
| deletes_drop (m s t : string) :
    seg m -> m <> EmptyString -> deletes seg s t ->
    deletes seg (String.append m s) t.

(** What is left of [s] behind the keyword that stands at its front,
    in any letter case; the keywords are tried in the order of the
    pattern. *)
Definition afterKeyword (s : string) : option string :=
  fold_right (fun w later => match RegExp.matchLit true w s with
                             | Some rest => Some rest
                             | None => later
                             end) None keywordList.

(** [m] is the longest non-empty word of [word] that [s] begins with,
    and [rest] is what follows it. *)
Definition longestMatch (word : string -> Prop) (s m rest : string) : Prop :=
  s = String.append m rest /\ m <> EmptyString /\ word m /\
  forall m' rest', s = String.append m' rest' -> word m' ->
                   String.length m' <= String.length m.

(** [s] begins with no non-empty word of [word]. *)
Definition noMatch (word : string -> Prop) (s : string) : Prop :=
  forall m rest, s = String.append m rest -> m <> EmptyString -> ~ word m.

(** [replaced word s t]: [t] is [s] with every occurrence of [word]
    removed, scanning from the left: where [s] begins with a word, the
    longest one is dropped and the scan goes on behind it; where it
    begins with none, the character is kept. *)
Inductive replaced (word : string -> Prop) : string -> string -> Prop :=
| replaced_end : replaced word EmptyString EmptyString
| replaced_drop (s m rest t : string) :
    longestMatch word s m rest -> replaced word rest t -> replaced word s t
| replaced_keep (c : ascii) (s t : string) :
    noMatch word (String c s) -> replaced word s t ->
    replaced word (String c s) (String c t).

(* ================================================================== *)
(** * Further notions used in the statements *)
(* ================================================================== *)

(** All entries of the strings of an array, in order; what [merge]
    collects before it removes duplicates. *)
Definition allEntries (dataArray : list value) : list string :=
  flat_map (fun data => match data with
                        | VString text => entries text
                        | _ => []
                        end) dataArray.

(** What [clean] makes of one item when [removeLineBreaks] is on. *)
Definition tidy (item : string) : string :=
  trim (PipeDelimitedHelpers.collapseSpaces
          (PipeDelimitedHelpers.replaceBreaks item)).

(** Every white space character of the string is a space, and no two
    of them are adjacent. *)
Fixpoint singleSpaced (s : string) : bool :=
  match s with
  | EmptyString => true
  | String c r =>
      (if isWhiteSpace c
       then Ascii.eqb c " "%char
            && match r with
               | String d _ => negb (isWhiteSpace d)
               | EmptyString => true
               end
       else true)
      && singleSpaced r
  end.

(** The number of entries equal to [x]. *)
Definition occurrences (x : string) (items : list string) : nat :=
  List.length (filter (String.eqb x) items).

(** No two goals of the list are equal up to letter case. *)
Definition distinctIgnoringCase (goals : list string) : Prop :=
  NoDup (List.map toLowerCase goals).

(** The polynomial [a * 31^n + c1 * 31^(n-1) + ... + cn] over the
    character codes [c1 ... cn] of [title], computed exactly. *)
Fixpoint polynomial31 (a : Z) (title : string) : Z :=
  match title with
  | EmptyString => a
  | String b rest => polynomial31 (a * 31 + CalendarService.charCode b)%Z rest
  end.
(* ================================================================== *)
(** * Facts about the string primitives *)
(* ================================================================== *)

Section StringFacts.

Lemma isEmpty_true (s : string) : isEmpty s = true <-> s = EmptyString.
Proof. destruct s; simpl; split; congruence. Qed.

Lemma isEmpty_false (s : string) : isEmpty s = false <-> s <> EmptyString.
Proof. destruct s; simpl; split; congruence. Qed.

(** ** [trim] *)

Lemma trimStart_startsClean s : startsClean (trimStart s).
Proof.
  induction s as [|c r IH]; simpl; [exact I|].
  destruct (isWhiteSpace c) eqn:W; [exact IH | exact W].
Qed.

Lemma trimStart_fix s : startsClean s -> trimStart s = s.
Proof. destruct s as [|c r]; simpl; [reflexivity|]. now intros ->. Qed.

Lemma trimEnd_cons c r :
  trimEnd (String c r) =
  match trimEnd r with
  | EmptyString => if isWhiteSpace c then EmptyString else String c EmptyString
  | r' => String c r'
  end.
Proof. reflexivity. Qed.

Lemma trimEnd_startsClean s : startsClean s -> startsClean (trimEnd s).
Proof.
  destruct s as [|c r]; [exact (fun H => H)|].
  intros H. rewrite trimEnd_cons. simpl in H.
  destruct (trimEnd r); [rewrite H|]; exact H.
Qed.

Lemma trimEnd_idem s : trimEnd (trimEnd s) = trimEnd s.
Proof.
  induction s as [|c r IH]; [reflexivity|].
  rewrite trimEnd_cons.
  destruct (trimEnd r) as [|d r'] eqn:E.
  - destruct (isWhiteSpace c) eqn:W; [reflexivity|].
    rewrite trimEnd_cons. simpl. now rewrite W.
  - rewrite trimEnd_cons, IH. reflexivity.
Qed.

Lemma trim_idem s : trim (trim s) = trim s.
Proof.
  unfold trim.
  rewrite (trimStart_fix _ (trimEnd_startsClean _ (trimStart_startsClean s))).
  apply trimEnd_idem.
Qed.

Lemma trim_empty : trim EmptyString = EmptyString.
Proof. reflexivity. Qed.

(** ** Characters of a trimmed string *)

Lemma includesChar_trimStart s c :
  includesChar s c = false -> includesChar (trimStart s) c = false.
Proof.
  induction s as [|d r IH]; simpl; [easy|].
  intros H. apply orb_false_iff in H as [H1 H2].
  destruct (isWhiteSpace d); [auto|]. simpl. now rewrite H1, H2.
Qed.

Lemma includesChar_trimEnd s c :
  includesChar s c = false -> includesChar (trimEnd s) c = false.
Proof.
  induction s as [|d r IH]; [easy|].
  intros H. simpl in H. apply orb_false_iff in H as [H1 H2].
  rewrite trimEnd_cons. specialize (IH H2).
  destruct (trimEnd r) as [|e r'].
  - destruct (isWhiteSpace d); simpl; [reflexivity|]. now rewrite H1.
  - change (includesChar (String d (String e r')) c)
      with (Ascii.eqb d c || includesChar (String e r') c).
    now rewrite H1, IH.
Qed.

Lemma includesChar_trim s c :
  includesChar s c = false -> includesChar (trim s) c = false.
Proof. intros H. apply includesChar_trimEnd, includesChar_trimStart, H. Qed.

(** ** [split] and [join] *)

Lemma split_not_nil sep s : split sep s <> [].
Proof.
  destruct s as [|c r]; simpl; [discriminate|].
  destruct (Ascii.eqb c sep); [discriminate|].
  destruct (split sep r); discriminate.
Qed.

Lemma split_pieces sep s :
  Forall (fun p => includesChar p sep = false) (split sep s).
Proof.
  induction s as [|c r IH]; simpl.
  - constructor; [reflexivity | constructor].
  - destruct (Ascii.eqb c sep) eqn:E.
    + constructor; [reflexivity | exact IH].
    + destruct (split sep r) as [|h t].
      * constructor; [simpl; now rewrite E | constructor].
      * inversion IH; subst. constructor; [simpl; now rewrite E | assumption].
Qed.

Lemma split_whole sep x :
  includesChar x sep = false -> split sep x = [x].
Proof.
  induction x as [|c r IH]; simpl; [reflexivity|].
  intros H. apply orb_false_iff in H as [H1 H2].
  rewrite H1, (IH H2). reflexivity.
Qed.

Lemma split_append sep x rest :
  includesChar x sep = false ->
  split sep (String.append x (String sep rest)) = x :: split sep rest.
Proof.
  induction x as [|c r IH]; simpl.
  - intros _. now rewrite Ascii.eqb_refl.
  - intros H. apply orb_false_iff in H as [H1 H2].
    rewrite H1, (IH H2). reflexivity.
Qed.

Lemma join_cons2 sep x y l :
  join sep (x :: y :: l) = String.append x (String.append sep (join sep (y :: l))).
Proof. reflexivity. Qed.

(** ** Membership and [unique] *)

Lemma mem_In x l : mem x l = true <-> In x l.
Proof.
  unfold mem. rewrite existsb_exists. split.
  - intros (y & Hy & E). apply String.eqb_eq in E. now subst.
  - intros H. exists x. split; [assumption | apply String.eqb_refl].
Qed.

Lemma mem_not_In x l : mem x l = false <-> ~ In x l.
Proof.
  rewrite <- mem_In. destruct (mem x l); split; congruence.
Qed.

Lemma unique_In x l : In x (unique l) <-> In x l.
Proof.
  induction l as [|y r IH]; simpl; [tauto|].
  rewrite filter_In, IH.
  destruct (String.eqb_spec x y) as [->|N]; simpl.
  - split; [tauto | now left].
  - split.
    + intros [E | [H _]]; [now left | now right].
    + intros [E | H]; [now left | right; auto].
Qed.

Lemma unique_NoDup l : NoDup (unique l).
Proof.
  induction l as [|y r IH]; simpl; constructor.
  - rewrite filter_In. intros [_ H]. now rewrite String.eqb_refl in H.
  - now apply NoDup_filter.
Qed.

Lemma unique_fix l : NoDup l -> unique l = l.
Proof.
  induction 1 as [|x l Hx Hl IH]; simpl; [reflexivity|].
  rewrite IH. f_equal.
  apply forallb_filter_id, forallb_forall.
  intros y Hy. destruct (String.eqb_spec y x); [now subst | reflexivity].
Qed.

End StringFacts.

(* ================================================================== *)
(** * Facts about [PipeDelimitedHelpers] *)
(* ================================================================== *)

Section PipeFacts.

Import PipeDelimitedHelpers.

Lemma parse_string (text : string) :
  parse (VString text) VUndefined = Normal (entries text).
Proof. destruct text; reflexivity. Qed.

Lemma parse_not_string (data : value) :
  isString data = false -> forall t, parse data t = Normal [].
Proof.
  intros H t. unfold parse. rewrite H, orb_true_r. reflexivity.
Qed.

Lemma stringify_strings (items : list string) :
  stringify (strings items) VUndefined = Normal (serialize items).
Proof.
  unfold stringify, strings, serialize. simpl.
  now rewrite map_map.
Qed.

Lemma storable_nonEmpty x : storable x -> nonEmpty x = true.
Proof.
  intros (_ & N & _). unfold nonEmpty.
  destruct x; [congruence | reflexivity].
Qed.

Lemma entries_storable (text : string) : Forall storable (entries text).
Proof.
  unfold entries. apply Forall_forall. intros x Hx.
  apply filter_In in Hx as [Hx Hne].
  apply in_map_iff in Hx as (p & <- & Hp).
  pose proof (split_pieces pipe text) as F.
  rewrite Forall_forall in F. specialize (F p Hp).
  repeat split.
  - apply trim_idem.
  - unfold nonEmpty in Hne. apply negb_true_iff in Hne.
    now apply isEmpty_false.
  - now apply includesChar_trim.
Qed.

Lemma filter_trim_storable (items : list string) :
  Forall storable items ->
  filter nonEmpty (List.map trim items) = items.
Proof.
  induction 1 as [|x l Hx Hl IH]; simpl; [reflexivity|].
  destruct Hx as (T & N & P). rewrite T.
  rewrite (storable_nonEmpty x (conj T (conj N P))), IH. reflexivity.
Qed.

Lemma serialize_storable (items : list string) :
  Forall storable items -> serialize items = join "|" items.
Proof. intros H. unfold serialize. now rewrite filter_trim_storable. Qed.

Lemma entries_single x : storable x -> entries x = [x].
Proof.
  intros H. pose proof H as (T & N & P). unfold entries.
  rewrite (split_whole pipe x P). simpl.
  now rewrite T, (storable_nonEmpty x H).
Qed.

Lemma entries_cons x rest :
  storable x ->
  entries (String.append x (String pipe rest)) = x :: entries rest.
Proof.
  intros H. pose proof H as (T & N & P). unfold entries.
  rewrite (split_append pipe x rest P). simpl.
  now rewrite T, (storable_nonEmpty x H).
Qed.

Lemma join_cons sep x l :
  l <> [] ->
  join sep (x :: l) = String.append x (String.append sep (join sep l)).
Proof. destruct l; [congruence | reflexivity]. Qed.

(** Reading back a serialized list whose last element is arbitrary. *)
Lemma entries_join_snoc (items : list string) (t : string) :
  Forall storable items ->
  entries (join "|" (items ++ [t])) = items ++ entries t.
Proof.
  induction 1 as [|x l Hx Hl IH]; [reflexivity|].
  change ((x :: l) ++ [t]) with (x :: (l ++ [t])).
  rewrite join_cons by (destruct l; discriminate).
  change (String.append "|" (join "|" (l ++ [t])))
    with (String pipe (join "|" (l ++ [t]))).
  rewrite (entries_cons x _ Hx), IH. reflexivity.
Qed.

(** Round trip: reading a serialized list of storable items. *)
Lemma entries_join (items : list string) :
  Forall storable items -> entries (join "|" items) = items.
Proof.
  induction 1 as [|x l Hx Hl IH]; [reflexivity|].
  destruct l as [|y l'].
  - now apply entries_single.
  - rewrite join_cons by discriminate.
    change (String.append "|" (join "|" (y :: l')))
      with (String pipe (join "|" (y :: l'))).
    rewrite (entries_cons x _ Hx), IH. reflexivity.
Qed.

Lemma entries_serialize (items : list string) :
  Forall storable items -> entries (serialize items) = items.
Proof.
  intros H. rewrite serialize_storable by assumption. now apply entries_join.
Qed.

Lemma join_empty_iff (items : list string) :
  Forall storable items -> join "|" items = EmptyString -> items = [].
Proof.
  intros H E. rewrite <- (entries_join items H), E. reflexivity.
Qed.

End PipeFacts.

(* ================================================================== *)
(** * The list operations on string arguments *)
(* ================================================================== *)

Section PipeOperations.

Import PipeDelimitedHelpers.

Lemma or_string (text : string) :
  Js.logicalOr (VString text) (VString "") = VString text.
Proof. destruct text; reflexivity. Qed.

Lemma or_idem (data : value) :
  Js.logicalOr (Js.logicalOr data (VString "")) (VString "") = Js.logicalOr data (VString "").
Proof. unfold Js.logicalOr. destruct (truthy data) eqn:E; [now rewrite E | reflexivity]. Qed.

Lemma truthy_string (s : string) : truthy (VString s) = negb (isEmpty s).
Proof. reflexivity. Qed.

Lemma filter_differs_idem (t : string) (items : list string) :
  let keep := fun item => negb (String.eqb item t) in
  filter keep (filter keep items) = filter keep items.
Proof.
  intros keep. apply forallb_filter_id, forallb_forall.
  intros y Hy. now apply filter_In in Hy.
Qed.

Lemma filter_differs_absent (t : string) (items : list string) :
  ~ In t items ->
  filter (fun item => negb (String.eqb item t)) items = items.
Proof.
  intros H. apply forallb_filter_id, forallb_forall.
  intros y Hy. destruct (String.eqb_spec y t); [now subst | reflexivity].
Qed.

Lemma Forall_filter_storable (f : string -> bool) (items : list string) :
  Forall storable items -> Forall storable (filter f items).
Proof.
  rewrite !Forall_forall. intros H x Hx. apply filter_In in Hx. now apply H.
Qed.

(** [removeItem] on two strings. *)
Lemma removeItem_string (text x : string) :
  removeItem (VString text) (VString x) =
  Normal (VString
            (if isEmpty text || isEmpty x then text
             else serialize
                    (filter (fun item => negb (String.eqb item (trim x)))
                       (entries text)))).
Proof.
  unfold removeItem. rewrite !truthy_string, !negb_involutive.
  destruct (isEmpty text || isEmpty x) eqn:G.
  - simpl. now rewrite or_string.
  - rewrite parse_string. cbn [bind callTrim]. rewrite stringify_strings.
    reflexivity.
Qed.

(** [removeItem], read back: the entries other than the trimmed item. *)
Lemma removeItem_entries (text x r : string) :
  removeItem (VString text) (VString x) = Normal (VString r) ->
  entries r = filter (fun item => negb (String.eqb item (trim x))) (entries text).
Proof.
  rewrite removeItem_string. intros [= <-].
  destruct (isEmpty text) eqn:Et; simpl.
  - apply isEmpty_true in Et. now subst.
  - destruct (isEmpty x) eqn:Ex.
    + apply isEmpty_true in Ex. subst x.
      symmetry. apply filter_differs_absent.
      intros H. pose proof (entries_storable text) as F.
      rewrite Forall_forall in F. now destruct (F _ H) as (_ & N & _).
    + apply entries_serialize, Forall_filter_storable, entries_storable.
Qed.

Lemma removeItem_not_string (data x : value) :
  isString data = false -> truthy data = true -> isString x = true ->
  truthy x = true ->
  removeItem data x = Normal (VString "").
Proof.
  intros Hs Td Hx Tx. unfold removeItem. rewrite Td, Tx.
  cbn [negb orb]. rewrite (parse_not_string data Hs).
  destruct x; try discriminate. reflexivity.
Qed.

Lemma removeItem_bad_item (data x : value) :
  isString x = false ->
  removeItem data x = Normal (Js.logicalOr data (VString "")).
Proof.
  intros Hx. unfold removeItem.
  destruct (negb (truthy data) || negb (truthy x)); [reflexivity|].
  destruct (parse data VUndefined); [|reflexivity].
  destruct x; try discriminate; reflexivity.
Qed.

(** [removeItem] applied twice, on arbitrary values. *)
Lemma removeItem_twice (data x : value) :
  exists r, removeItem data x = Normal r /\ removeItem r x = Normal r.
Proof.
  destruct (isString x) eqn:Sx; cycle 1.
  { exists (Js.logicalOr data (VString "")).
    rewrite !removeItem_bad_item by assumption. now rewrite or_idem. }
  destruct (truthy x) eqn:Tx; cycle 1.
  { exists (Js.logicalOr data (VString "")). unfold removeItem.
    rewrite Tx, !orb_true_r. now rewrite or_idem. }
  destruct (truthy data) eqn:Td; cycle 1.
  { exists (VString ""). unfold removeItem at 1. rewrite Td.
    unfold Js.logicalOr. rewrite Td. split; reflexivity. }
  destruct (isString data) eqn:Sd; cycle 1.
  { exists (VString ""). rewrite removeItem_not_string by assumption.
    split; reflexivity. }
  destruct data as [| |b|n|text|l|fs]; try discriminate.
  destruct x as [| |b|n|xs|l|fs]; try discriminate.
  rewrite removeItem_string.
  simpl in Td, Tx. apply negb_true_iff in Td, Tx. rewrite Td, Tx. simpl.
  set (kept := filter _ (entries text)).
  assert (Fk : Forall storable kept)
    by apply Forall_filter_storable, entries_storable.
  exists (VString (serialize kept)). split; [reflexivity|].
  rewrite removeItem_string, Tx, orb_false_r.
  destruct (isEmpty (serialize kept)) eqn:E; [reflexivity|].
  rewrite (entries_serialize kept Fk). unfold kept.
  now rewrite filter_differs_idem.
Qed.

(** C7.  [removeItem] is idempotent: removing [x] from the result of
    removing [x] gives that result again, for arbitrary arguments and in
    particular for strings.  On strings the result, read back, holds the
    entries of [text] other than the trimmed [x], in order; when the
    trimmed [x] is not an entry the entries are unchanged, and a cell in
    canonical form is returned as it is. *)
Theorem removeItem_idempotent :
  (forall data x : value,
      exists r, removeItem data x = Normal r /\ removeItem r x = Normal r) /\
  (forall text x : string,
      exists r,
        removeItem (VString text) (VString x) = Normal (VString r) /\
        removeItem (VString r) (VString x) = Normal (VString r) /\
        parse (VString r) VUndefined =
          Normal (filter (fun item => negb (String.eqb item (trim x)))
                    (entries text)) /\
        (~ In (trim x) (entries text) ->
         parse (VString r) VUndefined = parse (VString text) VUndefined /\
         (canonical text -> r = text))).
Proof.
  split; [exact removeItem_twice|]. intros text x.
  destruct (removeItem_twice (VString text) (VString x)) as (v & H1 & H2).
  pose proof (removeItem_string text x) as Hs.
  rewrite H1 in Hs. injection Hs as ->.
  eexists. split; [exact H1|]. split; [exact H2|].
  pose proof (removeItem_entries text x _ H1) as He.
  split; [now rewrite parse_string, He|].
  intros Habs. rewrite (filter_differs_absent _ _ Habs) in *.
  split; [now rewrite !parse_string, He|].
  intros Hc.
  destruct (isEmpty text || isEmpty x); [reflexivity|].
  rewrite serialize_storable by apply entries_storable.
  symmetry. exact Hc.
Qed.

Lemma removeItem_idempotent_witness :
  removeItem (VString "A|B") (VString "C") = Normal (VString "A|B") /\
  removeItem (VString " A | B |A") (VString "A ") = Normal (VString "B") /\
  removeItem (VString "B") (VString "A ") = Normal (VString "B").
Proof.
  destruct removeItem_idempotent as [_ H].
  split.
  - destruct (H "A|B" "C") as (r & H1 & _ & _ & H4).
    rewrite H1. f_equal. f_equal.
    apply H4; [|reflexivity].
    vm_compute. intros [E|[E|[]]]; discriminate.
  - destruct (H " A | B |A" "A ") as (r & H1 & H2 & _).
    assert (r = "B") as ->.
    { vm_compute in H1. now injection H1 as <-. }
    split; assumption.
Defined.

(** ** [updateItem] *)

Lemma updateItem_string (text oldItem newItem : string) :
  updateItem (VString text) (VString oldItem) (VString newItem) =
  Normal (VString
            (if isEmpty text || isEmpty oldItem || isEmpty newItem then text
             else serialize
                    (List.map (fun item => if String.eqb item (trim oldItem)
                                           then trim newItem else item)
                       (entries text)))).
Proof.
  unfold updateItem. rewrite !truthy_string, !negb_involutive.
  destruct (isEmpty text || isEmpty oldItem || isEmpty newItem) eqn:G.
  - now rewrite or_string.
  - rewrite parse_string. cbn [bind callTrim]. rewrite stringify_strings.
    reflexivity.
Qed.

Lemma Forall_map_replace (old new : string) (items : list string) :
  storable new -> Forall storable items ->
  Forall storable
    (List.map (fun item => if String.eqb item old then new else item) items).
Proof.
  intros Hn H. apply Forall_map. revert H. apply Forall_impl.
  intros a Ha. now destruct (String.eqb a old).
Qed.

Lemma map_replace_duplicates (old new : string) (items : list string) :
  In old items -> In new items -> new <> old ->
  ~ NoDup (List.map (fun item => if String.eqb item old then new else item) items).
Proof.
  intros Ho Hn Hne ND.
  set (f := fun item => if String.eqb item old then new else item) in *.
  assert (Fo : f old = new) by (unfold f; now rewrite String.eqb_refl).
  assert (Fn : f new = new).
  { unfold f. destruct (String.eqb_spec new old); congruence. }
  apply in_split in Ho as (l1 & l2 & ->).
  rewrite map_app in ND. simpl in ND. rewrite Fo in ND.
  apply NoDup_remove_2 in ND. apply ND.
  rewrite <- map_app. rewrite <- Fn. apply in_map.
  apply in_app_or in Hn as [H | [H | H]].
  - apply in_or_app. now left.
  - congruence.
  - apply in_or_app. now right.
Qed.

(** C10.  [updateItem] performs no deduplication.  With non-empty
    [oldItem] and [newItem] it serializes the entries of [text] in which
    every entry equal to the trimmed [oldItem] has been replaced, in
    place, by the trimmed [newItem]; when the trimmed [newItem] is itself
    a storable item these are exactly the entries of the result.  So
    when [oldItem] is an entry and the trimmed [newItem] is another
    entry, the entries of the result are not duplicate-free. *)
Theorem updateItem_no_dedup (text oldItem newItem : string) :
  oldItem <> EmptyString -> newItem <> EmptyString ->
  let updated :=
    List.map (fun item => if String.eqb item (trim oldItem)
                          then trim newItem else item) (entries text) in
  exists r,
    updateItem (VString text) (VString oldItem) (VString newItem)
      = Normal (VString r) /\
    stringify (strings updated) VUndefined = Normal r /\
    (storable (trim newItem) -> parse (VString r) VUndefined = Normal updated) /\
    (In (trim oldItem) (entries text) -> In (trim newItem) (entries text) ->
     trim newItem <> trim oldItem ->
     parse (VString r) VUndefined = Normal updated /\ ~ NoDup updated).
Proof.
  intros Ho Hn updated.
  apply isEmpty_false in Ho, Hn.
  assert (Er : forall r, r = serialize updated ->
                storable (trim newItem) -> parse (VString r) VUndefined = Normal updated).
  { intros r -> Hs. rewrite parse_string. f_equal.
    apply entries_serialize, Forall_map_replace; [assumption|].
    apply entries_storable. }
  exists (serialize updated).
  assert (Hu : updateItem (VString text) (VString oldItem) (VString newItem)
               = Normal (VString (serialize updated))).
  { rewrite updateItem_string, Ho, Hn, !orb_false_r.
    destruct (isEmpty text) eqn:Et; [|reflexivity].
    apply isEmpty_true in Et. now subst. }
  split; [exact Hu|].
  split; [apply stringify_strings|].
  split; [now apply Er|].
  intros Hio Hin Hne. split.
  - apply Er; [reflexivity|].
    pose proof (entries_storable text) as F. rewrite Forall_forall in F.
    now apply F.
  - now apply map_replace_duplicates.
Qed.

Lemma updateItem_no_dedup_witness :
  NoDup (entries "A|B") /\
  updateItem (VString "A|B") (VString "A") (VString " B") = Normal (VString "B|B") /\
  parse (VString "B|B") VUndefined = Normal ["B"; "B"] /\
  ~ NoDup ["B"; "B"].
Proof.
  assert (Ho : "A" <> EmptyString) by discriminate.
  assert (Hn : " B" <> EmptyString) by discriminate.
  destruct (updateItem_no_dedup "A|B" "A" " B" Ho Hn) as (r & H1 & H2 & _ & H4).
  assert (r = "B|B") as ->.
  { vm_compute in H2. now injection H2 as <-. }
  destruct H4 as [H5 H6].
  - vm_compute. now left.
  - vm_compute. right. now left.
  - vm_compute. discriminate.
  - split; [|split; [exact H1|split; [exact H5|exact H6]]].
    vm_compute. repeat constructor; simpl; intuition discriminate.
Defined.

(** ** [addItem] and [merge] *)

Example addItem_new : addItem (VString "A|B") (VString "C") VUndefined
                      = Normal (VString "A|B|C").
Proof. reflexivity. Qed.

Example merge_two : merge (strings ["A|B"; "B|C"]) (VBool true) = Normal "A|B|C".
Proof. reflexivity. Qed.


Lemma addItem_string (text item : string) (allowDuplicates : bool) :
  addItem (VString text) (VString item) (VBool allowDuplicates) =
  Normal (VString
            (if isEmpty item then text
             else if negb allowDuplicates && mem (trim item) (entries text)
                  then text
                  else serialize (entries text ++ [trim item]))).
Proof.
  unfold addItem. rewrite truthy_string, negb_involutive.
  cbn [isString negb orb defaultTo].
  rewrite orb_false_r.
  destruct (isEmpty item) eqn:Ei.
  - now rewrite or_string.
  - rewrite parse_string. cbn [bind callTrim truthy].
    destruct (negb allowDuplicates && mem (trim item) (entries text));
      [reflexivity|].
    rewrite stringify_strings. reflexivity.
Qed.

Lemma entries_serialize_snoc (items : list string) (t : string) :
  Forall storable items -> trim t = t ->
  entries (serialize (items ++ [t])) = items ++ entries t.
Proof.
  intros F T. unfold serialize.
  rewrite map_app, filter_app, (filter_trim_storable items F).
  cbn [List.map filter]. rewrite T.
  destruct t as [|c t'].
  - cbn [nonEmpty isEmpty negb]. rewrite !app_nil_r. now apply entries_join.
  - cbn [nonEmpty isEmpty negb]. now apply entries_join_snoc.
Qed.

(** C3, as the code has it.  [addItem] without duplicates returns the
    text unchanged when the trimmed item is already an entry.  Otherwise
    the result reads back as the entries of [text] followed by the
    entries of the trimmed item; that is the trimmed item alone, appended
    at the end, when it is storable (non-empty and free of [|]).  The two
    concrete calls of the scenario are included. *)
Theorem addItem_append (text item : string) :
  (In (trim item) (entries text) ->
   addItem (VString text) (VString item) (VBool false) = Normal (VString text)) /\
  (~ In (trim item) (entries text) ->
   exists r,
     addItem (VString text) (VString item) (VBool false) = Normal (VString r) /\
     parse (VString r) VUndefined = Normal (entries text ++ entries (trim item)) /\
     (storable (trim item) ->
      parse (VString r) VUndefined = Normal (entries text ++ [trim item]))) /\
  addItem (VString "A|B") (VString "A") (VBool false) = Normal (VString "A|B") /\
  addItem (VString "A|B") (VString "A") (VBool true) = Normal (VString "A|B|A").
Proof.
  split; [|split; [|split; reflexivity]].
  - intros H. apply mem_In in H. rewrite addItem_string, H.
    now destruct (isEmpty item).
  - intros H. apply mem_not_In in H. rewrite addItem_string, H.
    cbn [negb andb].
    assert (E : entries (if isEmpty item then text
                         else serialize (entries text ++ [trim item]))
                = entries text ++ entries (trim item)).
    { destruct (isEmpty item) eqn:Ei.
      - apply isEmpty_true in Ei. subst item.
        change (entries (trim "")) with (@nil string). now rewrite app_nil_r.
      - apply entries_serialize_snoc; [apply entries_storable | apply trim_idem]. }
    eexists. split; [reflexivity|].
    rewrite parse_string, E. split; [reflexivity|].
    intros Hs. now rewrite (entries_single _ Hs).
Qed.

Lemma addItem_append_witness :
  addItem (VString "A|B") (VString " A ") (VBool false) = Normal (VString "A|B") /\
  exists r,
    addItem (VString " A |B") (VString " C ") (VBool false) = Normal (VString r) /\
    parse (VString r) VUndefined = Normal ["A"; "B"; "C"].
Proof.
  destruct (addItem_append "A|B" " A ") as [H1 _].
  destruct (addItem_append " A |B" " C ") as (_ & H2 & _).
  split.
  - apply H1. vm_compute. now left.
  - destruct H2 as (r & Hr & _ & Hp).
    + vm_compute. intros [H|[H|[]]]; discriminate.
    + exists r. split; [exact Hr|]. apply Hp.
      vm_compute. repeat split; discriminate.
Defined.

(** C3 as stated fails: an item that contains the separator is not a
    duplicate, yet the result does not read back as the old entries with
    the trimmed item appended. *)
Lemma addItem_append_counterexample :
  ~ In (trim "C|D") (entries "A|B") /\
  addItem (VString "A|B") (VString "C|D") (VBool false)
    = Normal (VString "A|B|C|D") /\
  parse (VString "A|B|C|D") VUndefined = Normal ["A"; "B"; "C"; "D"] /\
  parse (VString "A|B") VUndefined = Normal ["A"; "B"] /\
  ["A"; "B"; "C"; "D"] <> ["A"; "B"] ++ [trim "C|D"].
Proof.
  repeat split; try reflexivity; vm_compute.
  - intros [H|[H|[]]]; discriminate.
  - discriminate.
Qed.

(** ** [reorderItems] *)

Lemma filter_includesValue (cur : list string) (newOrder : list value) :
  filter (includesValue cur) newOrder =
  List.map VString (filter (fun s => mem s cur) (stringsOf newOrder)).
Proof.
  induction newOrder as [|v r IH]; [reflexivity|].
  destruct v; simpl; try exact IH.
  destruct (mem s cur); simpl; now rewrite IH.
Qed.

Lemma includesString_mem (newOrder : list value) (item : string) :
  includesString newOrder item = mem item (stringsOf newOrder).
Proof.
  induction newOrder as [|v r IH]; [reflexivity|].
  destruct v; simpl; try exact IH.
  unfold includesString, mem in *. simpl.
  now rewrite IH, String.eqb_sym.
Qed.

Lemma stringsOf_In (s : string) (l : list value) :
  In s (stringsOf l) <-> In (VString s) l.
Proof.
  induction l as [|v r IH]; simpl; [tauto|].
  destruct v; simpl; rewrite IH; split;
    try (intros [H|H]; [discriminate H | exact H]);
    try (intros H; right; exact H).
  - intros [E|H]; [left; now subst | now right].
  - intros [E|H]; [left; congruence | now right].
Qed.

Lemma reorderItems_string (text : string) (newOrder : list value) :
  reorderItems (VString text) (VArray newOrder) =
  Normal (VString (if isEmpty text then text
                   else serialize (reordered (entries text) newOrder))).
Proof.
  unfold reorderItems. rewrite truthy_string, negb_involutive.
  cbn [isArray negb]. rewrite orb_false_r.
  destruct (isEmpty text) eqn:Et; [now rewrite or_string|].
  rewrite parse_string. cbn [bind].
  rewrite filter_includesValue, <- map_app.
  rewrite (filter_ext _ (fun item => negb (mem item (stringsOf newOrder)))
             (fun item => f_equal negb (includesString_mem newOrder item))).
  change (VArray (List.map VString ?l)) with (strings l).
  rewrite stringify_strings. reflexivity.
Qed.

Lemma reordered_In (cur : list string) (newOrder : list value) (x : string) :
  In x (reordered cur newOrder) <-> In x cur.
Proof.
  unfold reordered. rewrite in_app_iff, !filter_In, negb_true_iff, mem_In.
  destruct (mem x (stringsOf newOrder)) eqn:M.
  - apply mem_In in M. intuition congruence.
  - apply mem_not_In in M. intuition.
Qed.


Lemma reordered_storable (cur : list string) (newOrder : list value) :
  Forall storable cur -> Forall storable (reordered cur newOrder).
Proof.
  intros F. rewrite Forall_forall in *. intros x Hx.
  apply F. now apply reordered_In in Hx.
Qed.




(** ** [validate] *)

Lemma no_blank_entry (text : string) :
  filter (fun item => String.eqb (trim item) "") (entries text) = [].
Proof.
  pose proof (entries_storable text) as F.
  induction F as [|x l (T & N & _) _ IH]; [reflexivity|].
  simpl. rewrite T.
  destruct (String.eqb_spec x ""); [contradiction | exact IH].
Qed.

Lemma length_zero_nil {A} (l : list A) : (List.length l =? 0) = true <-> l = [].
Proof. destruct l; simpl; split; congruence. Qed.

Lemma validate_flag (data : value) :
  exists r, validate data = Normal r /\ (valid r = true <-> issues r = []).
Proof.
  unfold validate.
  destruct (truthy data) eqn:Td; cbn [negb];
    [|eexists; split; [reflexivity | simpl; tauto]].
  destruct data as [| |b|n|text|l|fs]; cbn [isString negb];
    try (eexists; split; [reflexivity | simpl; split; discriminate]).
  rewrite parse_string. cbn [bind try_catch].
  eexists. split; [reflexivity|].
  cbn [valid issues]. apply length_zero_nil.
Qed.

(** C9.  The empty-item check of [validate] never fires: [parse] has
    already dropped the empty segments, so the text ["A||B"] is reported
    valid with no issue at all.  (The flag [valid] is true exactly when
    the issue list is empty, on every input.) *)
Theorem validate_empty_segment_unreported :
  validate (VString "A||B")
    = Normal {| valid := true; itemCount := 2;
                uniqueItemCount := Some 2; issues := [] |} /\
  (forall text : string,
      filter (fun item => String.eqb (trim item) "") (entries text) = []) /\
  (forall data : value,
      exists r, validate data = Normal r /\ (valid r = true <-> issues r = [])).
Proof.
  split; [reflexivity|]. split; [exact no_blank_entry | exact validate_flag].
Qed.

End PipeOperations.

(* ================================================================== *)
(** * Facts about the matcher *)
(* ================================================================== *)

Section MatcherFacts.

Import PipeDelimitedHelpers CalendarService.

Ltac js_step :=
  cbn [bind callToLowerCase truthy andb orb try_catch];
  repeat match goal with
         | |- context [negb (isEmpty ?s)] =>
             change (negb (isEmpty s)) with (nonEmpty s)
         end.

Lemma toLowerCase_isEmpty (s : string) : isEmpty (toLowerCase s) = isEmpty s.
Proof. destruct s; reflexivity. Qed.

Lemma toLowerCase_empty (s : string) : toLowerCase s = EmptyString -> s = EmptyString.
Proof. destruct s; [reflexivity | discriminate]. Qed.

Lemma get_client_id (c : Client) :
  get (clientValue c) "id" = Normal (VString (clientId c)).
Proof. reflexivity. Qed.

Lemma get_client_name (c : Client) :
  get (clientValue c) "name" = Normal (VString (clientName c)).
Proof. reflexivity. Qed.

Lemma get_appointment_id (a : Appointment) :
  get (appointmentValue a) "extractedClientId"
  = Normal (VString (extractedClientId a)).
Proof. reflexivity. Qed.

Lemma get_appointment_name (a : Appointment) :
  get (appointmentValue a) "extractedClientName"
  = Normal (VString (extractedClientName a)).
Proof. reflexivity. Qed.

Lemma truthy_nonEmpty (s : string) : truthy (VString s) = nonEmpty s.
Proof. reflexivity. Qed.

Lemma idMatches_client (a : Appointment) (c : Client) :
  idMatches (appointmentValue a) (clientValue c)
  = Normal (idCandidate (extractedClientId a) c).
Proof.
  unfold idMatches, sameId, idCandidate, test, Js.logicalAnd.
  rewrite get_client_id, get_appointment_id. cbn [bind].
  rewrite truthy_nonEmpty.
  destruct (nonEmpty (clientId c)) eqn:E; cbn [bind callToLowerCase truthy andb].
  - now destruct (String.eqb _ _).
  - unfold nonEmpty in E. now rewrite E.
Qed.

Lemma nameMatches_client (n : string) (c : Client) :
  nameMatches n (clientValue c) = Normal (exactCandidate n c).
Proof.
  unfold nameMatches, sameName, exactCandidate, test, Js.logicalAnd.
  rewrite get_client_name. cbn [bind]. rewrite truthy_nonEmpty.
  destruct (nonEmpty (clientName c)) eqn:E; cbn [bind callToLowerCase truthy andb].
  - now destruct (String.eqb _ _).
  - unfold nonEmpty in E. now rewrite E.
Qed.

Lemma namePartiallyMatches_client (n : string) (c : Client) :
  namePartiallyMatches n (clientValue c) = Normal (partialCandidate n c).
Proof.
  unfold namePartiallyMatches, partialCandidate.
  rewrite get_client_name. cbn [bind]. rewrite truthy_nonEmpty.
  now destruct (nonEmpty (clientName c)).
Qed.

(** [find] over an array of client objects is [List.find] over the
    records. *)
Lemma findIn_clients (pred : value -> result bool) (p : Client -> bool)
      (clients : list Client) :
  (forall c, pred (clientValue c) = Normal (p c)) ->
  findIn pred (List.map clientValue clients)
  = Normal (match find p clients with
            | Some c => clientValue c
            | None => VUndefined
            end).
Proof.
  intros H. induction clients as [|c r IH]; [reflexivity|].
  simpl. rewrite H. cbn [bind]. now destruct (p c).
Qed.

Lemma noClients_clients (clients : list Client) :
  noClients (VArray (List.map clientValue clients))
  = Normal (match clients with [] => true | _ => false end).
Proof. destruct clients; reflexivity. Qed.

Lemma truthy_found (o : option Client) :
  truthy (match o with Some c => clientValue c | None => VUndefined end)
  = match o with Some _ => true | None => false end.
Proof. now destruct o. Qed.

(** [matchAppointmentToClient] on a list of client records is the
    priority cascade. *)
Lemma match_cascade (clients : list Client) (a : Appointment) :
  matchAppointmentToClient (Returns (VArray (List.map clientValue clients)))
    (appointmentValue a)
  = Normal (optionalClient (match clients with
                            | [] => None
                            | _ => cascade clients a
                            end)).
Proof.
  unfold matchAppointmentToClient. rewrite noClients_clients. cbn [bind].
  destruct clients as [|c0 r]; [reflexivity|].
  set (clients := c0 :: r).
  rewrite get_appointment_id. cbn [bind]. rewrite truthy_nonEmpty.
  unfold cascade.
  assert (Hid : (if nonEmpty (extractedClientId a)
                 then callFind (VArray (List.map clientValue clients))
                        (idMatches (appointmentValue a))
                 else Normal VUndefined)
                = Normal (match (if nonEmpty (extractedClientId a)
                                 then find (idCandidate (extractedClientId a)) clients
                                 else None) with
                          | Some c => clientValue c
                          | None => VUndefined
                          end)).
  { destruct (nonEmpty (extractedClientId a)); [|reflexivity].
    apply findIn_clients, idMatches_client. }
  rewrite Hid. cbn [bind]. rewrite truthy_found.
  destruct (if nonEmpty (extractedClientId a)
            then find (idCandidate (extractedClientId a)) clients
            else None) as [c|]; [reflexivity|].
  rewrite get_appointment_name. cbn [bind]. rewrite truthy_nonEmpty.
  destruct (nonEmpty (extractedClientName a)); [|reflexivity].
  cbn [callToLowerCase bind callFind].
  rewrite (findIn_clients _ _ clients (nameMatches_client _)).
  cbn [bind]. rewrite truthy_found.
  destruct (find (exactCandidate _) clients) as [c|]; [reflexivity|].
  rewrite (findIn_clients _ _ clients (namePartiallyMatches_client _)).
  cbn [bind]. rewrite truthy_found.
  now destruct (find (partialCandidate _) clients).
Qed.

(** [calculateMatchConfidence] on records is the scoring rule. *)
Lemma confidence_rule (a : Appointment) (c : Client) :
  calculateMatchConfidence (appointmentValue a) (clientValue c)
  = Normal (confidenceRule a c).
Proof.
  unfold calculateMatchConfidence, confidenceRule, sameId, sameFullName,
    sameIgnoringCase, overlapIgnoringCase, test, Js.logicalAnd.
  cbn [truthy clientValue negb].
  rewrite !get_appointment_id, !get_appointment_name, !get_client_id,
    !get_client_name.
  cbn [bind]. rewrite !truthy_nonEmpty.
  destruct (nonEmpty (extractedClientId a)) eqn:Ea;
    destruct (nonEmpty (clientId c)) eqn:Ec;
    destruct (nonEmpty (extractedClientName a)) eqn:Na;
    destruct (nonEmpty (clientName c)) eqn:Nc;
    js_step; rewrite ?Ea, ?Ec, ?Na, ?Nc; js_step;
    repeat match goal with
           | |- context [String.eqb ?x ?y] =>
               destruct (String.eqb x y); js_step;
               rewrite ?Ea, ?Ec, ?Na, ?Nc; js_step
           end;
    try reflexivity;
    match goal with
    | |- context [includes ?x ?y || includes ?y ?x] =>
        destruct (includes x y || includes y x); reflexivity
    end.
Qed.

End MatcherFacts.

(* ================================================================== *)
(** * The matcher's guarantees *)
(* ================================================================== *)

Section MatcherClaims.

Import PipeDelimitedHelpers CalendarService.

Lemma isWhiteSpace_lower_char (c : ascii) :
  isWhiteSpace (lower_char c) = isWhiteSpace c.
Proof. destruct c as [[] [] [] [] [] [] [] []]; reflexivity. Qed.

Lemma trimStart_toLowerCase (s : string) :
  trimStart (toLowerCase s) = toLowerCase (trimStart s).
Proof.
  induction s as [|c r IH]; [reflexivity|].
  simpl. rewrite isWhiteSpace_lower_char.
  now destruct (isWhiteSpace c).
Qed.

Lemma trimEnd_toLowerCase (s : string) :
  trimEnd (toLowerCase s) = toLowerCase (trimEnd s).
Proof.
  induction s as [|c r IH]; [reflexivity|].
  cbn [toLowerCase]. rewrite !trimEnd_cons, IH, isWhiteSpace_lower_char.
  destruct (trimEnd r); [now destruct (isWhiteSpace c) | reflexivity].
Qed.

Lemma trim_toLowerCase (s : string) :
  trim (toLowerCase s) = toLowerCase (trim s).
Proof. unfold trim. now rewrite trimStart_toLowerCase, trimEnd_toLowerCase. Qed.

Lemma prefix_refl (s : string) : String.prefix s s = true.
Proof.
  induction s as [|c r IH]; [reflexivity|].
  simpl. destruct (ascii_dec c c); [exact IH | congruence].
Qed.

Lemma includes_refl (s : string) : includes s s = true.
Proof.
  destruct s; [reflexivity|]. cbn [includes]. now rewrite prefix_refl.
Qed.

Lemma find_first {A} (p : A -> bool) (l : list A) (x : A) :
  In x l -> p x = true -> exists y, find p l = Some y.
Proof.
  intros Hx Hp. destruct (find p l) as [y|] eqn:E; [now exists y|].
  pose proof (find_none p l E x Hx). congruence.
Qed.

Lemma find_absent {A} (p : A -> bool) (l : list A) :
  (forall x, In x l -> p x = false) -> find p l = None.
Proof.
  intros H. destruct (find p l) as [y|] eqn:E; [|reflexivity].
  apply find_some in E as [Hy Hp]. rewrite (H y Hy) in Hp. discriminate.
Qed.

Lemma find_same {A} (p q : A -> bool) (l : list A) :
  (forall x, p x = q x) -> find p l = find q l.
Proof.
  intros H. induction l as [|x r IH]; [reflexivity|].
  simpl. now rewrite H, IH.
Qed.

Lemma nonEmpty_true (s : string) : nonEmpty s = true <-> s <> EmptyString.
Proof. unfold nonEmpty. rewrite negb_true_iff. apply isEmpty_false. Qed.

Lemma sameIgnoringCase_nonEmpty (x y : string) :
  sameIgnoringCase x y = true -> nonEmpty y = true -> nonEmpty x = true.
Proof.
  unfold sameIgnoringCase. intros E Hy. apply String.eqb_eq in E.
  apply nonEmpty_true. intros ->. apply nonEmpty_true in Hy. apply Hy.
  apply toLowerCase_empty. now rewrite <- E.
Qed.

Lemma idCandidate_same (extractedId : string) (c : Client) :
  nonEmpty extractedId = true ->
  idCandidate extractedId c = sameIgnoringCase (clientId c) extractedId.
Proof.
  intros H. unfold idCandidate.
  destruct (sameIgnoringCase (clientId c) extractedId) eqn:E.
  - rewrite (sameIgnoringCase_nonEmpty _ _ E H). exact E.
  - unfold sameIgnoringCase in E. rewrite E. apply andb_false_r.
Qed.

(** C1.  When the extracted identifier is non-empty and equals, up to
    case, the identifier of some candidate, [matchAppointmentToClient]
    returns the first such candidate in list order and the confidence
    is [high]; the name fields are arbitrary. *)
Theorem match_by_id (clients : list Client) (a : Appointment) (d : Client) :
  extractedClientId a <> EmptyString ->
  In d clients ->
  sameIgnoringCase (clientId d) (extractedClientId a) = true ->
  exists c,
    find (fun c => sameIgnoringCase (clientId c) (extractedClientId a)) clients
      = Some c /\
    matchAppointmentToClient (Returns (VArray (List.map clientValue clients)))
      (appointmentValue a) = Normal (clientValue c) /\
    calculateMatchConfidence (appointmentValue a) (clientValue c) = Normal high.
Proof.
  intros Hne Hd Hs. apply nonEmpty_true in Hne.
  destruct (find_first (fun c => sameIgnoringCase (clientId c) (extractedClientId a))
              clients d Hd Hs) as (c & Hc).
  exists c. split; [exact Hc|].
  pose proof (find_some _ _ Hc) as [Hin Hsame].
  rewrite match_cascade, confidence_rule. split.
  - destruct clients as [|c0 r]; [contradiction|].
    unfold cascade. rewrite Hne.
    rewrite (find_same _ _ (c0 :: r) (fun x => idCandidate_same _ x Hne)), Hc.
    reflexivity.
  - unfold confidenceRule. rewrite Hne, Hsame.
    now rewrite (sameIgnoringCase_nonEmpty _ _ Hsame Hne).
Qed.

Lemma match_by_id_witness :
  let jane := {| clientId := "C002"; clientName := "Jane"; clientRest := [] |} in
  let john := {| clientId := "C001"; clientName := "John Doe"; clientRest := [] |} in
  let a := {| extractedClientId := "C001"; extractedClientName := "John Doe";
              appointmentRest := [] |} in
  matchAppointmentToClient (Returns (VArray [clientValue jane; clientValue john]))
    (appointmentValue a) = Normal (clientValue john) /\
  calculateMatchConfidence (appointmentValue a) (clientValue john) = Normal high.
Proof.
  intros jane john a.
  assert (Hne : extractedClientId a <> EmptyString) by discriminate.
  assert (Hin : In john [jane; john]) by (right; now left).
  destruct (match_by_id [jane; john] a john Hne Hin eq_refl) as (c & Hf & Hm & Hc).
  vm_compute in Hf. injection Hf as <-.
  split; assumption.
Defined.

Lemma exactCandidate_same (extractedName : string) (c : Client) :
  nonEmpty extractedName = true ->
  exactCandidate (toLowerCase extractedName) c
  = sameIgnoringCase (clientName c) extractedName.
Proof.
  intros H. unfold exactCandidate.
  destruct (sameIgnoringCase (clientName c) extractedName) eqn:E.
  - rewrite (sameIgnoringCase_nonEmpty _ _ E H). exact E.
  - unfold sameIgnoringCase in E. rewrite E. apply andb_false_r.
Qed.

(** C6, as the code has it.  With an empty extracted identifier and an
    extracted name that is non-empty, carries no white space at either
    end, and equals, up to case, the name of exactly one candidate,
    [matchAppointmentToClient] returns that candidate and the
    confidence is [high]. *)
Theorem match_by_exact_name (clients : list Client) (a : Appointment) (c : Client) :
  extractedClientId a = EmptyString ->
  extractedClientName a <> EmptyString ->
  trim (extractedClientName a) = extractedClientName a ->
  In c clients ->
  sameIgnoringCase (clientName c) (extractedClientName a) = true ->
  (forall d, In d clients ->
             sameIgnoringCase (clientName d) (extractedClientName a) = true ->
             d = c) ->
  matchAppointmentToClient (Returns (VArray (List.map clientValue clients)))
    (appointmentValue a) = Normal (clientValue c) /\
  calculateMatchConfidence (appointmentValue a) (clientValue c) = Normal high.
Proof.
  intros Hid Hne Htrim Hin Hsame Huniq. apply nonEmpty_true in Hne.
  rewrite match_cascade, confidence_rule. split.
  - destruct clients as [|c0 r]; [contradiction|].
    unfold cascade. rewrite Hid, Hne. cbn [nonEmpty isEmpty negb].
    rewrite trim_toLowerCase, Htrim.
    rewrite (find_same _ _ (c0 :: r) (fun x => exactCandidate_same _ x Hne)).
    destruct (find_first (fun x => sameIgnoringCase (clientName x) (extractedClientName a))
                (c0 :: r) c Hin Hsame) as (y & Hy).
    rewrite Hy. apply find_some in Hy as [Hy1 Hy2].
    now rewrite (Huniq y Hy1 Hy2).
  - unfold confidenceRule. rewrite Hne, Hsame.
    rewrite (sameIgnoringCase_nonEmpty _ _ Hsame Hne).
    cbn [andb]. now rewrite orb_true_r.
Qed.

Lemma match_by_exact_name_witness :
  let jo := {| clientId := "C002"; clientName := "Jo"; clientRest := [] |} in
  let john := {| clientId := "C001"; clientName := "John Doe"; clientRest := [] |} in
  let a := {| extractedClientId := ""; extractedClientName := "john doe";
              appointmentRest := [] |} in
  matchAppointmentToClient (Returns (VArray [clientValue jo; clientValue john]))
    (appointmentValue a) = Normal (clientValue john) /\
  calculateMatchConfidence (appointmentValue a) (clientValue john) = Normal high.
Proof.
  intros jo john a.
  apply (match_by_exact_name [jo; john] a john).
  - reflexivity.
  - discriminate.
  - reflexivity.
  - right. now left.
  - reflexivity.
  - intros d [<-|[<-|[]]] H; [discriminate H | reflexivity].
Defined.

(** C6 as stated fails.  The search compares the trimmed extracted name
    with the untrimmed client names: with white space around the name,
    the one candidate whose name equals it is missed by the exact search,
    and an earlier candidate whose name is a fragment is returned, with
    confidence [medium].  And an empty extracted name is never searched
    for, even when exactly one candidate has an empty name. *)
Lemma match_by_exact_name_counterexample :
  let jo := {| clientId := "C002"; clientName := "Jo"; clientRest := [] |} in
  let john := {| clientId := "C001"; clientName := " John "; clientRest := [] |} in
  let a := {| extractedClientId := ""; extractedClientName := " John ";
              appointmentRest := [] |} in
  let anonymous := {| clientId := "C003"; clientName := ""; clientRest := [] |} in
  let b := {| extractedClientId := ""; extractedClientName := "";
              appointmentRest := [] |} in
  (sameIgnoringCase (clientName john) (extractedClientName a) = true /\
   sameIgnoringCase (clientName jo) (extractedClientName a) = false /\
   matchAppointmentToClient (Returns (VArray [clientValue jo; clientValue john]))
     (appointmentValue a) = Normal (clientValue jo) /\
   clientValue jo <> clientValue john /\
   calculateMatchConfidence (appointmentValue a) (clientValue jo) = Normal medium) /\
  (sameIgnoringCase (clientName anonymous) (extractedClientName b) = true /\
   sameIgnoringCase (clientName jo) (extractedClientName b) = false /\
   matchAppointmentToClient (Returns (VArray [clientValue jo; clientValue anonymous]))
     (appointmentValue b) = Normal VNull).
Proof.
  cbv zeta. repeat split; try reflexivity. discriminate.
Qed.

Lemma partialCandidate_overlap (a : Appointment) (c : Client) :
  nonEmpty (extractedClientName a) = true ->
  partialCandidate (trim (toLowerCase (extractedClientName a))) c = nameOverlap a c.
Proof. intros H. unfold partialCandidate, nameOverlap. now rewrite H. Qed.

Lemma exact_is_partial (n : string) (c : Client) :
  exactCandidate n c = true -> partialCandidate n c = true.
Proof.
  unfold exactCandidate, partialCandidate.
  intros H. apply andb_true_iff in H as [H1 H2].
  apply String.eqb_eq in H2. rewrite H1, H2, includes_refl. reflexivity.
Qed.

(** Without any overlap the cascade finds nothing. *)
Lemma cascade_none (clients : list Client) (a : Appointment) :
  (forall c, In c clients -> idOverlap a c = false) ->
  (forall c, In c clients -> nameOverlap a c = false) ->
  cascade clients a = None.
Proof.
  intros Hi Hn. unfold cascade.
  destruct (nonEmpty (extractedClientId a)) eqn:Ei.
  - rewrite (find_same _ _ clients (fun x => idCandidate_same _ x Ei)).
    rewrite find_absent; cycle 1.
    { intros c Hc. specialize (Hi c Hc). unfold idOverlap in Hi.
      rewrite Ei in Hi. cbn [andb] in Hi.
      destruct (sameIgnoringCase (clientId c) (extractedClientId a)) eqn:E;
        [|reflexivity].
      now rewrite (sameIgnoringCase_nonEmpty _ _ E Ei) in Hi. }
    destruct (nonEmpty (extractedClientName a)) eqn:En; [|reflexivity].
    assert (Hp : forall c, In c clients ->
                   partialCandidate (trim (toLowerCase (extractedClientName a))) c = false).
    { intros c Hc. rewrite partialCandidate_overlap by assumption. now apply Hn. }
    rewrite (find_absent (exactCandidate _)), (find_absent (partialCandidate _));
      [reflexivity | exact Hp |].
    intros c Hc. destruct (exactCandidate _ c) eqn:E; [|reflexivity].
    apply exact_is_partial in E. now rewrite (Hp c Hc) in E.
  - destruct (nonEmpty (extractedClientName a)) eqn:En; [|reflexivity].
    assert (Hp : forall c, In c clients ->
                   partialCandidate (trim (toLowerCase (extractedClientName a))) c = false).
    { intros c Hc. rewrite partialCandidate_overlap by assumption. now apply Hn. }
    rewrite (find_absent (exactCandidate _)), (find_absent (partialCandidate _));
      [reflexivity | exact Hp |].
    intros c Hc. destruct (exactCandidate _ c) eqn:E; [|reflexivity].
    apply exact_is_partial in E. now rewrite (Hp c Hc) in E.
Qed.

(** C4, as the code has it.  The recomputed confidence is [none] for an
    absent client and otherwise follows the scoring rule, in which an
    identifier or a name only counts when it is non-empty on both sides:
    [high] for identifiers or names equal up to case, [medium] for names
    of which one contains the other, [low] for the rest.  When no
    candidate overlaps with the appointment, by identifier or by the
    lower-cased and trimmed extracted name, [matchAppointmentToClient]
    returns no client, and the confidence of that is [none]. *)
Theorem confidence_rules :
  (forall appointment : value,
      calculateMatchConfidence appointment VNull = Normal none /\
      calculateMatchConfidence appointment VUndefined = Normal none) /\
  (forall (a : Appointment) (c : Client),
      calculateMatchConfidence (appointmentValue a) (clientValue c)
      = Normal (confidenceRule a c)) /\
  (forall (clients : list Client) (a : Appointment),
      (forall c, In c clients -> idOverlap a c = false) ->
      (forall c, In c clients -> nameOverlap a c = false) ->
      matchAppointmentToClient (Returns (VArray (List.map clientValue clients)))
        (appointmentValue a) = Normal VNull /\
      calculateMatchConfidence (appointmentValue a) VNull = Normal none).
Proof.
  split; [intros; split; reflexivity|]. split; [exact confidence_rule|].
  intros clients a Hi Hn. split; [|reflexivity].
  rewrite match_cascade. destruct clients as [|c0 r]; [reflexivity|].
  now rewrite cascade_none.
Qed.

Lemma confidence_rules_witness :
  let jane := {| clientId := "C002"; clientName := "Jane"; clientRest := [] |} in
  let john := {| clientId := "C001"; clientName := "John Doe"; clientRest := [] |} in
  let a := {| extractedClientId := "C007"; extractedClientName := "Mary Major";
              appointmentRest := [] |} in
  matchAppointmentToClient (Returns (VArray [clientValue jane; clientValue john]))
    (appointmentValue a) = Normal VNull /\
  calculateMatchConfidence (appointmentValue a) VNull = Normal none /\
  calculateMatchConfidence (appointmentValue a) (clientValue jane) = Normal low.
Proof.
  intros jane john a.
  destruct confidence_rules as (_ & Hrule & Hnone).
  destruct (Hnone [jane; john] a) as [H1 H2].
  - intros c [<-|[<-|[]]]; reflexivity.
  - intros c [<-|[<-|[]]]; reflexivity.
  - split; [exact H1|]. split; [exact H2|]. now rewrite Hrule.
Defined.

(** C4 as stated fails.  Two empty identifiers are equal, yet they do
    not give [high]: an identifier only counts when it is present on
    both sides.  And the search trims the extracted name: below neither
    name contains the other (the scoring rule itself says [low]), there
    is no identifier, and yet a client is returned. *)
Lemma confidence_rules_counterexample :
  let alice := {| clientId := ""; clientName := "Alice"; clientRest := [] |} in
  let b := {| extractedClientId := ""; extractedClientName := "Bob";
              appointmentRest := [] |} in
  let john := {| clientId := "C001"; clientName := "John Doe"; clientRest := [] |} in
  let a := {| extractedClientId := ""; extractedClientName := "Jo ";
              appointmentRest := [] |} in
  (sameIgnoringCase (clientId alice) (extractedClientId b) = true /\
   calculateMatchConfidence (appointmentValue b) (clientValue alice) = Normal low) /\
  (sameIgnoringCase (clientId john) (extractedClientId a) = false /\
   sameIgnoringCase (clientName john) (extractedClientName a) = false /\
   overlapIgnoringCase (clientName john) (extractedClientName a) = false /\
   matchAppointmentToClient (Returns (VArray [clientValue john]))
     (appointmentValue a) = Normal (clientValue john) /\
   clientValue john <> VNull /\
   calculateMatchConfidence (appointmentValue a) (clientValue john) = Normal low).
Proof.
  cbv zeta. repeat split; try reflexivity. discriminate.
Qed.

End MatcherClaims.

(* ================================================================== *)
(** * Facts about the regular-expression matcher *)
(* ================================================================== *)

Section RegExpFacts.

Import RegExp.

Lemma suffix_refl s : suffix s s.
Proof. now exists EmptyString. Qed.

Lemma suffix_cons c rest s : suffix rest s -> suffix rest (String c s).
Proof. intros (m & ->). now exists (String c m). Qed.

Lemma append_assoc (a b c : string) :
  String.append (String.append a b) c = String.append a (String.append b c).
Proof. induction a as [|x a IH]; simpl; [reflexivity | now rewrite IH]. Qed.

Lemma suffix_trans a b c : suffix a b -> suffix b c -> suffix a c.
Proof.
  intros (m & ->) (n & ->). exists (String.append n m).
  now rewrite append_assoc.
Qed.

Lemma append_length (a b : string) :
  String.length (String.append a b) = String.length a + String.length b.
Proof. induction a as [|x a IH]; simpl; [reflexivity | now rewrite IH]. Qed.

Lemma suffix_length rest s : suffix rest s -> String.length rest <= String.length s.
Proof. intros (m & ->). rewrite append_length. lia. Qed.

Lemma matchLit_suffix ic w s s' : matchLit ic w s = Some s' -> suffix s' s.
Proof.
  revert s. induction w as [|c w IH]; simpl; intros s H.
  - injection H as <-. apply suffix_refl.
  - destruct s as [|d r]; [discriminate|].
    destruct (sameChar ic c d); [|discriminate].
    apply suffix_cons. now apply IH.
Qed.

(** The continuation is only ever entered on a suffix of the input. *)
Lemma matchStar_suffix p s cap k x :
  matchStar p s cap k = Some x ->
  exists s' cap', suffix s' s /\ k s' cap' = Some x.
Proof.
  induction s as [|d r IH]; simpl; intros H.
  - exists EmptyString, cap. split; [apply suffix_refl | exact H].
  - destruct (p d).
    + destruct (matchStar p r cap k) as [y|] eqn:E.
      * injection H as <-. destruct (IH eq_refl) as (s' & cap' & Hs & Hk).
        exists s', cap'. split; [now apply suffix_cons | exact Hk].
      * exists (String d r), cap. split; [apply suffix_refl | exact H].
    + exists (String d r), cap. split; [apply suffix_refl | exact H].
Qed.

Lemma matchRe_suffix ic r :
  forall s cap k x,
    matchRe ic r s cap k = Some x ->
    exists s' cap', suffix s' s /\ k s' cap' = Some x.
Proof.
  induction r as [w|p|p|p|r IH|r1 IH1 r2 IH2|r1 IH1 r2 IH2|r IH];
    intros s cap k x H; simpl in H.
  - destruct (matchLit ic w s) as [s'|] eqn:E; [|discriminate].
    exists s', cap. split; [now apply matchLit_suffix in E | exact H].
  - destruct s as [|d s']; [discriminate|].
    destruct (p d); [|discriminate].
    exists s', cap. split; [apply suffix_cons, suffix_refl | exact H].
  - exact (matchStar_suffix _ _ _ _ _ H).
  - destruct s as [|d s']; [discriminate|].
    destruct (p d); [|discriminate].
    apply matchStar_suffix in H as (s1 & cap1 & Hs & Hk).
    exists s1, cap1. split; [now apply suffix_cons | exact Hk].
  - destruct (matchRe ic r s cap k) as [y|] eqn:E.
    + injection H as <-. now apply IH in E.
    + exists s, cap. split; [apply suffix_refl | exact H].
  - apply IH1 in H as (s1 & cap1 & Hs1 & H).
    apply IH2 in H as (s2 & cap2 & Hs2 & H).
    exists s2, cap2. split; [now apply (suffix_trans _ s1) | exact H].
  - destruct (matchRe ic r1 s cap k) as [y|] eqn:E.
    + injection H as <-. now apply IH1 in E.
    + now apply IH2 in H.
  - apply IH in H as (s1 & cap1 & Hs1 & H).
    exists s1, (Some (consumed s s1)). split; assumption.
Qed.

Lemma matchAt_suffix ic r s rest cap :
  matchAt ic r s = Some (rest, cap) -> suffix rest s.
Proof.
  unfold matchAt. intros H.
  apply matchRe_suffix in H as (s' & cap' & Hs & [= <- <-]). exact Hs.
Qed.

(** ** Greedy repetition *)

(** When what follows cannot begin with a character of the class, the
    repetition takes the whole run. *)
Lemma matchStar_reject p s cap k :
  (forall d s' c, p d = true -> k (String d s') c = None) ->
  matchStar p s cap k = k (skipRun p s) cap.
Proof.
  intros Hk. induction s as [|d r IH]; simpl; [reflexivity|].
  destruct (p d) eqn:E; [|reflexivity].
  rewrite IH. destruct (k (skipRun p r) cap) eqn:K; [reflexivity|].
  now apply Hk.
Qed.

(** When what follows accepts after the whole run, that is the match. *)
Lemma matchStar_accept p s cap k x :
  k (skipRun p s) cap = Some x -> matchStar p s cap k = Some x.
Proof.
  induction s as [|d r IH]; simpl; [easy|].
  destruct (p d) eqn:E; [|easy].
  intros H. now rewrite (IH H).
Qed.

Lemma trimStart_skipRun s : trimStart s = skipRun isWhiteSpace s.
Proof.
  induction s as [|c r IH]; simpl; [reflexivity|].
  now destruct (isWhiteSpace c).
Qed.

Lemma run_split p s : s = String.append (takeRun p s) (skipRun p s).
Proof.
  induction s as [|c r IH]; simpl; [reflexivity|].
  destruct (p c); simpl; [now rewrite <- IH | reflexivity].
Qed.

Lemma takeRun_allChars p s : allChars p (takeRun p s) = true.
Proof.
  induction s as [|c r IH]; simpl; [reflexivity|].
  destruct (p c) eqn:E; simpl; [now rewrite E | reflexivity].
Qed.

Lemma skipRun_suffix p s : suffix (skipRun p s) s.
Proof. exists (takeRun p s). apply run_split. Qed.

Lemma take_append (m rest : string) :
  take (String.length m) (String.append m rest) = m.
Proof. induction m as [|c m IH]; simpl; [now destruct rest | now rewrite IH]. Qed.

Lemma consumed_append (m rest : string) : consumed (String.append m rest) rest = m.
Proof.
  unfold consumed. rewrite append_length.
  replace (String.length m + String.length rest - String.length rest)
    with (String.length m) by lia.
  apply take_append.
Qed.

Lemma consumed_run p s : consumed s (skipRun p s) = takeRun p s.
Proof. rewrite (run_split p s) at 1. apply consumed_append. Qed.

(** ** Global removal *)

Lemma removeFrom_skip ic r (m rest : string) :
  removeFrom ic r (String.append m rest) (String.length m) = removeFrom ic r rest 0.
Proof.
  induction m as [|c m IH]; simpl; [reflexivity | exact IH].
Qed.

(** One step of the scan: a non-empty match is dropped and the scan
    goes on behind it; otherwise the character is kept. *)
Lemma removeAll_step ic r c s :
  removeAll ic r (String c s) =
  match matchAt ic r (String c s) with
  | Some (rest, _) =>
      if String.length rest <? String.length (String c s)
      then removeAll ic r rest
      else String c (removeAll ic r s)
  | None => String c (removeAll ic r s)
  end.
Proof.
  unfold removeAll. cbn [removeFrom].
  destruct (matchAt ic r (String c s)) as [[rest cap]|] eqn:E; [|reflexivity].
  pose proof (matchAt_suffix _ _ _ _ _ E) as (m & Hm).
  destruct m as [|d m].
  - simpl in Hm. subst rest. rewrite Nat.sub_diag, Nat.ltb_irrefl. reflexivity.
  - simpl in Hm. injection Hm as <- ->.
    replace (String.length (String c (String.append m rest)) - String.length rest)
      with (S (String.length m))
      by (cbn [String.length]; rewrite append_length; lia).
    rewrite removeFrom_skip.
    assert (L : (String.length rest <? String.length (String c (String.append m rest))) = true).
    { apply Nat.ltb_lt. cbn [String.length]. rewrite append_length. lia. }
    now rewrite L.
Qed.

(** ** Soundness of the matcher *)

Lemma matchLit_sound ic w s s' :
  matchLit ic w s = Some s' ->
  exists m, s = String.append m s' /\ matchLit ic w m = Some EmptyString.
Proof.
  revert s. induction w as [|c w IH]; simpl; intros s H.
  - injection H as <-. now exists EmptyString.
  - destruct s as [|d r]; [discriminate|].
    destruct (sameChar ic c d) eqn:E; [|discriminate].
    destruct (IH r H) as (m & -> & Hm).
    exists (String d m). split; [reflexivity|]. simpl. now rewrite E.
Qed.

Lemma matchStar_sound p s cap k x :
  matchStar p s cap k = Some x ->
  exists m s' cap',
    s = String.append m s' /\ allChars p m = true /\ k s' cap' = Some x.
Proof.
  induction s as [|d r IH]; simpl; intros H.
  - exists EmptyString, EmptyString, cap. now repeat split.
  - destruct (p d) eqn:E.
    + destruct (matchStar p r cap k) as [y|] eqn:M.
      * injection H as <-. destruct (IH eq_refl) as (m & s' & cap' & -> & Ha & Hk).
        exists (String d m), s', cap'. repeat split; [|exact Hk].
        simpl. now rewrite E.
      * exists EmptyString, (String d r), cap. now repeat split.
    + exists EmptyString, (String d r), cap. now repeat split.
Qed.

(** Whatever the matcher consumes before it enters the continuation is
    a word of the expression. *)
Lemma matchRe_sound ic r :
  forall s cap k x,
    matchRe ic r s cap k = Some x ->
    exists m s' cap',
      s = String.append m s' /\ matches ic r m /\ k s' cap' = Some x.
Proof.
  induction r as [w|p|p|p|r IH|r1 IH1 r2 IH2|r1 IH1 r2 IH2|r IH];
    intros s cap k x H; simpl in H.
  - destruct (matchLit ic w s) as [s'|] eqn:E; [|discriminate].
    destruct (matchLit_sound _ _ _ _ E) as (m & -> & Hm).
    exists m, s', cap. repeat split; [now constructor | exact H].
  - destruct s as [|d s']; [discriminate|].
    destruct (p d) eqn:E; [|discriminate].
    exists (String d EmptyString), s', cap.
    repeat split; [now constructor | exact H].
  - destruct (matchStar_sound _ _ _ _ _ H) as (m & s' & cap' & -> & Ha & Hk).
    exists m, s', cap'. repeat split; [now constructor | exact Hk].
  - destruct s as [|d s1]; [discriminate|].
    destruct (p d) eqn:E; [|discriminate].
    destruct (matchStar_sound _ _ _ _ _ H) as (m & s' & cap' & -> & Ha & Hk).
    exists (String d m), s', cap'. repeat split; [|exact Hk].
    constructor; [simpl; now rewrite E | discriminate].
  - destruct (matchRe ic r s cap k) as [y|] eqn:E.
    + injection H as <-.
      destruct (IH _ _ _ _ E) as (m & s' & cap' & -> & Hm & Hk).
      exists m, s', cap'. repeat split; [now apply matches_opt_some | exact Hk].
    + exists EmptyString, s, cap. repeat split; [apply matches_opt_none | exact H].
  - destruct (IH1 _ _ _ _ H) as (m1 & s1 & cap1 & -> & Hm1 & H1).
    destruct (IH2 _ _ _ _ H1) as (m2 & s2 & cap2 & -> & Hm2 & H2).
    exists (String.append m1 m2), s2, cap2.
    repeat split; [now rewrite append_assoc | now constructor | exact H2].
  - destruct (matchRe ic r1 s cap k) as [y|] eqn:E.
    + injection H as <-.
      destruct (IH1 _ _ _ _ E) as (m & s' & cap' & -> & Hm & Hk).
      exists m, s', cap'. repeat split; [now apply matches_alt_left | exact Hk].
    + destruct (IH2 _ _ _ _ H) as (m & s' & cap' & -> & Hm & Hk).
      exists m, s', cap'. repeat split; [now apply matches_alt_right | exact Hk].
  - destruct (IH _ _ _ _ H) as (m & s' & cap' & -> & Hm & Hk).
    exists m, s', (Some (consumed (String.append m s') s')).
    repeat split; [now constructor | exact Hk].
Qed.

Lemma matchAt_sound ic r s rest cap :
  matchAt ic r s = Some (rest, cap) ->
  exists m, s = String.append m rest /\ matches ic r m.
Proof.
  unfold matchAt. intros H.
  destruct (matchRe_sound _ _ _ _ _ _ H) as (m & s' & cap' & -> & Hm & [= <- <-]).
  now exists m.
Qed.

(** Global removal deletes words of the expression and nothing else. *)
Lemma removeAll_deletes ic r (s : string) :
  deletes (matches ic r) s (removeAll ic r s).
Proof.
  assert (G : forall n t, String.length t < n ->
                          deletes (matches ic r) t (removeAll ic r t)).
  { induction n as [|n IH]; intros t Ht; [lia|].
    destruct t as [|c t']; [constructor|].
    rewrite removeAll_step.
    assert (Hk : deletes (matches ic r) (String c t') (String c (removeAll ic r t'))).
    { constructor. apply IH. simpl in Ht. lia. }
    destruct (matchAt ic r (String c t')) as [[rest cap]|] eqn:E; [|exact Hk].
    destruct (String.length rest <? String.length (String c t')) eqn:L; [|exact Hk].
    apply Nat.ltb_lt in L.
    destruct (matchAt_sound _ _ _ _ _ E) as (m & Hm & Hw).
    rewrite Hm. apply deletes_drop; [exact Hw | |apply IH; lia].
    intros ->. simpl in Hm. rewrite Hm in L. lia. }
  apply (G (S (String.length s))). lia.
Qed.

End RegExpFacts.

(* ================================================================== *)
(** * Facts about the title parser *)
(* ================================================================== *)

Section TitleFacts.

Import RegExp CalendarService.

Lemma string_length_ind (P : string -> Prop) :
  (forall s, (forall t, String.length t < String.length s -> P t) -> P s) ->
  forall s, P s.
Proof.
  intros H s.
  assert (G : forall n t, String.length t < n -> P t).
  { induction n as [|n IH]; intros t Ht; [lia|].
    apply H. intros u Hu. apply IH. lia. }
  apply (G (S (String.length s))). lia.
Qed.

(** ** The identifier *)

Lemma upperOrDigit_not_closing (d : ascii) :
  upperOrDigit d = true -> Ascii.eqb ")"%char d = false.
Proof.
  destruct d as [[] [] [] [] [] [] [] []]; vm_compute; intros H;
    first [reflexivity | discriminate H].
Qed.

Lemma matchAt_idPattern (s : string) :
  matchAt false idPattern s =
  match tokenHere s with
  | Some (tok, rest) => Some (rest, Some tok)
  | None => None
  end.
Proof.
  unfold matchAt, idPattern, tokenHere. cbn [matchRe matchLit sameChar].
  destruct s as [|c s1]; [reflexivity|].
  rewrite Ascii.eqb_sym.
  destruct (Ascii.eqb c "(") eqn:Ec; [|reflexivity].
  destruct s1 as [|d s2]; [reflexivity|].
  cbn [takeRun skipRun].
  destruct (upperOrDigit d) eqn:Ed; [|reflexivity].
  rewrite matchStar_reject; cycle 1.
  { intros e s' _ He. cbn [matchLit sameChar].
    now rewrite (upperOrDigit_not_closing e He). }
  assert (Hc : consumed (String d s2) (skipRun upperOrDigit s2)
               = String d (takeRun upperOrDigit s2)).
  { pose proof (consumed_run upperOrDigit (String d s2)) as H.
    cbn [takeRun skipRun] in H. now rewrite Ed in H. }
  rewrite Hc.
  destruct (skipRun upperOrDigit s2) as [|e rest]; [reflexivity|].
  cbn [matchLit sameChar]. rewrite Ascii.eqb_sym.
  now destruct (Ascii.eqb e ")").
Qed.

Lemma run_of_token (tok rest : string) :
  allChars upperOrDigit tok = true ->
  takeRun upperOrDigit (String.append tok (String ")" rest)) = tok /\
  skipRun upperOrDigit (String.append tok (String ")" rest)) = String ")" rest.
Proof.
  induction tok as [|c tok IH]; simpl; intros H.
  - split; reflexivity.
  - apply andb_true_iff in H as [Hc Ht]. rewrite Hc.
    destruct (IH Ht) as [-> ->]. split; reflexivity.
Qed.

Lemma tokenHere_spec (s tok rest : string) :
  tokenHere s = Some (tok, rest) <-> tokenAt s tok rest.
Proof.
  unfold tokenHere, tokenAt. split.
  - destruct s as [|c s1]; [discriminate|].
    destruct (Ascii.eqb_spec c "("); [subst c|discriminate].
    pose proof (run_split upperOrDigit s1) as Hs.
    pose proof (takeRun_allChars upperOrDigit s1) as Ha.
    destruct (takeRun upperOrDigit s1) as [|x t]; [discriminate|].
    destruct (skipRun upperOrDigit s1) as [|e r]; [discriminate|].
    destruct (Ascii.eqb_spec e ")"); [subst e|discriminate].
    intros [= <- <-]. rewrite Hs. repeat split; [discriminate | exact Ha].
  - intros (-> & Hne & Ha). rewrite Ascii.eqb_refl.
    destruct (run_of_token tok rest Ha) as [-> ->].
    destruct tok; [contradiction|]. now rewrite Ascii.eqb_refl.
Qed.

Lemma tokenAt_functional s tok rest tok' rest' :
  tokenAt s tok rest -> tokenAt s tok' rest' -> tok = tok'.
Proof.
  intros H H'. apply tokenHere_spec in H, H'. congruence.
Qed.

Lemma firstToken_functional s tok tok' :
  firstToken s tok -> firstToken s tok' -> tok = tok'.
Proof.
  intros H. revert tok'. induction H as [s tok rest H | c s tok Hn H IH];
    intros tok' H'.
  - inversion H' as [s0 t0 r0 H0 | c0 s0 t0 Hn0 H0]; subst.
    + exact (tokenAt_functional _ _ _ _ _ H H0).
    + now destruct (Hn0 _ _ H).
  - inversion H' as [s0 t0 r0 H0 | c0 s0 t0 Hn0 H0]; subst.
    + now destruct (Hn _ _ H0).
    + now apply IH.
Qed.

(** [title.match(idPattern)] finds the first parenthesized token. *)
Lemma exec_idPattern (title : string) :
  match exec false idPattern title with
  | Some (Some tok) => firstToken title tok
  | Some None => False
  | None => forall tok, ~ firstToken title tok
  end.
Proof.
  induction title as [|c s IH].
  - cbn. intros tok H. inversion H as [s0 t0 r0 H0|]; subst.
    destruct H0 as (E & _). discriminate E.
  - cbn [exec]. rewrite matchAt_idPattern.
    destruct (tokenHere (String c s)) as [[tok rest]|] eqn:E.
    + apply tokenHere_spec in E. now apply token_here with rest.
    + assert (Hn : forall tok' rest, ~ tokenAt (String c s) tok' rest).
      { intros tok' rest H. apply tokenHere_spec in H. congruence. }
      destruct (exec false idPattern s) as [[tok|]|].
      * now apply token_later.
      * exact IH.
      * intros tok H. inversion H as [s0 t0 r0 H0 | c0 s0 t0 Hn0 H0]; subst.
        -- now destruct (Hn _ _ H0).
        -- now destruct (IH tok).
Qed.

Lemma tokenAt_nonEmpty s tok rest : tokenAt s tok rest -> tok <> EmptyString.
Proof. now intros (_ & H & _). Qed.

Lemma firstToken_nonEmpty s tok : firstToken s tok -> tok <> EmptyString.
Proof.
  induction 1 as [s tok rest H|]; [exact (tokenAt_nonEmpty _ _ _ H) | assumption].
Qed.

(** ** Parenthetical content *)

Lemma notClosing_false (e : ascii) : notClosing e = false -> e = ")"%char.
Proof.
  unfold notClosing. intros H. apply negb_false_iff in H.
  now apply Ascii.eqb_eq.
Qed.

Lemma skipRun_stop p s c r : skipRun p s = String c r -> p c = false.
Proof.
  induction s as [|d t IH]; simpl; [discriminate|].
  destruct (p d) eqn:E; [exact IH|]. now intros [= <- <-].
Qed.

Lemma matchAt_parenthetical (s : string) :
  matchAt false parenthetical s =
  match s with
  | String c s1 =>
      if Ascii.eqb c "("%char then
        match skipRun notClosing s1 with
        | String _ rest => Some (rest, None)
        | EmptyString => None
        end
      else None
  | EmptyString => None
  end.
Proof.
  unfold matchAt, parenthetical. cbn [matchRe matchLit sameChar].
  destruct s as [|c s1]; [reflexivity|].
  rewrite Ascii.eqb_sym.
  destruct (Ascii.eqb c "(") eqn:Ec; [|reflexivity].
  rewrite matchStar_reject; cycle 1.
  { intros e s' c0 He. cbn [matchLit sameChar]. unfold notClosing in He.
    apply negb_true_iff in He. now rewrite Ascii.eqb_sym, He. }
  destruct (skipRun notClosing s1) as [|e rest] eqn:E; [reflexivity|].
  apply skipRun_stop, notClosing_false in E. subst e. reflexivity.
Qed.

Lemma skipRun_notClosing_empty (s : string) :
  skipRun notClosing s = EmptyString <-> includesChar s ")" = false.
Proof.
  induction s as [|c r IH]; simpl; [tauto|].
  unfold notClosing at 1.
  destruct (Ascii.eqb c ")"); simpl; [split; discriminate | exact IH].
Qed.

Lemma includesChar_append (m u : string) (ch : ascii) :
  includesChar (String.append m u) ch = includesChar m ch || includesChar u ch.
Proof.
  induction m as [|c m IH]; simpl; [reflexivity|].
  now rewrite IH, orb_assoc.
Qed.

Lemma includesChar_suffix (u s : string) (ch : ascii) :
  suffix u s -> includesChar u ch = true -> includesChar s ch = true.
Proof.
  intros (m & ->) H. rewrite includesChar_append, H. apply orb_true_r.
Qed.

(** Removal only drops characters. *)
Lemma removeAll_includesChar ic r (ch : ascii) (s : string) :
  includesChar (removeAll ic r s) ch = true -> includesChar s ch = true.
Proof.
  induction s as [s IH] using string_length_ind.
  destruct s as [|c s']; [intros H; exact H|].
  rewrite removeAll_step.
  assert (Hk : includesChar (String c (removeAll ic r s')) ch = true ->
               includesChar (String c s') ch = true).
  { simpl. intros H. apply orb_true_iff in H as [H|H]; [now rewrite H|].
    rewrite (IH s' (Nat.lt_succ_diag_r _) H). apply orb_true_r. }
  destruct (matchAt ic r (String c s')) as [[rest cap]|] eqn:E; [|exact Hk].
  destruct (String.length rest <? String.length (String c s')) eqn:L; [|exact Hk].
  apply Nat.ltb_lt in L. intros H.
  apply (includesChar_suffix rest); [exact (matchAt_suffix _ _ _ _ _ E)|].
  now apply IH.
Qed.

Lemma removeAll_parenthetical (s : string) :
  hasParenthetical (removeAll false parenthetical s) = false.
Proof.
  induction s as [s IH] using string_length_ind.
  destruct s as [|c s']; [reflexivity|].
  rewrite removeAll_step, matchAt_parenthetical.
  assert (Hs : hasParenthetical (removeAll false parenthetical s') = false)
    by (apply IH; simpl; lia).
  destruct (Ascii.eqb c "(") eqn:Ec.
  - destruct (skipRun notClosing s') as [|e rest] eqn:E.
    + cbn [hasParenthetical]. rewrite Ec, Hs. cbn [andb]. rewrite orb_false_r.
      apply skipRun_notClosing_empty in E.
      destruct (includesChar (removeAll false parenthetical s') ")") eqn:I;
        [|reflexivity].
      apply removeAll_includesChar in I. congruence.
    + assert (L : String.length rest < String.length (String c s')).
      { pose proof (suffix_length _ _ (skipRun_suffix notClosing s')) as H.
        rewrite E in H. simpl in *. lia. }
      apply Nat.ltb_lt in L as L'. rewrite L'. now apply IH.
  - cbn [hasParenthetical]. now rewrite Ec, Hs.
Qed.

Lemma hasParenthetical_trimStart (s : string) :
  hasParenthetical s = false -> hasParenthetical (trimStart s) = false.
Proof.
  induction s as [|c r IH]; simpl; [easy|].
  intros H. destruct (isWhiteSpace c).
  - apply IH. now apply orb_false_iff in H.
  - exact H.
Qed.

Lemma hasParenthetical_trimEnd (s : string) :
  hasParenthetical s = false -> hasParenthetical (trimEnd s) = false.
Proof.
  induction s as [|c r IH]; [easy|].
  cbn [hasParenthetical]. intros H. apply orb_false_iff in H as [H1 H2].
  rewrite trimEnd_cons. specialize (IH H2).
  destruct (trimEnd r) as [|d r'] eqn:E.
  - destruct (isWhiteSpace c); [reflexivity|].
    cbn. now rewrite andb_false_r.
  - cbn [hasParenthetical] in *. rewrite IH, orb_false_r.
    destruct (Ascii.eqb c "("); [|reflexivity].
    cbn [andb] in *. rewrite <- E. now apply includesChar_trimEnd.
Qed.

Lemma cleanTitle_no_parenthetical (title : string) :
  hasParenthetical (cleanTitle title) = false.
Proof.
  unfold cleanTitle, trim.
  apply hasParenthetical_trimEnd, hasParenthetical_trimStart,
    removeAll_parenthetical.
Qed.

(** ** Keywords *)

Lemma removeAll_no_match ic r (s : string) :
  (forall u, suffix u s -> matchAt ic r u = None) -> removeAll ic r s = s.
Proof.
  induction s as [|c s' IH]; intros H; [reflexivity|].
  rewrite removeAll_step, (H _ (suffix_refl _)). f_equal.
  apply IH. intros u Hu. apply H. now apply suffix_cons.
Qed.

Lemma keywords_keywordAt (s : string) cap k x :
  matchRe true keywords s cap k = Some x -> keywordAt s = true.
Proof.
  unfold keywords, keywordAt, keywordList. cbn [matchRe existsb].
  repeat match goal with
         | |- context [matchLit true ?w s] =>
             destruct (matchLit true w s); [intros _; cbn; now rewrite ?orb_true_r|]
         end.
  discriminate.
Qed.

Lemma matchAt_keywordDash (s : string) x :
  matchAt true keywordDash s = Some x ->
  exists u, suffix u s /\ keywordAt u = true.
Proof.
  unfold matchAt, keywordDash. cbn [matchRe]. intros H.
  apply matchStar_suffix in H as (u & cap & Hu & H).
  apply keywords_keywordAt in H. now exists u.
Qed.

Lemma matchAt_dashKeyword (s : string) x :
  matchAt true dashKeyword s = Some x ->
  exists u, suffix u s /\ keywordAt u = true.
Proof.
  unfold matchAt, dashKeyword. cbn [matchRe]. intros H.
  apply matchStar_suffix in H as (u1 & cap1 & Hu1 & H).
  destruct (matchLit true "-" u1) as [u2|] eqn:E; [|discriminate].
  apply matchLit_suffix in E.
  apply matchStar_suffix in H as (u3 & cap3 & Hu3 & H).
  apply keywords_keywordAt in H. exists u3. split; [|exact H].
  apply (suffix_trans _ u2); [exact Hu3|].
  now apply (suffix_trans _ u1).
Qed.

Lemma hasKeyword_suffix (s u : string) :
  hasKeyword s = false -> suffix u s -> keywordAt u = false.
Proof.
  intros H (m & ->). induction m as [|c m IH].
  - change (String.append EmptyString u) with u in H.
    destruct u; cbn [hasKeyword] in H; now apply orb_false_iff in H.
  - apply IH. change (String.append (String c m) u)
      with (String c (String.append m u)) in H.
    cbn [hasKeyword] in H. now apply orb_false_iff in H.
Qed.

Lemma no_keyword_no_match (r : regex) (s : string) :
  (forall u x, matchAt true r u = Some x ->
               exists v, suffix v u /\ keywordAt v = true) ->
  hasKeyword s = false ->
  removeAll true r s = s.
Proof.
  intros Hr Hs. apply removeAll_no_match. intros u Hu.
  destruct (matchAt true r u) as [x|] eqn:E; [|reflexivity].
  destruct (Hr u x E) as (v & Hv & Hk).
  rewrite (hasKeyword_suffix s v Hs (suffix_trans _ _ _ Hv Hu)) in Hk.
  discriminate.
Qed.

(** A title without any keyword only loses its parenthetical content
    and the white space around it. *)
Lemma cleanTitle_no_keyword (title : string) :
  hasKeyword title = false ->
  cleanTitle title = trim (removeAll false parenthetical title).
Proof.
  intros H. unfold cleanTitle.
  rewrite (no_keyword_no_match dashKeyword title matchAt_dashKeyword H).
  now rewrite (no_keyword_no_match keywordDash title matchAt_keywordDash H).
Qed.

(** *** A keyword at the front is deleted *)

Lemma matchStar_total p s cap k :
  (forall s' c, exists x, k s' c = Some x) ->
  exists x, matchStar p s cap k = Some x.
Proof.
  intros Hk. destruct (Hk (skipRun p s) cap) as (x & Hx).
  exists x. now apply matchStar_accept.
Qed.

(** What follows the keyword in [keywordDash] always matches. *)
Lemma separator_accepts (s : string) (cap : option string) :
  exists x,
    matchRe true
      (Seq (Star isWhiteSpace) (Seq (Opt (Lit "-")) (Star isWhiteSpace)))
      s cap (fun s' cap' => Some (s', cap')) = Some x.
Proof.
  cbn [matchRe]. apply matchStar_total. intros s1 c1.
  destruct (matchLit true "-" s1) as [s2|].
  - destruct (matchStar_total isWhiteSpace s2 c1
                (fun s' cap' => Some (s', cap'))) as (x & ->); eauto.
  - apply matchStar_total. eauto.
Qed.

Lemma keywords_reject_space (d : ascii) (s : string) cap k :
  isWhiteSpace d = true -> matchRe true keywords (String d s) cap k = None.
Proof.
  intros H. unfold keywords. cbn [matchRe matchLit].
  destruct d as [[] [] [] [] [] [] [] []];
    try (vm_compute in H; discriminate H); reflexivity.
Qed.

Lemma matchAt_keywordDash_front (s : string) :
  keywordAt (trimStart s) = true ->
  exists x, matchAt true keywordDash s = Some x.
Proof.
  rewrite trimStart_skipRun. intros H.
  unfold matchAt, keywordDash. cbn [matchRe].
  rewrite matchStar_reject; cycle 1.
  { intros d s' c Hd.
    exact (keywords_reject_space d s' c _ Hd). }
  set (u := skipRun isWhiteSpace s) in *.
  unfold keywordAt, keywordList in H. cbn [existsb] in H.
  unfold keywords. cbn [matchRe].
  repeat match goal with
         | |- context [matchLit true ?w u] =>
             let E := fresh "E" in
             destruct (matchLit true w u) as [u'|] eqn:E;
             [destruct (separator_accepts u' (Some (consumed u u'))) as (x & Hx);
              cbn [matchRe] in Hx; rewrite Hx; now exists x
             |]
         end.
  cbn in H. discriminate H.
Qed.

Lemma append_empty (a b : string) :
  String.append a b = EmptyString -> a = EmptyString /\ b = EmptyString.
Proof. destruct a; simpl; [tauto | discriminate]. Qed.

Lemma matchLit_word_nonEmpty ic c w m :
  matchLit ic (String c w) m = Some EmptyString -> m <> EmptyString.
Proof. intros H ->. discriminate H. Qed.

Lemma keywords_nonEmpty (m : string) : matches true keywords m -> m <> EmptyString.
Proof.
  unfold keywords. intros H.
  inversion H as [| | | | | | | | |r m0 H0]; subst; clear H.
  repeat match goal with
         | H : matches true (Alt _ _) _ |- _ => inversion H; subst; clear H
         end;
    match goal with
    | H : matches true (Lit _) _ |- _ =>
        inversion H; subst; eapply matchLit_word_nonEmpty; eassumption
    end.
Qed.

Lemma keywordDash_nonEmpty (m : string) :
  matches true keywordDash m -> m <> EmptyString.
Proof.
  unfold keywordDash. intros H.
  inversion H as [| | | | | |r1 r2 m1 m2 H1 H2| | |]; subst; clear H.
  inversion H2 as [| | | | | |r1 r2 m3 m4 H3 H4| | |]; subst; clear H2.
  intros E. apply append_empty in E as [_ E].
  apply append_empty in E as [E _].
  exact (keywords_nonEmpty _ H3 E).
Qed.

(** When a keyword, in any letter case, stands at the front of the text
    (after white space), the pass deletes a non-empty word of
    [keywordDash] there and goes on with the rest. *)
Lemma removeAll_keywordDash_front (s : string) :
  keywordAt (trimStart s) = true ->
  exists m rest,
    s = String.append m rest /\ m <> EmptyString /\
    matches true keywordDash m /\
    removeAll true keywordDash s = removeAll true keywordDash rest.
Proof.
  intros H. destruct (matchAt_keywordDash_front s H) as ([rest cap] & Hm).
  destruct (matchAt_sound _ _ _ _ _ Hm) as (m & Hs & Hw).
  pose proof (keywordDash_nonEmpty m Hw) as Hne.
  exists m, rest. repeat split; try assumption.
  destruct s as [|c s'].
  { symmetry in Hs. apply append_empty in Hs as [-> _]. contradiction. }
  rewrite removeAll_step, Hm.
  assert (L : String.length rest < String.length (String c s')).
  { rewrite Hs, append_length. destruct m; [contradiction | simpl; lia]. }
  apply Nat.ltb_lt in L. now rewrite L.
Qed.

Lemma dash_rejects_space (d : ascii) :
  isWhiteSpace d = true -> sameChar true "-" d = false.
Proof.
  intros H. destruct d as [[] [] [] [] [] [] [] []];
    try (vm_compute in H; discriminate H); reflexivity.
Qed.

Lemma dash_is_dash (c : ascii) : sameChar true "-" c = Ascii.eqb c "-".
Proof. destruct c as [[] [] [] [] [] [] [] []]; reflexivity. Qed.

Lemma matchAt_dashKeyword_front (s : string) :
  dashKeywordAt s = true ->
  exists x, matchAt true dashKeyword s = Some x.
Proof.
  unfold dashKeywordAt. intros H.
  unfold matchAt, dashKeyword. cbn [matchRe].
  rewrite matchStar_reject; cycle 1.
  { intros d s' c Hd. cbn [matchLit]. now rewrite (dash_rejects_space d Hd). }
  destruct (skipRun isWhiteSpace s) as [|c r]; [discriminate|].
  apply andb_true_iff in H as [Hc H].
  cbn [matchLit]. rewrite dash_is_dash, Hc.
  rewrite matchStar_reject; cycle 1.
  { intros d s' c0 Hd. exact (keywords_reject_space d s' c0 _ Hd). }
  set (u := skipRun isWhiteSpace r) in *.
  unfold keywordAt, keywordList in H. cbn [existsb] in H.
  unfold keywords. cbn [matchRe].
  repeat match goal with
         | |- context [matchLit true ?w u] =>
             let E := fresh "E" in
             destruct (matchLit true w u) as [u'|] eqn:E;
             [destruct (matchStar_total isWhiteSpace u' (Some (consumed u u'))
                          (fun s' cap' => Some (s', cap'))) as (x & Hx);
              [eauto | rewrite Hx; now exists x]
             |]
         end.
  cbn in H. discriminate H.
Qed.

Lemma dashKeyword_nonEmpty (m : string) :
  matches true dashKeyword m -> m <> EmptyString.
Proof.
  unfold dashKeyword. intros H.
  inversion H as [| | | | | |r1 r2 m1 m2 H1 H2| | |]; subst; clear H.
  inversion H2 as [| | | | | |r1 r2 m3 m4 H3 H4| | |]; subst; clear H2.
  intros E. apply append_empty in E as [_ E].
  apply append_empty in E as [E _].
  rewrite E in H3. inversion H3 as [w m0 Hl| | | | | | | | |].
  discriminate Hl.
Qed.

(** The same for a dash followed by a keyword, and [dashKeyword]. *)
Lemma removeAll_dashKeyword_front (s : string) :
  dashKeywordAt s = true ->
  exists m rest,
    s = String.append m rest /\ m <> EmptyString /\
    matches true dashKeyword m /\
    removeAll true dashKeyword s = removeAll true dashKeyword rest.
Proof.
  intros H. destruct (matchAt_dashKeyword_front s H) as ([rest cap] & Hm).
  destruct (matchAt_sound _ _ _ _ _ Hm) as (m & Hs & Hw).
  pose proof (dashKeyword_nonEmpty m Hw) as Hne.
  exists m, rest. repeat split; try assumption.
  destruct s as [|c s'].
  { symmetry in Hs. apply append_empty in Hs as [-> _]. contradiction. }
  rewrite removeAll_step, Hm.
  assert (L : String.length rest < String.length (String c s')).
  { rewrite Hs, append_length. destruct m; [contradiction | simpl; lia]. }
  apply Nat.ltb_lt in L. now rewrite L.
Qed.

Lemma cleanTitle_deletes (title : string) :
  exists t1 t2 t3,
    deletes (matches true dashKeyword) title t1 /\
    deletes (matches true keywordDash) t1 t2 /\
    deletes (matches false parenthetical) t2 t3 /\
    cleanTitle title = trim t3.
Proof.
  exists (removeAll true dashKeyword title),
    (removeAll true keywordDash (removeAll true dashKeyword title)),
    (removeAll false parenthetical
       (removeAll true keywordDash (removeAll true dashKeyword title))).
  repeat split; apply removeAll_deletes.
Qed.

Lemma extract_string (title : string) :
  extractClientFromTitle (VString title)
  = Normal {| name := VString (if isEmpty (cleanTitle title) then title
                               else cleanTitle title);
              id := match exec false idPattern title with
                    | Some (Some group1) => group1
                    | _ => EmptyString
                    end |}.
Proof.
  unfold extractClientFromTitle. cbn [try_catch].
  unfold Js.logicalOr. rewrite truthy_string.
  now destruct (isEmpty (cleanTitle title)).
Qed.

(** ** The three passes, scanned from the left *)

Lemma skipRun_app_all (p : ascii -> bool) (w x : string) :
  allChars p w = true -> skipRun p (String.append w x) = skipRun p x.
Proof.
  induction w as [|c w IH]; [reflexivity|].
  cbn [allChars String.append skipRun]. intros H.
  apply andb_true_iff in H as [Hc Hw]. rewrite Hc. now apply IH.
Qed.

Lemma skipRun_length (p : ascii -> bool) (x : string) :
  String.length (skipRun p x) <= String.length x.
Proof. apply suffix_length, skipRun_suffix. Qed.

Lemma skipRun_idem (p : ascii -> bool) (x : string) :
  skipRun p (skipRun p x) = skipRun p x.
Proof.
  destruct (skipRun p x) as [|c r] eqn:E; [reflexivity|].
  cbn [skipRun]. now rewrite (skipRun_stop p x c r E).
Qed.

Lemma matchLit_app (ic : bool) (w m x : string) :
  matchLit ic w m = Some EmptyString ->
  matchLit ic w (String.append m x) = Some x.
Proof.
  revert m. induction w as [|c w IH]; intros m; cbn [matchLit].
  - now intros [= ->].
  - destruct m as [|d m]; [discriminate|]. cbn [String.append].
    destruct (sameChar ic c d); [apply IH | discriminate].
Qed.

Lemma matchLit_dash (m : string) :
  matchLit true "-" m = Some EmptyString -> m = "-".
Proof.
  destruct m as [|c m]; [discriminate|]. cbn [matchLit].
  rewrite dash_is_dash. destruct (Ascii.eqb_spec c "-"); [|discriminate].
  now intros [= ->]; subst.
Qed.

Lemma append_same_length (m1 r1 m2 r2 : string) :
  String.append m1 r1 = String.append m2 r2 ->
  String.length m1 = String.length m2 ->
  m1 = m2 /\ r1 = r2.
Proof.
  revert m2. induction m1 as [|c m1 IH]; intros [|d m2] H L;
    try discriminate L.
  - now split.
  - cbn [String.append] in H. injection H as -> H. injection L as L.
    destruct (IH m2 H L) as [-> ->]. now split.
Qed.

(** *** The keyword at a position *)

Lemma sameChar_clash (a b c : ascii) :
  sameChar true a c = true -> sameChar true b c = true ->
  canonical_char a = canonical_char b.
Proof.
  unfold sameChar. intros H1 H2.
  apply Ascii.eqb_eq in H1, H2. congruence.
Qed.

(** No two keywords begin the same text. *)
Lemma keyword_pair (w w' s u u' : string) :
  In w keywordList -> In w' keywordList ->
  matchLit true w s = Some u -> matchLit true w' s = Some u' -> u = u'.
Proof.
  unfold keywordList. cbn [In].
  intros Hw Hw' H H'.
  repeat match goal with
         | X : _ \/ _ |- _ => destruct X as [X|X]
         | X : False |- _ => destruct X
         end; subst w w'; try congruence; exfalso;
    destruct s as [|c1 [|c2 [|c3 r]]]; cbn [matchLit] in H, H';
    repeat match goal with
           | X : context [if sameChar true ?a ?c then _ else _] |- _ =>
               destruct (sameChar true a c) eqn:?
           end; try discriminate;
    match goal with
    | E1 : sameChar true ?a ?c = true, E2 : sameChar true ?b ?c = true |- _ =>
        let X := fresh in
        pose proof (sameChar_clash a b c E1 E2) as X;
        vm_compute in X; discriminate X
    end.
Qed.

Lemma afterKeyword_unique (w s u : string) :
  In w keywordList -> matchLit true w s = Some u -> afterKeyword s = Some u.
Proof.
  intros Hw H. unfold afterKeyword, keywordList. cbn [fold_right].
  repeat match goal with
         | |- context [matchLit true ?w' s] =>
             let E := fresh "E" in
             destruct (matchLit true w' s) as [u'|] eqn:E;
             [f_equal; apply (keyword_pair w' w s u' u);
              [unfold keywordList; cbn [In]; tauto | exact Hw | exact E | exact H]
             |]
         end.
  exfalso. unfold keywordList in Hw. cbn [In] in Hw.
  repeat destruct Hw as [Hw|Hw]; try contradiction; subst w; congruence.
Qed.

Lemma afterKeyword_sound (s u : string) :
  afterKeyword s = Some u ->
  exists w, In w keywordList /\ matchLit true w s = Some u.
Proof.
  unfold afterKeyword, keywordList. cbn [fold_right].
  repeat match goal with
         | |- context [matchLit true ?w' s] =>
             let E := fresh "E" in
             destruct (matchLit true w' s) as [u'|] eqn:E;
             [intros [= <-]; exists w'; split; [cbn [In]; tauto | exact E]|]
         end.
  discriminate.
Qed.

(** The alternation takes the keyword that stands at the position, when
    what follows it cannot fail. *)
Lemma keywords_first (s : string) (cap : option string)
      (k : string -> option string -> option state) :
  (forall s' c, exists x, k s' c = Some x) ->
  matchRe true keywords s cap k =
  match afterKeyword s with
  | Some u => k u (Some (consumed s u))
  | None => None
  end.
Proof.
  intros Hk. unfold keywords, afterKeyword, keywordList.
  cbn [matchRe fold_right].
  repeat match goal with
         | |- context [matchLit true ?w s] =>
             destruct (matchLit true w s) as [u|];
             [destruct (Hk u (Some (consumed s u))) as (x & ->); reflexivity|]
         end.
  reflexivity.
Qed.

Lemma afterKeyword_space (d : ascii) (s : string) :
  isWhiteSpace d = true -> afterKeyword (String d s) = None.
Proof.
  intros H.
  pose proof (keywords_reject_space d s None (fun s' c => Some (s', c)) H) as R.
  rewrite keywords_first in R by eauto.
  now destruct (afterKeyword (String d s)).
Qed.

Lemma keywords_words (m : string) :
  matches true keywords m ->
  exists w, In w keywordList /\ matchLit true w m = Some EmptyString.
Proof.
  unfold keywords, keywordList. intros H.
  inversion H as [| | | | | | | | |r m0 H0]; subst; clear H.
  repeat match goal with
         | H : matches true (Alt _ _) _ |- _ => inversion H; subst; clear H
         end;
    match goal with
    | H : matches true (Lit ?w) _ |- _ =>
        inversion H; subst; exists w; split; [cbn [In]; tauto | assumption]
    end.
Qed.

(** A keyword followed by anything: the run of white space before it is
    empty and the keyword is found. *)
Lemma keyword_at_front (kw x : string) :
  matches true keywords kw ->
  skipRun isWhiteSpace (String.append kw x) = String.append kw x /\
  afterKeyword (String.append kw x) = Some x.
Proof.
  intros H. destruct (keywords_words kw H) as (w & Hw & Hm).
  assert (A : afterKeyword (String.append kw x) = Some x)
    by (apply (afterKeyword_unique w); [exact Hw | now apply matchLit_app]).
  split; [|exact A].
  destruct (String.append kw x) as [|d r]; [reflexivity|].
  cbn [skipRun]. destruct (isWhiteSpace d) eqn:W; [|reflexivity].
  rewrite (afterKeyword_space d r W) in A. discriminate.
Qed.

(** *** What the matcher finds at a position *)

Lemma final_accepts (s : string) (cap : option string) :
  matchStar isWhiteSpace s cap (fun s' cap' => Some (s', cap'))
  = Some (skipRun isWhiteSpace s, cap).
Proof. now apply matchStar_accept. Qed.

Lemma matchAt_dashKeyword_rest (s : string) :
  option_map fst (matchAt true dashKeyword s) =
  match skipRun isWhiteSpace s with
  | String c r =>
      if Ascii.eqb c "-"%char
      then option_map (skipRun isWhiteSpace)
             (afterKeyword (skipRun isWhiteSpace r))
      else None
  | EmptyString => None
  end.
Proof.
  unfold matchAt, dashKeyword. cbn [matchRe].
  rewrite matchStar_reject; cycle 1.
  { intros d s' c Hd. cbn [matchLit]. now rewrite (dash_rejects_space d Hd). }
  destruct (skipRun isWhiteSpace s) as [|c r]; [reflexivity|].
  cbn [matchLit]. rewrite dash_is_dash.
  destruct (Ascii.eqb c "-"); [|reflexivity].
  rewrite matchStar_reject; cycle 1.
  { intros d s' c0 Hd. exact (keywords_reject_space d s' c0 _ Hd). }
  rewrite keywords_first; cycle 1.
  { intros s' c0. rewrite final_accepts. eauto. }
  destruct (afterKeyword (skipRun isWhiteSpace r)) as [u|]; [|reflexivity].
  now rewrite final_accepts.
Qed.

Lemma separator_rest (u : string) (cap : option string) :
  matchRe true
    (Seq (Star isWhiteSpace) (Seq (Opt (Lit "-")) (Star isWhiteSpace)))
    u cap (fun s' cap' => Some (s', cap'))
  = Some (match matchLit true "-" (skipRun isWhiteSpace u) with
          | Some r => skipRun isWhiteSpace r
          | None => skipRun isWhiteSpace u
          end, cap).
Proof.
  cbn [matchRe]. apply matchStar_accept.
  destruct (matchLit true "-" (skipRun isWhiteSpace u)) as [r|].
  - now rewrite final_accepts.
  - now rewrite final_accepts, skipRun_idem.
Qed.

Lemma matchAt_keywordDash_rest (s : string) :
  option_map fst (matchAt true keywordDash s) =
  match afterKeyword (skipRun isWhiteSpace s) with
  | Some u =>
      Some (match matchLit true "-" (skipRun isWhiteSpace u) with
            | Some r => skipRun isWhiteSpace r
            | None => skipRun isWhiteSpace u
            end)
  | None => None
  end.
Proof.
  unfold matchAt, keywordDash.
  change (matchRe true (Seq (Star isWhiteSpace) (Seq keywords ?sep)) s None ?k)
    with (matchStar isWhiteSpace s None
            (fun s' cap' => matchRe true keywords s' cap'
                              (fun s2 cap2 => matchRe true sep s2 cap2 k))).
  rewrite matchStar_reject; cycle 1.
  { intros d s' c Hd. exact (keywords_reject_space d s' c _ Hd). }
  rewrite keywords_first; cycle 1.
  { intros s' c. rewrite separator_rest. eauto. }
  destruct (afterKeyword (skipRun isWhiteSpace s)) as [u|]; [|reflexivity].
  now rewrite separator_rest.
Qed.

(** *** The match found is the longest word at the position *)

Lemma seq_word (ic : bool) (r1 r2 : regex) (m : string) :
  matches ic (Seq r1 r2) m ->
  exists m1 m2,
    m = String.append m1 m2 /\ matches ic r1 m1 /\ matches ic r2 m2.
Proof. intros H. inversion H; subst. eauto. Qed.

Lemma star_word (ic : bool) (p : ascii -> bool) (m : string) :
  matches ic (Star p) m -> allChars p m = true.
Proof. intros H. now inversion H. Qed.

Lemma lit_word (ic : bool) (w m : string) :
  matches ic (Lit w) m -> matchLit ic w m = Some EmptyString.
Proof. intros H. now inversion H. Qed.

Lemma dashKeyword_longest (m' rest' : string) :
  matches true dashKeyword m' ->
  exists rest cap,
    matchAt true dashKeyword (String.append m' rest') = Some (rest, cap) /\
    String.length rest <= String.length rest'.
Proof.
  unfold dashKeyword. intros H.
  apply seq_word in H as (w1 & x1 & -> & H1 & H).
  apply seq_word in H as (d & x2 & -> & Hd & H).
  apply seq_word in H as (w2 & x3 & -> & H2 & H).
  apply seq_word in H as (kw & w3 & -> & Hk & H3).
  apply star_word in H1, H2, H3. apply lit_word, matchLit_dash in Hd. subst d.
  fold dashKeyword.
  pose proof (matchAt_dashKeyword_rest
                (String.append (String.append w1 (String.append "-"
                   (String.append w2 (String.append kw w3)))) rest')) as R.
  rewrite !append_assoc in R.
  rewrite (skipRun_app_all isWhiteSpace w1) in R by assumption.
  cbn [String.append skipRun] in R.
  change (isWhiteSpace "-") with false in R. cbv iota in R.
  change (Ascii.eqb "-" "-") with true in R. cbv iota in R.
  rewrite (skipRun_app_all isWhiteSpace w2) in R by assumption.
  destruct (keyword_at_front kw (String.append w3 rest') Hk) as [K1 K2].
  rewrite K1, K2 in R. cbn [option_map] in R.
  rewrite (skipRun_app_all isWhiteSpace w3) in R by assumption.
  rewrite !append_assoc.
  destruct (matchAt true dashKeyword _) as [[rest cap]|]; [|discriminate R].
  injection R as ->. exists (skipRun isWhiteSpace rest'), cap.
  split; [reflexivity | apply skipRun_length].
Qed.

Lemma opt_dash_word (m : string) :
  matches true (Opt (Lit "-")) m -> m = "-" \/ m = EmptyString.
Proof.
  intros H. inversion H; subst; [left | now right].
  now apply matchLit_dash, lit_word.
Qed.

Lemma matchLit_dash_head (v : string) :
  match matchLit true "-" v with
  | Some r => v = String "-" r
  | None => forall r, v <> String "-" r
  end.
Proof.
  destruct v as [|c v]; cbn [matchLit]; [discriminate|].
  rewrite dash_is_dash. destruct (Ascii.eqb_spec c "-") as [->|N].
  - reflexivity.
  - intros r [= E _]. contradiction.
Qed.

Lemma keywordDash_longest (m' rest' : string) :
  matches true keywordDash m' ->
  exists rest cap,
    matchAt true keywordDash (String.append m' rest') = Some (rest, cap) /\
    String.length rest <= String.length rest'.
Proof.
  unfold keywordDash. intros H.
  apply seq_word in H as (w1 & x1 & -> & H1 & H).
  apply seq_word in H as (kw & x2 & -> & Hk & H).
  apply seq_word in H as (w2 & x3 & -> & H2 & H).
  apply seq_word in H as (o & w3 & -> & Ho & H3).
  apply star_word in H1, H2, H3. apply opt_dash_word in Ho.
  fold keywordDash.
  pose proof (matchAt_keywordDash_rest
                (String.append (String.append w1 (String.append kw
                   (String.append w2 (String.append o w3)))) rest')) as R.
  rewrite !append_assoc in R.
  rewrite (skipRun_app_all isWhiteSpace w1) in R by assumption.
  destruct (keyword_at_front kw
              (String.append w2 (String.append o (String.append w3 rest'))) Hk)
    as [K1 K2].
  rewrite K1, K2 in R.
  rewrite (skipRun_app_all isWhiteSpace w2) in R by assumption.
  assert (L : String.length
                (match matchLit true "-"
                         (skipRun isWhiteSpace
                            (String.append o (String.append w3 rest'))) with
                 | Some r => skipRun isWhiteSpace r
                 | None => skipRun isWhiteSpace
                             (String.append o (String.append w3 rest'))
                 end) <= String.length rest').
  { destruct Ho as [-> | ->].
    - cbn [String.append skipRun]. change (isWhiteSpace "-") with false.
      cbv iota. cbn [matchLit]. rewrite dash_is_dash.
      change (Ascii.eqb "-" "-") with true. cbv iota.
      rewrite skipRun_app_all by assumption. apply skipRun_length.
    - cbn [String.append]. rewrite skipRun_app_all by assumption.
      pose proof (skipRun_length isWhiteSpace rest') as L1.
      pose proof (matchLit_dash_head (skipRun isWhiteSpace rest')) as D.
      destruct (matchLit true "-" (skipRun isWhiteSpace rest')) as [r|];
        [|exact L1].
      pose proof (skipRun_length isWhiteSpace r) as L2.
      rewrite D in L1. cbn [String.length] in L1. lia. }
  rewrite !append_assoc.
  destruct (matchAt true keywordDash _) as [[rest cap]|]; [|discriminate R].
  injection R as ->. eexists _, cap. split; [reflexivity | exact L].
Qed.

Lemma matchLit_open (m : string) :
  matchLit false "(" m = Some EmptyString -> m = "(".
Proof.
  destruct m as [|c m]; [discriminate|]. cbn [matchLit sameChar].
  destruct (Ascii.eqb_spec "(" c) as [<-|]; [|discriminate].
  now intros [= ->].
Qed.

Lemma matchLit_close (m : string) :
  matchLit false ")" m = Some EmptyString -> m = ")".
Proof.
  destruct m as [|c m]; [discriminate|]. cbn [matchLit sameChar].
  destruct (Ascii.eqb_spec ")" c) as [<-|]; [|discriminate].
  now intros [= ->].
Qed.

Lemma parenthetical_longest (m' rest' : string) :
  matches false parenthetical m' ->
  exists rest cap,
    matchAt false parenthetical (String.append m' rest') = Some (rest, cap) /\
    String.length rest <= String.length rest'.
Proof.
  unfold parenthetical. intros H.
  apply seq_word in H as (o & x1 & -> & Ho & H).
  apply seq_word in H as (w & c & -> & Hw & Hc).
  apply star_word in Hw.
  apply lit_word, matchLit_open in Ho. apply lit_word, matchLit_close in Hc.
  subst o c. fold parenthetical.
  rewrite matchAt_parenthetical, !append_assoc.
  cbn [String.append]. change (Ascii.eqb "(" "(") with true. cbv iota.
  rewrite skipRun_app_all by assumption.
  cbn [String.append skipRun]. change (notClosing ")") with false. cbv iota.
  exists rest', None. split; [reflexivity | lia].
Qed.

Lemma parenthetical_nonEmpty (m : string) :
  matches false parenthetical m -> m <> EmptyString.
Proof.
  unfold parenthetical. intros H.
  apply seq_word in H as (o & x1 & -> & Ho & _).
  apply lit_word, matchLit_open in Ho. subst o. discriminate.
Qed.

(** *** Global removal is the scan from the left *)

Lemma removeAll_replaced (ic : bool) (r : regex) :
  (forall m, matches ic r m -> m <> EmptyString) ->
  (forall m' rest', matches ic r m' ->
     exists rest cap,
       matchAt ic r (String.append m' rest') = Some (rest, cap) /\
       String.length rest <= String.length rest') ->
  forall s, replaced (matches ic r) s (removeAll ic r s).
Proof.
  intros Hne Hlong s. induction s as [s IH] using string_length_ind.
  destruct s as [|c s']; [constructor|].
  rewrite removeAll_step.
  destruct (matchAt ic r (String c s')) as [[rest cap]|] eqn:E.
  - destruct (matchAt_sound _ _ _ _ _ E) as (m & Hs & Hw).
    pose proof (Hne m Hw) as Hm.
    assert (L : String.length rest < String.length (String c s')).
    { rewrite Hs, append_length. destruct m; [contradiction | simpl; lia]. }
    apply Nat.ltb_lt in L as L'. rewrite L'.
    apply (replaced_drop _ _ m rest); [|now apply IH].
    repeat split; try assumption.
    intros m2 rest2 Hs2 Hw2.
    destruct (Hlong m2 rest2 Hw2) as (rest3 & cap3 & E3 & L3).
    rewrite <- Hs2, E in E3. injection E3 as <- _.
    apply (f_equal String.length) in Hs, Hs2.
    rewrite append_length in Hs, Hs2. lia.
  - apply replaced_keep; [|apply IH; simpl; lia].
    intros m rest Hs Hm Hw.
    destruct (Hlong m rest Hw) as (rest3 & cap3 & E3 & _).
    rewrite <- Hs in E3. congruence.
Qed.

Lemma longestMatch_unique (word : string -> Prop) (s m1 r1 m2 r2 : string) :
  longestMatch word s m1 r1 -> longestMatch word s m2 r2 ->
  m1 = m2 /\ r1 = r2.
Proof.
  intros (S1 & _ & W1 & L1) (S2 & _ & W2 & L2).
  apply append_same_length; [congruence|].
  pose proof (L1 m2 r2 S2 W2). pose proof (L2 m1 r1 S1 W1). lia.
Qed.

Lemma longestMatch_noMatch (word : string -> Prop) (s m rest : string) :
  longestMatch word s m rest -> noMatch word s -> False.
Proof. intros (S & N & W & _) H. exact (H m rest S N W). Qed.

Lemma longestMatch_not_empty (word : string -> Prop) (m rest : string) :
  ~ longestMatch word EmptyString m rest.
Proof.
  intros (S & N & _). symmetry in S. now apply append_empty in S as [-> _].
Qed.

(** The scan has one result. *)
Lemma replaced_functional (word : string -> Prop) (s t t' : string) :
  replaced word s t -> replaced word s t' -> t = t'.
Proof.
  intros H. revert t'.
  induction H as [|s m rest t L H IH|c s t N H IH]; intros t' H'.
  - inversion H' as [|s0 m0 rest0 t0 L0 H0|]; subst; [reflexivity|].
    now destruct (longestMatch_not_empty _ _ _ L0).
  - inversion H' as [|s0 m0 rest0 t0 L0 H0|c0 s0 t0 N0 H0]; subst.
    + now destruct (longestMatch_not_empty _ _ _ L).
    + destruct (longestMatch_unique _ _ _ _ _ _ L L0) as [_ <-].
      now apply IH.
    + now destruct (longestMatch_noMatch _ _ _ _ L N0).
  - inversion H' as [|s0 m0 rest0 t0 L0 H0|c0 s0 t0 N0 H0]; subst.
    + now destruct (longestMatch_noMatch _ _ _ _ L0 N).
    + f_equal. now apply IH.
Qed.

Lemma cleanTitle_replaced (title : string) :
  replaced (matches true dashKeyword) title
    (removeAll true dashKeyword title) /\
  replaced (matches true keywordDash) (removeAll true dashKeyword title)
    (removeAll true keywordDash (removeAll true dashKeyword title)) /\
  replaced (matches false parenthetical)
    (removeAll true keywordDash (removeAll true dashKeyword title))
    (removeAll false parenthetical
       (removeAll true keywordDash (removeAll true dashKeyword title))).
Proof.
  split; [|split].
  - apply removeAll_replaced; [exact dashKeyword_nonEmpty | exact dashKeyword_longest].
  - apply removeAll_replaced; [exact keywordDash_nonEmpty | exact keywordDash_longest].
  - apply removeAll_replaced;
      [exact parenthetical_nonEmpty | exact parenthetical_longest].
Qed.

(** C8.  On a string title, [extractClientFromTitle] returns as [id]
    the first parenthesized token of upper-case letters and digits (the
    empty string when there is none), and as [name] the cleaned title,
    or the untouched title when the cleaned title is empty.  The cleaned
    title is fixed by three scans from the left, each of which removes
    every occurrence it meets, wherever it stands: first the words of
    the pattern "dash, keyword" (a keyword in any letter case, with the
    dash and the white space next to it), then the words of the pattern
    "keyword, optional dash", then the parenthetical content; the result
    is trimmed.  At each position a scan drops the longest word of its
    pattern that begins there and goes on behind it, or keeps the
    character when no word begins there; such a scan has exactly one
    result, so the three scans determine the name.  Besides, only words
    of the three patterns are deleted, the cleaned title holds no
    parenthetical content any more, a title without keyword only loses
    its parenthetical content, and each keyword pass deletes a keyword
    (with its dash) that stands at the front of its input.  The title
    of the scenario gives ["C001"] and ["John Doe"], and a keyword
    behind the name is removed as well. *)
Theorem extractClientFromTitle_spec :
  (forall title : string,
      exists nm tok,
        extractClientFromTitle (VString title)
          = Normal {| name := VString nm; id := tok |} /\
        (forall t, firstToken title t <-> t = tok /\ t <> EmptyString) /\
        (exists t1 t2 t3,
            replaced (matches true dashKeyword) title t1 /\
            replaced (matches true keywordDash) t1 t2 /\
            replaced (matches false parenthetical) t2 t3 /\
            nm = (if isEmpty (trim t3) then title else trim t3)) /\
        (forall t1 t2 t3,
            replaced (matches true dashKeyword) title t1 ->
            replaced (matches true keywordDash) t1 t2 ->
            replaced (matches false parenthetical) t2 t3 ->
            nm = (if isEmpty (trim t3) then title else trim t3)) /\
        nm = (if isEmpty (cleanTitle title) then title else cleanTitle title) /\
        (exists t1 t2 t3,
            deletes (matches true dashKeyword) title t1 /\
            deletes (matches true keywordDash) t1 t2 /\
            deletes (matches false parenthetical) t2 t3 /\
            cleanTitle title = trim t3) /\
        hasParenthetical (cleanTitle title) = false /\
        (hasKeyword title = false ->
         cleanTitle title = trim (removeAll false parenthetical title))) /\
  (forall (word : string -> Prop) (s t t' : string),
      replaced word s t -> replaced word s t' -> t = t') /\
  (forall s : string,
      dashKeywordAt s = true ->
      exists m rest,
        s = String.append m rest /\ m <> EmptyString /\
        matches true dashKeyword m /\
        removeAll true dashKeyword s = removeAll true dashKeyword rest) /\
  (forall s : string,
      keywordAt (trimStart s) = true ->
      exists m rest,
        s = String.append m rest /\ m <> EmptyString /\
        matches true keywordDash m /\
        removeAll true keywordDash s = removeAll true keywordDash rest) /\
  extractClientFromTitle (VString "Therapy Session - John Doe (C001)")
    = Normal {| name := VString "John Doe"; id := "C001" |} /\
  extractClientFromTitle (VString "John Doe - Therapy")
    = Normal {| name := VString "John Doe"; id := "" |}.
Proof.
  split; [|split; [exact replaced_functional|
           split; [exact removeAll_dashKeyword_front|
           split; [exact removeAll_keywordDash_front|
           split; reflexivity]]]].
  intros title. rewrite extract_string.
  destruct (cleanTitle_replaced title) as (R1 & R2 & R3).
  eexists. eexists. split; [reflexivity|].
  split; [|split; [|split; [|split; [reflexivity|split; [apply cleanTitle_deletes|
           split; [apply cleanTitle_no_parenthetical|apply cleanTitle_no_keyword]]]]]].
  - intros t. pose proof (exec_idPattern title) as H.
    destruct (exec false idPattern title) as [[tok|]|]; [|contradiction|].
    + split.
      * intros Ht. split; [exact (firstToken_functional _ _ _ Ht H)|].
        exact (firstToken_nonEmpty _ _ Ht).
      * now intros [-> _].
    + split; [intros Ht; now destruct (H t) | now intros [-> N]].
  - exists (removeAll true dashKeyword title),
      (removeAll true keywordDash (removeAll true dashKeyword title)),
      (removeAll false parenthetical
         (removeAll true keywordDash (removeAll true dashKeyword title))).
    repeat split; assumption.
  - intros t1 t2 t3 S1 S2 S3.
    rewrite (replaced_functional _ _ _ _ S1 R1) in S2.
    rewrite (replaced_functional _ _ _ _ S2 R2) in S3.
    rewrite (replaced_functional _ _ _ _ S3 R3).
    reflexivity.
Qed.

Lemma extractClientFromTitle_spec_witness :
  extractClientFromTitle (VString "Jane Roe (followup) (X9)")
    = Normal {| name := VString "Jane Roe"; id := "X9" |} /\
  cleanTitle "Jane Roe (followup) (X9)"
    = trim (removeAll false parenthetical "Jane Roe (followup) (X9)") /\
  (exists m rest,
      " SESSION - Jane Roe" = String.append m rest /\ m <> EmptyString /\
      removeAll true keywordDash " SESSION - Jane Roe"
      = removeAll true keywordDash rest) /\
  (exists m rest,
      "  - Counseling" = String.append m rest /\ m <> EmptyString /\
      removeAll true dashKeyword "  - Counseling"
      = removeAll true dashKeyword rest) /\
  (exists t1 t2 t3,
      replaced (matches true dashKeyword) "Jane Roe - Session (X9)" t1 /\
      replaced (matches true keywordDash) t1 t2 /\
      replaced (matches false parenthetical) t2 t3 /\
      "Jane Roe" = (if isEmpty (trim t3) then "Jane Roe - Session (X9)"
                    else trim t3)).
Proof.
  destruct extractClientFromTitle_spec as (Ht & _ & Hd & Hk & _).
  destruct (Ht "Jane Roe (followup) (X9)")
    as (nm & tok & H & _ & _ & _ & _ & _ & _ & Hn).
  split; [|split; [exact (Hn eq_refl)|split; [|split]]].
  - rewrite H. vm_compute in H. injection H as <- <-. reflexivity.
  - destruct (Hk " SESSION - Jane Roe" eq_refl) as (m & rest & H1 & H2 & _ & H3).
    now exists m, rest.
  - destruct (Hd "  - Counseling" eq_refl) as (m & rest & H1 & H2 & _ & H3).
    now exists m, rest.
  - destruct (Ht "Jane Roe - Session (X9)")
      as (nm' & tok' & H' & _ & (t1 & t2 & t3 & R1 & R2 & R3 & E) & U & _).
    exists t1, t2, t3. repeat split; try assumption.
    rewrite <- (U t1 t2 t3 R1 R2 R3).
    vm_compute in H'. now injection H' as <- _.
Defined.

End TitleFacts.

(* ================================================================== *)
(** * No operation of the two components throws *)
(* ================================================================== *)

Section Totality.

Import PipeDelimitedHelpers CalendarService.

(** A [try] whose handler returns does not throw. *)
Lemma try_catch_returns {A} (body : result A) (fallback : string -> A) :
  exists r, try_catch body (fun e => Normal (fallback e)) = Normal r.
Proof. destruct body as [a|e]; simpl; eauto. Qed.

Lemma parse_returns data t : exists r, parse data t = Normal r.
Proof. exact (try_catch_returns _ (fun _ => [])). Qed.

Lemma stringify_returns items t : exists r, stringify items t = Normal r.
Proof. exact (try_catch_returns _ (fun _ => EmptyString)). Qed.

Lemma addItem_returns data item dup : exists r, addItem data item dup = Normal r.
Proof. exact (try_catch_returns _ (fun _ => Js.logicalOr data (VString ""))). Qed.

Lemma removeItem_returns data item : exists r, removeItem data item = Normal r.
Proof. exact (try_catch_returns _ (fun _ => Js.logicalOr data (VString ""))). Qed.

Lemma updateItem_returns data o n : exists r, updateItem data o n = Normal r.
Proof. exact (try_catch_returns _ (fun _ => Js.logicalOr data (VString ""))). Qed.

Lemma reorderItems_returns data o : exists r, reorderItems data o = Normal r.
Proof. exact (try_catch_returns _ (fun _ => Js.logicalOr data (VString ""))). Qed.

Lemma contains_returns data item : exists r, contains data item = Normal r.
Proof. exact (try_catch_returns _ (fun _ => false)). Qed.

Lemma merge_returns l d : exists r, merge l d = Normal r.
Proof. exact (try_catch_returns _ (fun _ => EmptyString)). Qed.

Lemma validate_returns data : exists r, validate data = Normal r.
Proof.
  exact (try_catch_returns _
           (fun e => Report false 0 None [String.append "Validation error: " e])).
Qed.

Lemma clean_returns data options : exists r, clean data options = Normal r.
Proof. exact (try_catch_returns _ (fun _ => Js.logicalOr data (VString ""))). Qed.

Lemma match_returns source appointment :
  exists r, matchAppointmentToClient source appointment = Normal r.
Proof. exact (try_catch_returns _ (fun _ => VNull)). Qed.

Lemma confidence_returns appointment client :
  exists r, calculateMatchConfidence appointment client = Normal r.
Proof.
  unfold calculateMatchConfidence.
  destruct (negb (truthy client)); [now exists none|].
  exact (try_catch_returns _ (fun _ => low)).
Qed.

Lemma extract_returns title : exists r, extractClientFromTitle title = Normal r.
Proof. exact (try_catch_returns _ (fun _ => Extracted title EmptyString)). Qed.

(** ** What malformed input degrades to *)

Lemma stringify_not_array items t :
  isArray items = false -> stringify items t = Normal EmptyString.
Proof. destruct items; try discriminate; reflexivity. Qed.

Lemma addItem_bad_item data item dup :
  isString item = false -> addItem data item dup = Normal (Js.logicalOr data (VString "")).
Proof.
  intros H. unfold addItem. rewrite H, orb_true_r. reflexivity.
Qed.

Lemma callTrim_not_string v : isString v = false -> exists e, callTrim v = Throw e.
Proof. destruct v; try discriminate; simpl; eauto. Qed.

Lemma updateItem_bad_item data oldItem newItem :
  isString oldItem = false \/ isString newItem = false ->
  updateItem data oldItem newItem = Normal (Js.logicalOr data (VString "")).
Proof.
  intros H. unfold updateItem.
  destruct (negb (truthy data) || negb (truthy oldItem) || negb (truthy newItem));
    [reflexivity|].
  destruct (parse_returns data VUndefined) as (l & ->). cbn [bind].
  destruct (isString oldItem) eqn:So.
  - destruct H as [H|H]; [discriminate|].
    destruct oldItem; try discriminate. cbn [callTrim bind].
    destruct (callTrim_not_string newItem H) as (e & ->). reflexivity.
  - destruct (callTrim_not_string oldItem So) as (e & ->). reflexivity.
Qed.

Lemma reorderItems_not_array data newOrder :
  isArray newOrder = false ->
  reorderItems data newOrder = Normal (Js.logicalOr data (VString "")).
Proof.
  intros H. unfold reorderItems. rewrite H, orb_true_r. reflexivity.
Qed.

Lemma contains_bad_item data item :
  isString item = false -> contains data item = Normal false.
Proof.
  intros H. unfold contains.
  destruct (negb (truthy data) || negb (truthy item)); [reflexivity|].
  destruct (parse_returns data VUndefined) as (l & ->). cbn [bind].
  destruct (callTrim_not_string item H) as (e & ->). reflexivity.
Qed.

Lemma merge_not_array dataArray d :
  isArray dataArray = false -> merge dataArray d = Normal EmptyString.
Proof. destruct dataArray; try discriminate; reflexivity. Qed.

Lemma clean_falsy data options :
  truthy data = false -> clean data options = Normal (VString "").
Proof. intros H. unfold clean. now rewrite H. Qed.

Lemma clean_not_string data options :
  isString data = false -> truthy data = true ->
  clean data options = Normal (VString "").
Proof.
  intros Hs Ht. unfold clean. rewrite Ht. cbn [negb].
  rewrite (parse_not_string data Hs). cbn [bind].
  destruct (truthy (opt _ "removeEmpty")), (truthy (opt _ "removeLineBreaks")),
    (truthy (opt _ "removeDuplicates")); reflexivity.
Qed.

Lemma match_no_list source appointment :
  match source with
  | Returns allClients => isArray allClients = false
  | _ => True
  end ->
  matchAppointmentToClient source appointment = Normal VNull.
Proof.
  destruct source as [|allClients|e]; intros H; try reflexivity.
  unfold matchAppointmentToClient.
  assert (F : forall pred, exists e, callFind allClients pred = Throw e).
  { intros pred. destruct allClients; try discriminate; simpl; eauto. }
  destruct (noClients allClients) as [[]|]; try reflexivity. cbn [bind].
  destruct (get appointment "extractedClientId") as [eid|]; [|reflexivity].
  cbn [bind]. destruct (truthy eid).
  - destruct (F (idMatches appointment)) as (e & ->). reflexivity.
  - cbn [bind truthy].
    destruct (get appointment "extractedClientName") as [en|]; [|reflexivity].
    cbn [bind]. destruct (truthy en); [|reflexivity].
    destruct (callToLowerCase en) as [lowered|]; [|reflexivity]. cbn [bind].
    destruct (F (nameMatches (trim lowered))) as (e & ->). reflexivity.
Qed.

Lemma confidence_absent appointment client :
  truthy client = false -> calculateMatchConfidence appointment client = Normal none.
Proof. intros H. unfold calculateMatchConfidence. now rewrite H. Qed.

Lemma confidence_bad_appointment client :
  truthy client = true ->
  calculateMatchConfidence VNull client = Normal low /\
  calculateMatchConfidence VUndefined client = Normal low.
Proof. intros H. unfold calculateMatchConfidence. rewrite H. split; reflexivity. Qed.

Lemma extract_not_string title :
  isString title = false ->
  extractClientFromTitle title = Normal (Extracted title EmptyString).
Proof. destruct title; try discriminate; reflexivity. Qed.

Lemma addGoal_blank getGoals setGoals goalText :
  truthy goalText = false \/ callTrim goalText = Normal EmptyString ->
  GoalManagementService.addGoal getGoals setGoals goalText
  = Throw "Failed to add goal: Goal text cannot be empty".
Proof.
  unfold GoalManagementService.addGoal. intros [H|H].
  - now rewrite H.
  - destruct (truthy goalText); [|reflexivity]. cbn [negb]. now rewrite H.
Qed.

(** C5, as the code has it.  No operation of [PipeDelimitedHelpers]
    ([parse], [stringify], [addItem], [removeItem], [updateItem],
    [reorderItems], [contains], [merge], [validate], [clean]) and no
    function of the matcher ([matchAppointmentToClient],
    [calculateMatchConfidence], [extractClientFromTitle]) throws, on any
    input.  Malformed input degrades: a text that is not a string has no
    entries, a non-array serializes to the empty string, an item that is
    not a string leaves the text as it is, a missing client list gives
    no client, an absent client gives [none], and an appointment that
    cannot be read gives [low].  [GoalManagementService.addGoal] is
    different: it reports a blank goal text by throwing. *)
Theorem helpers_never_throw :
  ((forall data t, exists r, parse data t = Normal r) /\
   (forall items t, exists r, stringify items t = Normal r) /\
   (forall data item dup, exists r, addItem data item dup = Normal r) /\
   (forall data item, exists r, removeItem data item = Normal r) /\
   (forall data o n, exists r, updateItem data o n = Normal r) /\
   (forall data o, exists r, reorderItems data o = Normal r) /\
   (forall data item, exists r, contains data item = Normal r) /\
   (forall l d, exists r, merge l d = Normal r) /\
   (forall data, exists r, validate data = Normal r) /\
   (forall data options, exists r, clean data options = Normal r) /\
   (forall source appointment,
       exists r, matchAppointmentToClient source appointment = Normal r) /\
   (forall appointment client,
       exists r, calculateMatchConfidence appointment client = Normal r) /\
   (forall title, exists r, extractClientFromTitle title = Normal r)) /\
  ((forall data t, isString data = false -> parse data t = Normal []) /\
   (forall items t, isArray items = false -> stringify items t = Normal EmptyString) /\
   (forall data item dup,
       isString item = false ->
       addItem data item dup = Normal (Js.logicalOr data (VString ""))) /\
   (forall data item,
       isString item = false ->
       removeItem data item = Normal (Js.logicalOr data (VString ""))) /\
   (forall data oldItem newItem,
       isString oldItem = false \/ isString newItem = false ->
       updateItem data oldItem newItem = Normal (Js.logicalOr data (VString ""))) /\
   (forall data newOrder,
       isArray newOrder = false ->
       reorderItems data newOrder = Normal (Js.logicalOr data (VString ""))) /\
   (forall data item, isString item = false -> contains data item = Normal false) /\
   (forall dataArray d,
       isArray dataArray = false -> merge dataArray d = Normal EmptyString) /\
   (forall data options,
       isString data = false -> clean data options = Normal (VString "")) /\
   (forall source appointment,
       match source with
       | Returns allClients => isArray allClients = false
       | _ => True
       end ->
       matchAppointmentToClient source appointment = Normal VNull) /\
   (forall appointment client,
       truthy client = false ->
       calculateMatchConfidence appointment client = Normal none) /\
   (forall client,
       truthy client = true ->
       calculateMatchConfidence VNull client = Normal low /\
       calculateMatchConfidence VUndefined client = Normal low) /\
   (forall title,
       isString title = false ->
       extractClientFromTitle title = Normal (Extracted title EmptyString))) /\
  (forall getGoals setGoals goalText,
      truthy goalText = false \/ callTrim goalText = Normal EmptyString ->
      GoalManagementService.addGoal getGoals setGoals goalText
      = Throw "Failed to add goal: Goal text cannot be empty").
Proof.
  split; [|split].
  - repeat split.
    + exact parse_returns.
    + exact stringify_returns.
    + exact addItem_returns.
    + exact removeItem_returns.
    + exact updateItem_returns.
    + exact reorderItems_returns.
    + exact contains_returns.
    + exact merge_returns.
    + exact validate_returns.
    + exact clean_returns.
    + exact match_returns.
    + exact confidence_returns.
    + exact extract_returns.
  - split; [exact (fun data t H => parse_not_string data H t)|].
    split; [exact stringify_not_array|].
    split; [exact addItem_bad_item|].
    split; [exact removeItem_bad_item|].
    split; [exact updateItem_bad_item|].
    split; [exact reorderItems_not_array|].
    split; [exact contains_bad_item|].
    split; [exact merge_not_array|].
    split.
    { intros data options Hs. destruct (truthy data) eqn:Ht.
      - now apply clean_not_string.
      - now apply clean_falsy. }
    split; [exact match_no_list|].
    split; [exact confidence_absent|].
    split; [exact confidence_bad_appointment|].
    exact extract_not_string.
  - exact addGoal_blank.
Qed.

Lemma helpers_never_throw_witness :
  parse (VNumber 5) VUndefined = Normal [] /\
  removeItem (VString "A|B") (VNumber 5) = Normal (VString "A|B") /\
  matchAppointmentToClient (Returns VNull) VUndefined = Normal VNull /\
  calculateMatchConfidence VUndefined (VObject []) = Normal low /\
  GoalManagementService.addGoal (Normal []) (fun _ => Normal tt) (VString "  ")
    = Throw "Failed to add goal: Goal text cannot be empty".
Proof.
  destruct helpers_never_throw
    as (_ & (Hp & _ & _ & Hr & _ & _ & _ & _ & _ & Hm & _ & Hc & _) & Hg).
  split; [exact (Hp (VNumber 5) VUndefined eq_refl)|].
  split; [exact (Hr (VString "A|B") (VNumber 5) eq_refl)|].
  split; [exact (Hm (Returns VNull) VUndefined eq_refl)|].
  split; [exact (proj2 (Hc (VObject []) eq_refl))|].
  apply Hg. right. reflexivity.
Defined.

(** C5 as stated fails for the goal list: adding a goal with an empty
    or missing text, or a goal that is already there, throws. *)
Lemma helpers_never_throw_counterexample :
  GoalManagementService.addGoal (Normal ["Sleep better"]) (fun _ => Normal tt)
    (VString "")
  = Throw "Failed to add goal: Goal text cannot be empty" /\
  GoalManagementService.addGoal (Normal ["Sleep better"]) (fun _ => Normal tt)
    VUndefined
  = Throw "Failed to add goal: Goal text cannot be empty" /\
  GoalManagementService.addGoal (Normal ["Sleep better"]) (fun _ => Normal tt)
    (VString "sleep better ")
  = Throw "Failed to add goal: This goal already exists for the client".
Proof. repeat split. Qed.

End Totality.

(* ================================================================== *)
(** * Further properties of the list operations *)
(* ================================================================== *)

Section PipeExtras.

Import PipeDelimitedHelpers.

(** ** Round trips *)

(** X1.  Writing a list and reading it back gives the list again
    exactly when every item is storable: trimmed, not empty and free of
    the separator. *)
Theorem parse_stringify_round_trip (items : list string) :
  exists text,
    stringify (strings items) VUndefined = Normal text /\
    (parse (VString text) VUndefined = Normal items <-> Forall storable items).
Proof.
  exists (serialize items). split; [apply stringify_strings|].
  rewrite parse_string. split.
  - intros [= H]. rewrite <- H. apply entries_storable.
  - intros H. f_equal. now apply entries_serialize.
Qed.

Lemma canonical_serialize (items : list string) :
  Forall storable items -> canonical (serialize items).
Proof.
  intros H. unfold canonical. rewrite entries_serialize by assumption.
  now apply serialize_storable.
Qed.

(** X2.  Reading a text and writing it again normalizes it: the result
    has the same entries, is in canonical form, and is left unchanged by
    a second pass. *)
Theorem stringify_parse_normalizes (text : string) :
  exists items normal,
    parse (VString text) VUndefined = Normal items /\
    stringify (strings items) VUndefined = Normal normal /\
    parse (VString normal) VUndefined = Normal items /\
    canonical normal.
Proof.
  exists (entries text), (serialize (entries text)).
  pose proof (entries_storable text) as F.
  split; [apply parse_string|]. split; [apply stringify_strings|].
  split; [rewrite parse_string; f_equal; now apply entries_serialize|].
  now apply canonical_serialize.
Qed.

(** ** [contains] *)

Lemma not_In_empty_entries (text : string) : ~ In EmptyString (entries text).
Proof.
  intros H. pose proof (entries_storable text) as F.
  rewrite Forall_forall in F. now destruct (F _ H) as (_ & N & _).
Qed.

Lemma contains_string (text item : string) :
  contains (VString text) (VString item) = Normal (mem (trim item) (entries text)).
Proof.
  unfold contains. rewrite !truthy_string, !negb_involutive.
  destruct (isEmpty text) eqn:Et.
  - apply isEmpty_true in Et. subst. reflexivity.
  - destruct (isEmpty item) eqn:Ei.
    + apply isEmpty_true in Ei. subst. cbn [orb].
      change (trim "") with EmptyString.
      rewrite (proj2 (mem_not_In _ _) (not_In_empty_entries text)). reflexivity.
    + cbn [orb]. rewrite parse_string. reflexivity.
Qed.

Lemma storable_not_empty (item : string) :
  storable (trim item) -> isEmpty item = false.
Proof.
  intros (_ & N & _). destruct item; [now elim N | reflexivity].
Qed.

Lemma Forall_storable_snoc (items : list string) (x : string) :
  Forall storable items -> storable x -> Forall storable (items ++ [x]).
Proof. intros F H. apply Forall_app. split; [assumption | now constructor]. Qed.

(** The entries after [addItem], for a storable item. *)
Lemma addItem_entries (text item : string) (dup : bool) :
  storable (trim item) ->
  exists r,
    addItem (VString text) (VString item) (VBool dup) = Normal (VString r) /\
    entries r = if negb dup && mem (trim item) (entries text)
                then entries text
                else entries text ++ [trim item].
Proof.
  intros H. rewrite addItem_string, (storable_not_empty item H).
  eexists. split; [reflexivity|].
  destruct (negb dup && mem (trim item) (entries text)); [reflexivity|].
  apply entries_serialize, Forall_storable_snoc; [apply entries_storable | exact H].
Qed.

(** X3.  [contains] decides whether the trimmed item is an entry, and
    it follows the two mutators: after [removeItem] the item is not
    contained, after [addItem] of a storable item it is. *)
Theorem contains_follows_mutators (text item : string) :
  (contains (VString text) (VString item) = Normal true
   <-> In (trim item) (entries text)) /\
  (exists r,
      removeItem (VString text) (VString item) = Normal (VString r) /\
      contains (VString r) (VString item) = Normal false) /\
  (storable (trim item) ->
   forall dup : bool,
   exists r,
     addItem (VString text) (VString item) (VBool dup) = Normal (VString r) /\
     contains (VString r) (VString item) = Normal true).
Proof.
  split; [|split].
  - rewrite contains_string, <- mem_In. split; [now intros [= ->] | now intros ->].
  - rewrite removeItem_string. eexists. split; [reflexivity|].
    rewrite contains_string. f_equal. apply mem_not_In.
    erewrite removeItem_entries by apply removeItem_string.
    rewrite filter_In. intros [_ H]. now rewrite String.eqb_refl in H.
  - intros H dup. destruct (addItem_entries text item dup H) as (r & Hr & He).
    exists r. split; [exact Hr|]. rewrite contains_string, He. f_equal.
    apply mem_In.
    destruct (negb dup && mem (trim item) (entries text)) eqn:E.
    + apply andb_true_iff in E as [_ E]. now apply mem_In.
    + apply in_or_app. right. now left.
Qed.

Lemma contains_follows_mutators_witness :
  exists r,
    addItem (VString "A|B") (VString " C ") (VBool false) = Normal (VString r) /\
    contains (VString r) (VString "C") = Normal true.
Proof.
  destruct (contains_follows_mutators "A|B" " C ") as (_ & _ & H).
  destruct (H ltac:(vm_compute; repeat split; discriminate) false) as (r & H1 & H2).
  exists r. split; [exact H1|].
  destruct (contains_follows_mutators r "C") as (H3 & _).
  destruct (contains_follows_mutators r " C ") as (H4 & _).
  apply H3. change (trim "C") with (trim " C "). now apply H4.
Defined.

(** ** [getCount] *)

Lemma getCount_string (text : string) :
  getCount (VString text) = Normal (List.length (entries text)).
Proof. destruct text; reflexivity. Qed.

Lemma updateItem_entries (text oldItem newItem : string) :
  oldItem <> EmptyString -> storable (trim newItem) ->
  exists r,
    updateItem (VString text) (VString oldItem) (VString newItem)
      = Normal (VString r) /\
    entries r = List.map (fun item => if String.eqb item (trim oldItem)
                                      then trim newItem else item)
                  (entries text).
Proof.
  intros Ho Hn. rewrite updateItem_string.
  apply isEmpty_false in Ho. rewrite Ho, (storable_not_empty _ Hn), !orb_false_r.
  eexists. split; [reflexivity|].
  destruct (isEmpty text) eqn:Et.
  - apply isEmpty_true in Et. now subst.
  - apply entries_serialize, Forall_map_replace; [exact Hn | apply entries_storable].
Qed.

Lemma filter_split_length {A} (f : A -> bool) (l : list A) :
  List.length (filter f l) + List.length (filter (fun x => negb (f x)) l)
  = List.length l.
Proof.
  induction l as [|x r IH]; [reflexivity|].
  simpl. destruct (f x); simpl; lia.
Qed.

(** X4.  How the count of entries moves: [addItem] of a storable item
    adds one unless the item is a suppressed duplicate, [removeItem]
    takes away as many as there are entries equal to the trimmed item,
    and [updateItem] to a storable item keeps the count. *)
Theorem getCount_after_mutators (text item other : string) :
  exists n,
    getCount (VString text) = Normal n /\
    (exists r,
        removeItem (VString text) (VString item) = Normal (VString r) /\
        getCount (VString r)
        = Normal (n - occurrences (trim item) (entries text))) /\
    (storable (trim item) ->
     (forall dup : bool,
         exists r,
           addItem (VString text) (VString item) (VBool dup) = Normal (VString r) /\
           getCount (VString r)
           = Normal (if negb dup && mem (trim item) (entries text)
                     then n else S n)) /\
     (other <> EmptyString ->
      exists r,
        updateItem (VString text) (VString other) (VString item)
          = Normal (VString r) /\
        getCount (VString r) = Normal n)).
Proof.
  exists (List.length (entries text)).
  split; [apply getCount_string|]. split.
  - rewrite removeItem_string. eexists. split; [reflexivity|].
    rewrite getCount_string. f_equal.
    erewrite removeItem_entries by apply removeItem_string.
    unfold occurrences.
    pose proof (filter_split_length (String.eqb (trim item)) (entries text)) as H.
    rewrite (filter_ext (fun x => negb (String.eqb x (trim item)))
               (fun x => negb (String.eqb (trim item) x))
               (fun x => f_equal negb (String.eqb_sym x (trim item)))).
    lia.
  - intros H. split.
    + intros dup. destruct (addItem_entries text item dup H) as (r & Hr & He).
      exists r. split; [exact Hr|]. rewrite getCount_string, He. f_equal.
      destruct (negb dup && mem (trim item) (entries text)); [reflexivity|].
      rewrite length_app. simpl. lia.
    + intros Ho. destruct (updateItem_entries text other item Ho H) as (r & Hr & He).
      exists r. split; [exact Hr|]. rewrite getCount_string, He.
      now rewrite length_map.
Qed.

Lemma getCount_after_mutators_witness :
  exists r,
    addItem (VString "A|B") (VString "C") (VBool true) = Normal (VString r) /\
    getCount (VString r) = Normal 3.
Proof.
  destruct (getCount_after_mutators "A|B" "C" "A") as (n & Hn & _ & H).
  vm_compute in Hn. injection Hn as <-.
  destruct H as [H _]; [vm_compute; repeat split; discriminate|].
  exact (H true).
Defined.

(** ** [merge] *)

Lemma allEntries_storable (l : list value) : Forall storable (allEntries l).
Proof.
  induction l as [|v r IH]; [constructor|].
  unfold allEntries. cbn [flat_map]. apply Forall_app. split; [|exact IH].
  destruct v; try constructor. apply entries_storable.
Qed.

Lemma allEntries_app (l m : list value) :
  allEntries (l ++ m) = allEntries l ++ allEntries m.
Proof. unfold allEntries. apply flat_map_app. Qed.

Lemma mergeEach_allEntries (l : list value) (acc : list string) :
  mergeEach l acc = Normal (acc ++ allEntries l).
Proof.
  revert acc. induction l as [|v r IH]; intros acc.
  - simpl. now rewrite app_nil_r.
  - cbn [mergeEach]. unfold allEntries. cbn [flat_map]. fold (allEntries r).
    destruct v; cbn [truthy isString andb]; rewrite ?andb_false_r;
      try (rewrite IH; reflexivity).
    destruct (isEmpty s) eqn:E.
    + apply isEmpty_true in E. subst. cbn [negb andb]. now rewrite IH.
    + cbn [negb andb]. rewrite parse_string. cbn [bind].
      now rewrite IH, app_assoc.
Qed.

Lemma unique_storable (l : list string) :
  Forall storable l -> Forall storable (unique l).
Proof.
  rewrite !Forall_forall. intros F x Hx. apply F. now apply unique_In.
Qed.

Lemma merge_array (l : list value) (removeDuplicates : bool) :
  merge (VArray l) (VBool removeDuplicates)
  = Normal (serialize (if removeDuplicates then unique (allEntries l)
                       else allEntries l)).
Proof.
  unfold merge. cbn [defaultTo]. rewrite mergeEach_allEntries. cbn [bind app truthy].
  rewrite stringify_strings. reflexivity.
Qed.

(** X5.  [merge] reads back as the entries of the string elements, in
    order of appearance; with duplicate removal (the default) each
    value is kept once, at its first position: the result has no
    repeated entry and exactly the values of the inputs.  Elements
    that are not strings are skipped. *)
Theorem merge_entries (l : list value) :
  (exists text,
      merge (VArray l) VUndefined = Normal text /\
      parse (VString text) VUndefined = Normal (unique (allEntries l)) /\
      NoDup (entries text) /\
      (forall x, In x (entries text) <->
                 exists source, In (VString source) l /\ In x (entries source))) /\
  (exists text,
      merge (VArray l) (VBool false) = Normal text /\
      parse (VString text) VUndefined = Normal (allEntries l)).
Proof.
  pose proof (allEntries_storable l) as F.
  split.
  - exists (serialize (unique (allEntries l))).
    assert (E : entries (serialize (unique (allEntries l))) = unique (allEntries l))
      by now apply entries_serialize, unique_storable.
    split; [exact (merge_array l true)|].
    split; [rewrite parse_string; now f_equal|].
    rewrite E. split; [apply unique_NoDup|].
    intros x. rewrite unique_In. unfold allEntries. rewrite in_flat_map. split.
    + intros (v & Hv & Hx). destruct v; try now elim Hx. now exists s.
    + intros (source & Hs & Hx). now exists (VString source).
  - exists (serialize (allEntries l)).
    split; [exact (merge_array l false)|].
    rewrite parse_string. f_equal. now apply entries_serialize.
Qed.

Lemma filter_both {A} (f g : A -> bool) (l : list A) :
  filter f (filter g l) = filter (fun x => g x && f x) l.
Proof.
  induction l as [|x r IH]; [reflexivity|].
  cbn [filter]. destruct (g x); cbn [filter andb]; rewrite IH; reflexivity.
Qed.

Lemma filter_filter_comm {A} (f g : A -> bool) (l : list A) :
  filter f (filter g l) = filter g (filter f l).
Proof.
  rewrite !filter_both. apply filter_ext. intros x. apply andb_comm.
Qed.

Lemma filter_idem {A} (f : A -> bool) (l : list A) :
  filter f (filter f l) = filter f l.
Proof.
  rewrite filter_both. apply filter_ext. intros x. now destruct (f x).
Qed.

Lemma unique_filter (f : string -> bool) (l : list string) :
  unique (filter f l) = filter f (unique l).
Proof.
  induction l as [|x r IH]; [reflexivity|].
  cbn [filter unique]. destruct (f x) eqn:E.
  - cbn [unique]. rewrite IH. f_equal. apply filter_filter_comm.
  - rewrite IH, filter_both. apply filter_ext. intros y.
    destruct (String.eqb_spec y x) as [->|N]; [now rewrite E | reflexivity].
Qed.

Lemma unique_idem (l : list string) : unique (unique l) = unique l.
Proof. apply unique_fix, unique_NoDup. Qed.

(** Duplicate removal of a concatenation whose first part has been
    deduplicated already. *)
Lemma unique_app_unique (l m : list string) :
  unique (unique l ++ m) = unique (l ++ m).
Proof.
  induction l as [|x r IH]; [reflexivity|].
  cbn [unique app]. rewrite <- IH.
  set (d := fun y : string => negb (y =? x)%string).
  f_equal.
  rewrite <- (unique_filter d (filter d (unique r) ++ m)).
  rewrite <- (unique_filter d (unique r ++ m)).
  now rewrite !filter_app, filter_idem.
Qed.

(** X6.  Merging can be done in stages: a merged text used as the first
    element of a later merge gives the same result as merging all the
    elements at once. *)
Theorem merge_in_stages (first rest : list value) :
  exists text,
    merge (VArray first) VUndefined = Normal text /\
    merge (VArray (VString text :: rest)) VUndefined
    = merge (VArray (first ++ rest)) VUndefined.
Proof.
  exists (serialize (unique (allEntries first))).
  split; [exact (merge_array first true)|].
  change (merge (VArray (VString (serialize (unique (allEntries first))) :: rest))
            VUndefined)
    with (merge (VArray (VString (serialize (unique (allEntries first))) :: rest))
            (VBool true)).
  change (merge (VArray (first ++ rest)) VUndefined)
    with (merge (VArray (first ++ rest)) (VBool true)).
  rewrite !merge_array. do 2 f_equal.
  rewrite allEntries_app. unfold allEntries at 1. cbn [flat_map].
  fold (allEntries rest).
  rewrite entries_serialize
    by (apply unique_storable, allEntries_storable).
  apply unique_app_unique.
Qed.

(** ** [addItem] composed with itself and with [removeItem] *)

(** X29.  Adding without duplicates is idempotent for a storable
    item: a second [addItem] of the same item returns the text as the
    first one left it. *)
Theorem addItem_idempotent (text item : string) :
  storable (trim item) ->
  exists r,
    addItem (VString text) (VString item) (VBool false) = Normal (VString r) /\
    addItem (VString r) (VString item) (VBool false) = Normal (VString r).
Proof.
  intros H. destruct (addItem_entries text item false H) as (r & Hr & He).
  exists r. split; [exact Hr|].
  rewrite addItem_string, (storable_not_empty item H).
  assert (M : mem (trim item) (entries r) = true).
  { apply mem_In. rewrite He.
    destruct (negb false && mem (trim item) (entries text)) eqn:E.
    - now apply mem_In.
    - apply in_or_app. right. now left. }
  now rewrite M.
Qed.

Lemma addItem_idempotent_witness :
  exists r,
    addItem (VString "A|B") (VString " C ") (VBool false) = Normal (VString r) /\
    addItem (VString r) (VString " C ") (VBool false) = Normal (VString r).
Proof.
  apply (addItem_idempotent "A|B" " C ").
  vm_compute. repeat split; discriminate.
Defined.

(** X30.  Removing an item that has just been added restores the
    entries: when the trimmed item is storable and was no entry before,
    [removeItem] after [addItem] reads back as the original entries. *)
Theorem addItem_then_removeItem (text item : string) (dup : bool) :
  storable (trim item) -> ~ In (trim item) (entries text) ->
  exists added removed,
    addItem (VString text) (VString item) (VBool dup) = Normal (VString added) /\
    removeItem (VString added) (VString item) = Normal (VString removed) /\
    parse (VString removed) VUndefined = parse (VString text) VUndefined.
Proof.
  intros H Hout. destruct (addItem_entries text item dup H) as (r & Hr & He).
  rewrite (proj2 (mem_not_In _ _) Hout), andb_false_r in He.
  exists r. eexists. split; [exact Hr|]. split; [apply removeItem_string|].
  rewrite !parse_string. f_equal.
  erewrite removeItem_entries by apply removeItem_string.
  rewrite He, filter_app. cbn [List.filter]. rewrite String.eqb_refl. cbn [negb].
  rewrite app_nil_r. now apply filter_differs_absent.
Qed.

Lemma addItem_then_removeItem_witness :
  exists added removed,
    addItem (VString "A| B") (VString "C") (VBool true) = Normal (VString added) /\
    removeItem (VString added) (VString "C") = Normal (VString removed) /\
    parse (VString removed) VUndefined = Normal ["A"; "B"].
Proof.
  apply (addItem_then_removeItem "A| B" "C" true).
  - vm_compute. repeat split; discriminate.
  - vm_compute. intros [H|[H|[]]]; discriminate.
Defined.

End PipeExtras.

(* ================================================================== *)
(** * Validation and cleaning *)
(* ================================================================== *)

Section CleanExtras.

Import PipeDelimitedHelpers.

(** ** Counting distinct items *)

Lemma filter_length_full {A} (f : A -> bool) (l : list A) :
  List.length (filter f l) = List.length l -> filter f l = l.
Proof.
  induction l as [|x r IH]; [reflexivity|].
  cbn [filter]. pose proof (filter_length_le f r) as L.
  destruct (f x); cbn [List.length]; intros H.
  - f_equal. apply IH. lia.
  - lia.
Qed.

Lemma unique_length_le (l : list string) :
  List.length (unique l) <= List.length l.
Proof.
  induction l as [|x r IH]; [reflexivity|].
  cbn [unique List.length].
  pose proof (filter_length_le (fun y => negb (y =? x)%string) (unique r)). lia.
Qed.

Lemma unique_length_NoDup (l : list string) :
  List.length (unique l) = List.length l <-> NoDup l.
Proof.
  split; [|intros H; now rewrite unique_fix].
  induction l as [|x r IH]; [constructor|].
  cbn [unique List.length]. intros H.
  pose proof (filter_length_le (fun y => negb (y =? x)%string) (unique r)) as L.
  pose proof (unique_length_le r) as U.
  assert (Hr : NoDup r) by (apply IH; lia).
  constructor; [|exact Hr].
  intros Hx. apply unique_In in Hx.
  assert (F : filter (fun y => negb (y =? x)%string) (unique r) = unique r)
    by (apply filter_length_full; lia).
  rewrite <- F in Hx. apply filter_In in Hx as [_ Hx].
  now rewrite String.eqb_refl in Hx.
Qed.

Lemma filter_none_length {A} (f : A -> bool) (l : list A) :
  (0 <? List.length (filter f l)) = false <-> Forall (fun x => f x = false) l.
Proof.
  rewrite Nat.ltb_ge. induction l as [|x r IH]; cbn [filter].
  - split; [constructor | reflexivity].
  - destruct (f x) eqn:E; cbn [List.length]; split; intros H.
    + lia.
    + inversion H; congruence.
    + constructor; [exact E | now apply IH].
    + inversion H; now apply IH.
Qed.

(** ** [validate] *)

(** X7.  A text is valid exactly when no entry is repeated and no
    entry holds a line feed, a carriage return or a tab; the report
    counts the entries and the distinct entries. *)
Theorem validate_valid_iff (text : string) :
  exists r,
    validate (VString text) = Normal r /\
    itemCount r = List.length (entries text) /\
    (text <> EmptyString ->
     uniqueItemCount r = Some (List.length (unique (entries text)))) /\
    (valid r = true <->
     NoDup (entries text) /\
     Forall (fun item => problematic item = false) (entries text)).
Proof.
  destruct text as [|c t].
  - eexists. split; [reflexivity|].
    repeat split; try constructor. now intros [].
  - unfold validate. rewrite truthy_string.
    cbn [isEmpty negb isString]. rewrite parse_string.
    cbn [bind try_catch]. rewrite no_blank_entry.
    eexists. split; [reflexivity|]. cbn [valid itemCount uniqueItemCount].
    split; [reflexivity|]. split; [reflexivity|].
    rewrite <- unique_length_NoDup, <- filter_none_length.
    change (0 <? List.length (@nil string)) with false. cbn [pushIf].
    set (items := entries (String c t)).
    destruct (List.length (unique items) =? List.length items) eqn:E1;
      [apply Nat.eqb_eq in E1 | apply Nat.eqb_neq in E1];
      destruct (0 <? List.length (filter problematic items)) eqn:E2;
      cbn [negb pushIf app List.length Nat.eqb]; split; intros H;
      try discriminate; try (destruct H; congruence); try (now split).
Qed.

Lemma validate_valid_iff_witness :
  exists r,
    validate (VString "A|B|A") = Normal r /\
    uniqueItemCount r = Some 2.
Proof.
  destruct (validate_valid_iff "A|B|A") as (r & H & _ & U & _).
  exists r. split; [exact H|]. apply U. discriminate.
Defined.

(** ** Characters of a tidied item *)

Lemma break_is_space (c : ascii) :
  (Ascii.eqb c LF || Ascii.eqb c CR || Ascii.eqb c TAB) = true ->
  isWhiteSpace c = true /\ Ascii.eqb c " " = false.
Proof. destruct c as [[] [] [] [] [] [] [] []]; vm_compute; intuition congruence. Qed.

Lemma singleSpaced_tail (c : ascii) (r : string) :
  singleSpaced (String c r) = true -> singleSpaced r = true.
Proof. cbn [singleSpaced]. intros H. now apply andb_true_iff in H. Qed.

Lemma singleSpaced_excludes (s : string) (c : ascii) :
  singleSpaced s = true -> isWhiteSpace c = true -> Ascii.eqb c " " = false ->
  includesChar s c = false.
Proof.
  intros H W N. induction s as [|d r IH]; [reflexivity|].
  cbn [includesChar]. rewrite (IH (singleSpaced_tail _ _ H)), orb_false_r.
  cbn [singleSpaced] in H. apply andb_true_iff in H as [H _].
  destruct (Ascii.eqb_spec d c) as [->|_]; [|reflexivity].
  rewrite W, N in H. discriminate.
Qed.

Lemma singleSpaced_no_breaks (s : string) :
  singleSpaced s = true -> problematic s = false.
Proof.
  intros H. unfold problematic.
  rewrite !(singleSpaced_excludes s _ H); reflexivity.
Qed.

Lemma collapseSpaces_head (s : string) :
  match collapseSpaces s with
  | String d _ => match s with
                  | String c _ => isWhiteSpace d = isWhiteSpace c
                  | EmptyString => False
                  end
  | EmptyString => s = EmptyString
  end.
Proof.
  induction s as [|c r IH]; [reflexivity|].
  cbn [collapseSpaces]. destruct (isWhiteSpace c) eqn:W; [|exact W].
  destruct r as [|d r']; [reflexivity|].
  destruct (isWhiteSpace d) eqn:Wd; [|reflexivity].
  destruct (collapseSpaces (String d r')); [discriminate | congruence].
Qed.

Lemma collapseSpaces_singleSpaced (s : string) :
  singleSpaced (collapseSpaces s) = true.
Proof.
  induction s as [|c r IH]; [reflexivity|].
  cbn [collapseSpaces]. destruct (isWhiteSpace c) eqn:W.
  - destruct r as [|d r']; [reflexivity|].
    destruct (isWhiteSpace d) eqn:Wd; [exact IH|].
    cbn [singleSpaced]. rewrite IH.
    pose proof (collapseSpaces_head (String d r')) as Hd.
    destruct (collapseSpaces (String d r')) as [|e u]; [reflexivity|].
    rewrite Hd, Wd. reflexivity.
  - cbn [singleSpaced]. now rewrite W, IH.
Qed.

Lemma singleSpaced_trimStart (s : string) :
  singleSpaced s = true -> singleSpaced (trimStart s) = true.
Proof.
  induction s as [|c r IH]; [reflexivity|].
  intros H. cbn [trimStart]. destruct (isWhiteSpace c); [|exact H].
  apply IH, (singleSpaced_tail _ _ H).
Qed.

Lemma trimEnd_head (s : string) (d : ascii) (u : string) :
  trimEnd s = String d u -> exists r, s = String d r.
Proof.
  destruct s as [|c r]; [discriminate|].
  rewrite trimEnd_cons. destruct (trimEnd r).
  - destruct (isWhiteSpace c); [discriminate|]. intros [= -> _]. now exists r.
  - intros [= -> _]. now exists r.
Qed.

Lemma singleSpaced_trimEnd (s : string) :
  singleSpaced s = true -> singleSpaced (trimEnd s) = true.
Proof.
  induction s as [|c r IH]; [reflexivity|].
  intros H. specialize (IH (singleSpaced_tail _ _ H)).
  rewrite trimEnd_cons.
  destruct (trimEnd r) as [|d u] eqn:E.
  - destruct (isWhiteSpace c) eqn:W; [reflexivity|].
    cbn [singleSpaced]. now rewrite W.
  - destruct (trimEnd_head _ _ _ E) as (r' & ->).
    cbn [singleSpaced] in H |- *. apply andb_true_iff in H as [H _].
    apply andb_true_iff. split; [exact H | exact IH].
Qed.

Lemma singleSpaced_trim (s : string) :
  singleSpaced s = true -> singleSpaced (trim s) = true.
Proof. intros H. now apply singleSpaced_trimEnd, singleSpaced_trimStart. Qed.

Lemma tidy_singleSpaced (item : string) : singleSpaced (tidy item) = true.
Proof. apply singleSpaced_trim, collapseSpaces_singleSpaced. Qed.

Lemma singleSpaced_replaceBreaks (s : string) :
  singleSpaced s = true -> replaceBreaks s = s.
Proof.
  induction s as [|c r IH]; [reflexivity|].
  intros H. cbn [replaceBreaks]. rewrite (IH (singleSpaced_tail _ _ H)).
  destruct (Ascii.eqb c LF || Ascii.eqb c CR || Ascii.eqb c TAB) eqn:B;
    [|reflexivity].
  destruct (break_is_space _ B) as [W N].
  cbn [singleSpaced] in H. rewrite W, N in H. discriminate.
Qed.

Lemma singleSpaced_collapseSpaces (s : string) :
  singleSpaced s = true -> collapseSpaces s = s.
Proof.
  induction s as [|c r IH]; [reflexivity|].
  intros H. specialize (IH (singleSpaced_tail _ _ H)).
  cbn [collapseSpaces]. cbn [singleSpaced] in H.
  apply andb_true_iff in H as [H _].
  destruct (isWhiteSpace c) eqn:W; [|now rewrite IH].
  apply andb_true_iff in H as [Hc Hd]. apply Ascii.eqb_eq in Hc. subst c.
  destruct r as [|d r']; [reflexivity|].
  apply negb_true_iff in Hd. rewrite Hd. now rewrite IH.
Qed.

Lemma tidy_idem (item : string) : tidy (tidy item) = tidy item.
Proof.
  pose proof (tidy_singleSpaced item) as H.
  unfold tidy at 1.
  rewrite (singleSpaced_replaceBreaks _ H), (singleSpaced_collapseSpaces _ H).
  unfold tidy. apply trim_idem.
Qed.

Lemma includesChar_replaceBreaks (s : string) (c : ascii) :
  Ascii.eqb " " c = false -> includesChar s c = false ->
  includesChar (replaceBreaks s) c = false.
Proof.
  intros N. induction s as [|d r IH]; [reflexivity|].
  cbn [includesChar replaceBreaks]. intros H.
  apply orb_false_iff in H as [H1 H2]. rewrite (IH H2), orb_false_r.
  now destruct (Ascii.eqb d LF || Ascii.eqb d CR || Ascii.eqb d TAB).
Qed.

Lemma includesChar_collapseSpaces (s : string) (c : ascii) :
  Ascii.eqb " " c = false -> includesChar s c = false ->
  includesChar (collapseSpaces s) c = false.
Proof.
  intros N. induction s as [|d r IH]; [reflexivity|].
  intros H. cbn [includesChar] in H. apply orb_false_iff in H as [H1 H2].
  specialize (IH H2). cbn [collapseSpaces].
  destruct (isWhiteSpace d).
  - destruct r as [|e r']; [cbn [includesChar]; now rewrite N|].
    destruct (isWhiteSpace e); [exact IH|].
    cbn [includesChar] in *. now rewrite N, IH.
  - cbn [includesChar]. now rewrite H1, IH.
Qed.

Lemma storable_startsClean (item : string) : storable item -> startsClean item.
Proof.
  intros (T & _ & _). rewrite <- T. unfold trim.
  apply trimEnd_startsClean, trimStart_startsClean.
Qed.

Lemma tidy_head (c : ascii) (r : string) :
  isWhiteSpace c = false -> exists u, tidy (String c r) = String c u.
Proof.
  intros W. unfold tidy. cbn [replaceBreaks].
  destruct (Ascii.eqb c LF || Ascii.eqb c CR || Ascii.eqb c TAB) eqn:B.
  - destruct (break_is_space _ B) as [W' _]. congruence.
  - cbn [collapseSpaces]. rewrite W. unfold trim. cbn [trimStart]. rewrite W.
    rewrite trimEnd_cons. destruct (trimEnd _); [rewrite W|]; eauto.
Qed.

(** A storable item stays storable when it is tidied. *)
Lemma tidy_storable (item : string) : storable item -> storable (tidy item).
Proof.
  intros H. pose proof (storable_startsClean _ H) as S.
  destruct H as (_ & N & P). split; [|split].
  - unfold tidy. apply trim_idem.
  - destruct item as [|c r]; [now elim N|].
    destruct (tidy_head c r S) as (u & ->). discriminate.
  - unfold tidy.
    apply includesChar_trim, includesChar_collapseSpaces,
      includesChar_replaceBreaks; [reflexivity | reflexivity | exact P].
Qed.

(** ** [clean] *)

Lemma filter_not_blank (text : string) :
  filter (fun item => 0 <? String.length (trim item)) (entries text)
  = entries text.
Proof.
  pose proof (entries_storable text) as F.
  induction F as [|x l (T & N & _) _ IH]; [reflexivity|].
  cbn [filter]. rewrite T, IH. now destruct x.
Qed.

Lemma clean_string (text : string) :
  clean (VString text) VUndefined
  = Normal (VString (serialize (unique (List.map tidy (entries text))))).
Proof.
  unfold clean. rewrite truthy_string.
  destruct text as [|c t]; [reflexivity|].
  cbn [isEmpty negb defaultTo].
  change (opt (VObject []) "trimItems") with (VBool true).
  change (opt (VObject []) "removeEmpty") with (VBool true).
  change (opt (VObject []) "removeLineBreaks") with (VBool true).
  change (opt (VObject []) "removeDuplicates") with (VBool true).
  change (parse (VString (String c t)) (VBool true))
    with (parse (VString (String c t)) VUndefined).
  rewrite parse_string. cbn [bind truthy]. rewrite filter_not_blank.
  fold tidy. rewrite stringify_strings. reflexivity.
Qed.

Lemma cleaned_storable (items : list string) :
  Forall storable items -> Forall storable (unique (List.map tidy items)).
Proof.
  intros F. apply unique_storable. rewrite Forall_forall in *.
  intros x Hx. apply in_map_iff in Hx as (y & <- & Hy). apply tidy_storable, F, Hy.
Qed.

Lemma cleaned_entries (text : string) :
  entries (serialize (unique (List.map tidy (entries text))))
  = unique (List.map tidy (entries text)).
Proof. apply entries_serialize, cleaned_storable, entries_storable. Qed.

Lemma clean_default_not_string (data : value) :
  isString data = false ->
  clean data VUndefined = Normal (VString "").
Proof.
  intros H. unfold clean.
  destruct (truthy data) eqn:T; [|reflexivity].
  cbn [negb]. now rewrite (parse_not_string data H).
Qed.

(** X8.  Whatever [clean] returns, with its default options, passes
    [validate]: for every input value the result is a text that is
    reported valid, with no issue. *)
Theorem clean_then_validate (data : value) :
  exists cleaned r,
    clean data VUndefined = Normal (VString cleaned) /\
    validate (VString cleaned) = Normal r /\
    valid r = true /\ issues r = [].
Proof.
  assert (V : forall cleaned,
             NoDup (entries cleaned) ->
             Forall (fun item => problematic item = false) (entries cleaned) ->
             exists r, validate (VString cleaned) = Normal r /\
                       valid r = true /\ issues r = []).
  { intros cleaned H1 H2.
    destruct (validate_valid_iff cleaned) as (r & Hr & _ & _ & Hv).
    destruct (validate_flag (VString cleaned)) as (r' & Hr' & Hi).
    assert (r' = r) by congruence. subst r'.
    exists r. split; [exact Hr|].
    assert (valid r = true) by (apply Hv; now split).
    split; [assumption | now apply Hi]. }
  destruct data as [| | b | n | text | l | fields].
  5: {
    exists (serialize (unique (List.map tidy (entries text)))).
    destruct (V (serialize (unique (List.map tidy (entries text))))) as (r & Hr).
    - rewrite cleaned_entries. apply unique_NoDup.
    - rewrite cleaned_entries. apply Forall_forall. intros x Hx.
      apply unique_In, in_map_iff in Hx as (y & <- & _).
      apply singleSpaced_no_breaks, tidy_singleSpaced.
    - exists r. split; [apply clean_string | exact Hr]. }
  all: exists EmptyString;
    destruct (V EmptyString) as (r & Hr); try constructor;
    exists r; (split; [apply clean_default_not_string; reflexivity | exact Hr]).
Qed.

Lemma map_tidy_fix (items : list string) :
  List.map tidy (unique (List.map tidy items)) = unique (List.map tidy items).
Proof.
  assert (H : forall l, Forall (fun x => tidy x = x) l -> List.map tidy l = l).
  { induction 1 as [|x l Hx _ IH]; [reflexivity|]. cbn [List.map]. now rewrite Hx, IH. }
  apply H, Forall_forall. intros x Hx.
  apply unique_In, in_map_iff in Hx as (y & <- & _). apply tidy_idem.
Qed.

(** X9.  Cleaning is idempotent: cleaning a cleaned text gives the
    same text, for every input value. *)
Theorem clean_idempotent (data : value) :
  exists cleaned,
    clean data VUndefined = Normal (VString cleaned) /\
    clean (VString cleaned) VUndefined = Normal (VString cleaned).
Proof.
  destruct data as [| | b | n | text | l | fields].
  5: {
    exists (serialize (unique (List.map tidy (entries text)))).
    split; [apply clean_string|].
    rewrite clean_string, cleaned_entries, map_tidy_fix, unique_idem.
    reflexivity. }
  all: exists EmptyString;
    (split; [apply clean_default_not_string; reflexivity | reflexivity]).
Qed.

(** X10.  What [clean] does to the entries: each is tidied (line
    breaks and tabs become spaces, runs of white space one space, ends
    trimmed) and repeated results are dropped; every resulting entry
    is single-spaced, and the count never grows. *)
Theorem clean_entries (text : string) :
  exists cleaned,
    clean (VString text) VUndefined = Normal (VString cleaned) /\
    parse (VString cleaned) VUndefined
    = Normal (unique (List.map tidy (entries text))) /\
    Forall (fun item => singleSpaced item = true) (entries cleaned) /\
    List.length (entries cleaned) <= List.length (entries text).
Proof.
  exists (serialize (unique (List.map tidy (entries text)))).
  split; [apply clean_string|]. rewrite parse_string, cleaned_entries.
  split; [reflexivity|]. split.
  - apply Forall_forall. intros x Hx.
    apply unique_In, in_map_iff in Hx as (y & <- & _). apply tidy_singleSpaced.
  - rewrite <- (length_map tidy (entries text)). apply unique_length_le.
Qed.

End CleanExtras.

(* ================================================================== *)
(** * Reordering, replacing and the callback methods *)
(* ================================================================== *)

Section OrderExtras.

Import PipeDelimitedHelpers.

Lemma filter_all {A} (f : A -> bool) (l : list A) :
  (forall x, In x l -> f x = true) -> filter f l = l.
Proof.
  induction l as [|x r IH]; [reflexivity|].
  intros H. cbn [filter]. rewrite (H x (or_introl eq_refl)). f_equal.
  apply IH. intros y Hy. apply H. now right.
Qed.

Lemma filter_nothing {A} (f : A -> bool) (l : list A) :
  (forall x, In x l -> f x = false) -> filter f l = [].
Proof.
  induction l as [|x r IH]; [reflexivity|].
  intros H. cbn [filter]. rewrite (H x (or_introl eq_refl)).
  apply IH. intros y Hy. apply H. now right.
Qed.

Lemma stringsOf_strings (order : list string) :
  stringsOf (List.map VString order) = order.
Proof. induction order as [|x r IH]; [reflexivity|]. cbn. now rewrite IH. Qed.

Lemma reordered_exact (cur order : list string) :
  (forall x, In x order <-> In x cur) ->
  reordered cur (List.map VString order) = order.
Proof.
  intros H. unfold reordered. rewrite stringsOf_strings.
  rewrite filter_all, filter_nothing; [apply app_nil_r | |].
  - intros x Hx. apply negb_false_iff, mem_In, H, Hx.
  - intros x Hx. apply mem_In, H, Hx.
Qed.

(** X11.  When the new order names exactly the current entries,
    [reorderItems] stores them exactly in the order given: the result
    reads back as the new order. *)
Theorem reorderItems_exact_order (text : string) (order : list string) :
  (forall x, In x order <-> In x (entries text)) ->
  exists r,
    reorderItems (VString text) (strings order) = Normal (VString r) /\
    parse (VString r) VUndefined = Normal order.
Proof.
  intros H. unfold strings. rewrite reorderItems_string.
  eexists. split; [reflexivity|]. rewrite parse_string. f_equal.
  assert (E : reordered (entries text) (List.map VString order) = order)
    by now apply reordered_exact.
  destruct (isEmpty text) eqn:Et.
  - apply isEmpty_true in Et. subst text.
    destruct order as [|x r]; [reflexivity|].
    now elim (proj1 (H x) (or_introl eq_refl)).
  - rewrite E. apply entries_serialize.
    apply Forall_forall. intros x Hx. apply H in Hx.
    pose proof (entries_storable text) as F. rewrite Forall_forall in F. auto.
Qed.

Lemma reorderItems_exact_order_witness :
  exists r,
    reorderItems (VString "A| B |C") (strings ["C"; "A"; "B"])
    = Normal (VString r) /\
    parse (VString r) VUndefined = Normal ["C"; "A"; "B"].
Proof.
  apply (reorderItems_exact_order "A| B |C" ["C"; "A"; "B"]).
  intros x. vm_compute. tauto.
Defined.

Lemma reordered_twice (cur : list string) (newOrder : list value) :
  reordered (reordered cur newOrder) newOrder = reordered cur newOrder.
Proof.
  unfold reordered at 1.
  rewrite (filter_ext (fun s => mem s (reordered cur newOrder))
             (fun s => mem s cur)).
  2: { intros s. destruct (mem s cur) eqn:M.
       - apply mem_In, reordered_In, mem_In, M.
       - apply mem_not_In. rewrite reordered_In. now apply mem_not_In. }
  unfold reordered. f_equal. rewrite filter_app, filter_idem.
  rewrite filter_nothing; [reflexivity|].
  intros x Hx. apply filter_In in Hx as [Hx _].
  apply negb_false_iff, mem_In, Hx.
Qed.

(** X12.  Reordering is idempotent: applying the same new order to the
    result changes nothing, for every text and every array. *)
Theorem reorderItems_idempotent (text : string) (newOrder : list value) :
  exists r,
    reorderItems (VString text) (VArray newOrder) = Normal (VString r) /\
    reorderItems (VString r) (VArray newOrder) = Normal (VString r).
Proof.
  rewrite reorderItems_string. eexists. split; [reflexivity|].
  rewrite reorderItems_string. do 2 f_equal.
  destruct (isEmpty text) eqn:Et; [now rewrite Et|].
  destruct (isEmpty (serialize (reordered (entries text) newOrder))) eqn:Er;
    [reflexivity|].
  rewrite entries_serialize
    by (apply reordered_storable, entries_storable).
  now rewrite reordered_twice.
Qed.

(** ** [updateItem] *)

Lemma map_replace_absent (old new : string) (items : list string) :
  ~ In old items ->
  List.map (fun item => if String.eqb item old then new else item) items = items.
Proof.
  induction items as [|x r IH]; [reflexivity|].
  intros H. cbn [List.map].
  destruct (String.eqb_spec x old) as [->|_]; [elim H; now left|].
  f_equal. apply IH. intros Hr. apply H. now right.
Qed.

(** X13.  [updateItem] with an old item that is not an entry changes no
    entry; and when the old and the new item differ after trimming, the
    old item is no entry of the result, while the new item is one exactly
    when the old or the new item was an entry before. *)
Theorem updateItem_replaces (text oldItem newItem : string) :
  oldItem <> EmptyString -> storable (trim newItem) ->
  exists r,
    updateItem (VString text) (VString oldItem) (VString newItem)
    = Normal (VString r) /\
    (~ In (trim oldItem) (entries text) -> entries r = entries text) /\
    (trim oldItem <> trim newItem ->
     contains (VString r) (VString oldItem) = Normal false /\
     (In (trim newItem) (entries r) <->
      In (trim oldItem) (entries text) \/ In (trim newItem) (entries text))).
Proof.
  intros Ho Hn.
  destruct (updateItem_entries text oldItem newItem Ho Hn) as (r & Hr & He).
  exists r. split; [exact Hr|]. split.
  - intros H. rewrite He. now apply map_replace_absent.
  - intros D. split.
    + rewrite contains_string. f_equal. apply mem_not_In.
      rewrite He, in_map_iff. intros (y & Hy & _).
      destruct (String.eqb_spec y (trim oldItem)); congruence.
    + rewrite He, in_map_iff. split.
      * intros (y & Hy & Hin).
        destruct (String.eqb_spec y (trim oldItem)); [left | right]; congruence.
      * intros [H|H].
        -- exists (trim oldItem). now rewrite String.eqb_refl.
        -- exists (trim newItem). split; [|exact H].
           destruct (String.eqb_spec (trim newItem) (trim oldItem)); congruence.
Qed.

Lemma updateItem_replaces_witness :
  exists r,
    updateItem (VString "A|B") (VString "A") (VString " C ") = Normal (VString r) /\
    contains (VString r) (VString "A") = Normal false.
Proof.
  destruct (updateItem_replaces "A|B" "A" " C ") as (r & H & _ & D);
    [discriminate | vm_compute; repeat split; discriminate |].
  exists r. split; [exact H|]. apply D. vm_compute. discriminate.
Defined.

End OrderExtras.

Section CallbackExtras.

Import PipeDelimitedHelpers.
Import PipeDelimitedCallbacks.

(** The items of a list with their positions, from [index] on. *)
Lemma filterLoop_returns (answer : string -> nat -> value)
      (f : string -> nat -> list string -> completion value)
      (array items : list string) :
  forall index,
    (forall i item, nth_error items i = Some item ->
                    f item (index + i) array = Returned (answer item (index + i))) ->
    filterLoop f array index items
    = Returned (List.map fst
                  (List.filter (fun p => truthy (answer (fst p) (snd p)))
                     (combine items (seq index (List.length items))))).
Proof.
  induction items as [|x r IH]; intros index H; [reflexivity|].
  cbn [filterLoop List.length seq combine List.filter fst snd].
  pose proof (H 0 x eq_refl) as H0. rewrite Nat.add_0_r in H0.
  rewrite H0. cbn [andThen]. rewrite (IH (S index)).
  - cbn [andThen]. now destruct (truthy (answer x index)).
  - intros i item Hi. rewrite Nat.add_succ_comm. now apply (H (S i)).
Qed.

Lemma filterLoop_throws
      (f : string -> nat -> list string -> completion value)
      (array before after : list string) (item : string) (thrown : value) :
  forall index,
    (forall i earlier, nth_error before i = Some earlier ->
                       exists v, f earlier (index + i) array = Returned v) ->
    f item (index + List.length before) array = Thrown thrown ->
    filterLoop f array index (before ++ item :: after) = Thrown thrown.
Proof.
  induction before as [|x r IH]; intros index H T.
  - cbn [app filterLoop]. cbn [List.length] in T. rewrite Nat.add_0_r in T.
    now rewrite T.
  - cbn [app filterLoop].
    destruct (H 0 x eq_refl) as (v & Hv). rewrite Nat.add_0_r in Hv.
    rewrite Hv. cbn [andThen]. rewrite (IH (S index)); [reflexivity| |].
    + intros i earlier Hi. rewrite Nat.add_succ_comm. now apply (H (S i)).
    + cbn [List.length] in T. now rewrite Nat.add_succ_comm.
Qed.

Lemma Forall_filter {A} (P : A -> Prop) (f : A -> bool) (l : list A) :
  Forall P l -> Forall P (List.filter f l).
Proof.
  rewrite !Forall_forall. intros H x Hx. apply filter_In in Hx as [Hx _]. auto.
Qed.

Lemma kept_storable (keep : string * nat -> bool) (items : list string)
      (index : nat) :
  Forall storable items ->
  Forall storable
    (List.map fst (List.filter keep (combine items (seq index (List.length items))))).
Proof.
  rewrite !Forall_forall. intros H x Hx.
  apply in_map_iff in Hx as ([y i] & <- & Hy).
  apply filter_In in Hy as [Hy _]. apply in_combine_l in Hy. auto.
Qed.

(** What the handler does with a thrown value. *)
Lemma logAndReturn_string (text : string) (thrown : value) :
  match thrown with
  | VUndefined | VNull => exists e, logAndReturn (VString text) thrown = Throw e
  | _ => if convertible thrown
         then logAndReturn (VString text) thrown = Normal (VString text)
         else exists e, logAndReturn (VString text) thrown = Throw e
  end.
Proof.
  unfold logAndReturn.
  destruct thrown; cbn [callToString]; try (eexists; reflexivity);
    match goal with
    | |- context [convertible ?v] =>
        destruct (convertible v); cbn [bind];
        [now rewrite or_string | eexists; reflexivity]
    end.
Qed.

(** X14.  [filter] keeps, in order, the entries for which the callback
    (called with the entry, its index and the entries) answers with a
    truthy value.  When the callback throws, the handler calls
    [toString] on what was thrown: a thrown [null] or [undefined], or a
    value that cannot be converted, makes [filter] itself throw; any
    other thrown value leaves the text unchanged.  A second argument
    that is not a function leaves the text unchanged. *)
Theorem filter_callback (text : string) :
  (forall answer f,
      (forall index item,
          nth_error (entries text) index = Some item ->
          f item index (entries text) = Returned (answer item index)) ->
      exists r,
        filter (VString text) (Callable f) = Normal (VString r) /\
        entries r
        = List.map fst
            (List.filter (fun p => truthy (answer (fst p) (snd p)))
               (combine (entries text)
                  (seq 0 (List.length (entries text)))))) /\
  (forall f before item after thrown,
      entries text = before ++ item :: after ->
      (forall index earlier,
          nth_error before index = Some earlier ->
          exists v, f earlier index (entries text) = Returned v) ->
      f item (List.length before) (entries text) = Thrown thrown ->
      match thrown with
      | VUndefined | VNull =>
          exists e, filter (VString text) (Callable f) = Throw e
      | _ =>
          if convertible thrown
          then filter (VString text) (Callable f) = Normal (VString text)
          else exists e, filter (VString text) (Callable f) = Throw e
      end) /\
  (forall v, filter (VString text) (NotCallable v) = Normal (VString text)).
Proof.
  split; [|split].
  - intros answer f H. unfold filter. rewrite truthy_string.
    destruct text as [|c t]; [now exists EmptyString|].
    cbn [isEmpty negb notFunction orb]. rewrite parse_string. cbn [raise andThen].
    rewrite (filterLoop_returns answer f _ _ 0 H). cbn [andThen].
    rewrite stringify_strings. cbn [raise andThen].
    eexists. split; [reflexivity|].
    apply entries_serialize, kept_storable, entries_storable.
  - intros f before item after thrown E H T.
    assert (F : filter (VString text) (Callable f)
                = logAndReturn (VString text) thrown).
    { unfold filter. rewrite truthy_string.
      destruct text as [|c t]; [now destruct before|].
      cbn [isEmpty negb notFunction orb]. rewrite parse_string.
      cbn [raise andThen]. rewrite E at 2.
      rewrite (filterLoop_throws f _ before after item thrown 0 H T).
      reflexivity. }
    rewrite F. apply logAndReturn_string.
  - intros v. unfold filter. cbn [notFunction]. rewrite orb_true_r.
    now rewrite or_string.
Qed.

Lemma filter_callback_witness :
  (exists r,
      filter (VString "A|BB|C")
        (Callable (fun item index _ =>
                     Returned (VBool ((String.length item =? 1) && (0 <? index)))))
      = Normal (VString r) /\
      entries r = ["C"]) /\
  (exists e,
      filter (VString "A|B")
        (Callable (fun _ index _ =>
                     if index =? 1 then Thrown VNull else Returned (VBool true)))
      = Throw e) /\
  filter (VString "A|B")
    (Callable (fun _ index _ =>
                 if index =? 1 then Thrown (VString "stop")
                 else Returned (VBool true)))
  = Normal (VString "A|B").
Proof.
  split; [|split].
  - destruct (filter_callback "A|BB|C") as (H & _).
    exact (H (fun item index => VBool ((String.length item =? 1) && (0 <? index)))
             (fun item index _ =>
                Returned (VBool ((String.length item =? 1) && (0 <? index))))
             (fun _ _ _ => eq_refl)).
  - destruct (filter_callback "A|B") as (_ & H & _).
    apply (H (fun _ index _ =>
                if index =? 1 then Thrown VNull else Returned (VBool true))
             ["A"] "B" [] VNull eq_refl); [|reflexivity].
    intros [|[|i]] earlier E; vm_compute in E; try discriminate E. now eexists.
  - destruct (filter_callback "A|B") as (_ & H & _).
    apply (H (fun _ index _ =>
                if index =? 1 then Thrown (VString "stop")
                else Returned (VBool true))
             ["A"] "B" [] (VString "stop") eq_refl); [|reflexivity].
    intros [|[|i]] earlier E; vm_compute in E; try discriminate E. now eexists.
Defined.

Lemma mapLoop_returns (image : string -> nat -> string)
      (f : string -> nat -> list string -> completion value)
      (array items : list string) :
  forall index,
    (forall i item, nth_error items i = Some item ->
                    f item (index + i) array
                    = Returned (VString (image item (index + i)))) ->
    mapLoop f array index items
    = Returned (List.map VString
                  (List.map (fun p => image (fst p) (snd p))
                     (combine items (seq index (List.length items))))).
Proof.
  induction items as [|x r IH]; intros index H; [reflexivity|].
  cbn [mapLoop List.length seq combine List.map fst snd].
  pose proof (H 0 x eq_refl) as H0. rewrite Nat.add_0_r in H0.
  rewrite H0. cbn [andThen]. rewrite (IH (S index)); [reflexivity|].
  intros i item Hi. rewrite Nat.add_succ_comm. now apply (H (S i)).
Qed.

Lemma mapLoop_throws
      (f : string -> nat -> list string -> completion value)
      (array before after : list string) (item : string) (thrown : value) :
  forall index,
    (forall i earlier, nth_error before i = Some earlier ->
                       exists v, f earlier (index + i) array = Returned v) ->
    f item (index + List.length before) array = Thrown thrown ->
    mapLoop f array index (before ++ item :: after) = Thrown thrown.
Proof.
  induction before as [|x r IH]; intros index H T.
  - cbn [app mapLoop]. cbn [List.length] in T. rewrite Nat.add_0_r in T.
    now rewrite T.
  - cbn [app mapLoop].
    destruct (H 0 x eq_refl) as (v & Hv). rewrite Nat.add_0_r in Hv.
    rewrite Hv. cbn [andThen]. rewrite (IH (S index)); [reflexivity| |].
    + intros i earlier Hi. rewrite Nat.add_succ_comm. now apply (H (S i)).
    + cbn [List.length] in T. now rewrite Nat.add_succ_comm.
Qed.

Lemma In_combine_seq {A} (items : list A) (index : nat) (x : A) (i : nat) :
  In (x, i) (combine items (seq index (List.length items))) ->
  nth_error items (i - index) = Some x /\ index <= i.
Proof.
  revert index. induction items as [|y r IH]; intros index; [now intros []|].
  cbn [List.length seq combine In]. intros [[= -> ->]|H].
  - rewrite Nat.sub_diag. split; [reflexivity | lia].
  - destruct (IH (S index) H) as [E L]. split; [|lia].
    replace (i - index) with (S (i - S index)) by lia. exact E.
Qed.

(** X15.  [map] with a callback (called with the entry, its index and
    the entries) that turns every entry into a storable string stores
    the images in order, one for each entry.  When the callback throws,
    the handler calls [toString] on what was thrown: a thrown [null] or
    [undefined], or a value that cannot be converted, makes [map]
    itself throw; any other thrown value leaves the text unchanged. *)
Theorem map_callback (text : string) :
  (forall image f,
      (forall index item,
          nth_error (entries text) index = Some item ->
          f item index (entries text) = Returned (VString (image item index))
          /\ storable (image item index)) ->
      exists r,
        map (VString text) (Callable f) = Normal (VString r) /\
        entries r
        = List.map (fun p => image (fst p) (snd p))
            (combine (entries text) (seq 0 (List.length (entries text))))) /\
  (forall f before item after thrown,
      entries text = before ++ item :: after ->
      (forall index earlier,
          nth_error before index = Some earlier ->
          exists v, f earlier index (entries text) = Returned v) ->
      f item (List.length before) (entries text) = Thrown thrown ->
      match thrown with
      | VUndefined | VNull =>
          exists e, map (VString text) (Callable f) = Throw e
      | _ =>
          if convertible thrown
          then map (VString text) (Callable f) = Normal (VString text)
          else exists e, map (VString text) (Callable f) = Throw e
      end) /\
  (forall v, map (VString text) (NotCallable v) = Normal (VString text)).
Proof.
  split; [|split].
  - intros image f H. unfold map. rewrite truthy_string.
    destruct text as [|c t]; [now exists EmptyString|].
    cbn [isEmpty negb notFunction orb]. rewrite parse_string. cbn [raise andThen].
    rewrite (mapLoop_returns image f _ _ 0 (fun i item Hi => proj1 (H i item Hi))).
    cbn [andThen].
    change (VArray (List.map VString ?l)) with (strings l).
    rewrite stringify_strings. cbn [raise andThen].
    eexists. split; [reflexivity|].
    apply entries_serialize, Forall_forall. intros x Hx.
    apply in_map_iff in Hx as ([y i] & <- & Hy).
    apply In_combine_seq in Hy as [Hy _]. cbn [fst snd].
    rewrite Nat.sub_0_r in Hy. exact (proj2 (H i y Hy)).
  - intros f before item after thrown E H T.
    assert (F : map (VString text) (Callable f)
                = logAndReturn (VString text) thrown).
    { unfold map. rewrite truthy_string.
      destruct text as [|c t]; [now destruct before|].
      cbn [isEmpty negb notFunction orb]. rewrite parse_string.
      cbn [raise andThen]. rewrite E at 2.
      rewrite (mapLoop_throws f _ before after item thrown 0 H T).
      reflexivity. }
    rewrite F. apply logAndReturn_string.
  - intros v. unfold map. cbn [notFunction]. rewrite orb_true_r.
    now rewrite or_string.
Qed.

Lemma map_callback_witness :
  (exists r,
      map (VString "a|b")
        (Callable (fun item index _ =>
                     Returned (VString (String.append item (ofNat index)))))
      = Normal (VString r) /\
      entries r = ["a0"; "b1"]) /\
  (exists e,
      map (VString "a|b") (Callable (fun _ _ _ => Thrown VUndefined)) = Throw e).
Proof.
  split.
  - destruct (map_callback "a|b") as (H & _).
    apply (H (fun item index => String.append item (ofNat index))
             (fun item index _ =>
                Returned (VString (String.append item (ofNat index))))).
    intros [|[|[|i]]] item E; vm_compute in E; try discriminate E;
      injection E as <-; (split; [reflexivity|]);
      vm_compute; repeat split; discriminate.
  - destruct (map_callback "a|b") as (_ & H & _).
    apply (H (fun _ _ _ => Thrown VUndefined) [] "a" ["b"] VUndefined eq_refl);
      [|reflexivity].
    intros [|i] earlier E; vm_compute in E; discriminate E.
Defined.

End CallbackExtras.

(* ================================================================== *)
(** * The goal list of a client *)
(* ================================================================== *)

Section GoalExtras.

Import GoalManagementService.

Lemma someSameIgnoringCase_In (text : string) (goals : list string) :
  someSameIgnoringCase text goals = true
  <-> In (toLowerCase text) (List.map toLowerCase goals).
Proof.
  unfold someSameIgnoringCase. rewrite existsb_exists, in_map_iff.
  split; intros (goal & H1 & H2).
  - exists goal. apply String.eqb_eq in H2. now split.
  - exists goal. split; [exact H2 | now apply String.eqb_eq].
Qed.

Lemma someSameIgnoringCase_not_In (text : string) (goals : list string) :
  someSameIgnoringCase text goals = false -> ~ In text goals.
Proof.
  intros H Hin. apply (in_map toLowerCase) in Hin.
  apply someSameIgnoringCase_In in Hin. congruence.
Qed.

Lemma trim_not_empty (g : string) : trim g <> EmptyString -> isEmpty g = false.
Proof. destruct g; [now intros [] | reflexivity]. Qed.

Lemma blank_string (g : string) :
  blank (VString g) = Normal (String.eqb (trim g) "").
Proof. destruct g; reflexivity. Qed.

Lemma blank_not_string (v : value) (isBlank : bool) :
  blank v = Normal isBlank -> isBlank = false -> exists g, v = VString g.
Proof.
  unfold blank. intros H ->.
  destruct v as [| | b | n | g | l | fields]; try (eexists; reflexivity);
    cbn [truthy negb callTrim bind] in H; try discriminate.
  - destruct b; discriminate.
  - destruct (n =? 0)%Z; discriminate.
Qed.

(** ** [addGoal] *)

Lemma addGoal_string (getGoals : result (list string))
      (setGoals : list string -> result unit) (g : string) (goals : list string) :
  getGoals = Normal goals -> trim g <> EmptyString ->
  addGoal getGoals setGoals (VString g)
  = if someSameIgnoringCase (trim g) goals
    then Throw "Failed to add goal: This goal already exists for the client"
    else match setGoals (goals ++ [trim g]) with
         | Normal _ => Normal (goals ++ [trim g])
         | Throw e => Throw (String.append "Failed to add goal: " e)
         end.
Proof.
  intros -> N. unfold addGoal.
  rewrite truthy_string, (trim_not_empty g N). cbn [negb callTrim bind].
  apply String.eqb_neq in N. rewrite N. cbn [bind].
  fold (someSameIgnoringCase (trim g) goals).
  destruct (someSameIgnoringCase (trim g) goals); [reflexivity|].
  now destruct (setGoals (goals ++ [trim g])).
Qed.

Lemma addGoal_success (getGoals : result (list string))
      (setGoals : list string -> result unit) (goalText : value)
      (goals updated : list string) :
  getGoals = Normal goals ->
  addGoal getGoals setGoals goalText = Normal updated ->
  exists g,
    goalText = VString g /\ trim g <> EmptyString /\
    someSameIgnoringCase (trim g) goals = false /\
    updated = goals ++ [trim g] /\
    setGoals updated = Normal tt.
Proof.
  intros Hg H.
  assert (B : exists g, goalText = VString g /\ trim g <> EmptyString).
  { unfold addGoal in H. fold (blank goalText) in H.
    destruct (blank goalText) as [isBlank|e] eqn:E; [|discriminate].
    destruct isBlank; [discriminate|].
    destruct (blank_not_string _ _ E eq_refl) as (g & ->). exists g.
    split; [reflexivity|]. rewrite blank_string in E.
    injection E as E. now apply String.eqb_neq. }
  destruct B as (g & -> & N). exists g.
  rewrite (addGoal_string _ _ _ _ Hg N) in H.
  destruct (someSameIgnoringCase (trim g) goals); [discriminate|].
  destruct (setGoals (goals ++ [trim g])) as [[]|e] eqn:E; [|discriminate].
  injection H as <-. auto.
Qed.

Lemma distinctIgnoringCase_snoc (goals : list string) (g : string) :
  distinctIgnoringCase goals -> someSameIgnoringCase g goals = false ->
  distinctIgnoringCase (goals ++ [g]).
Proof.
  unfold distinctIgnoringCase. intros D S. rewrite map_app. cbn [List.map].
  apply NoDup_app; [exact D | repeat constructor; now intros [] |].
  intros x Hx [<-|[]]. apply someSameIgnoringCase_In in Hx. congruence.
Qed.

(** X16.  [addGoal] succeeds exactly when the goal text is a string
    that is not blank, no current goal equals its trimmed form up to
    letter case, and the store accepts the new list; the result is the
    current list with the trimmed text appended, and a list without
    goals equal up to case stays so. *)
Theorem addGoal_appends_trimmed (getGoals : result (list string))
        (setGoals : list string -> result unit) (goalText : value)
        (goals : list string) :
  getGoals = Normal goals ->
  forall updated,
    (addGoal getGoals setGoals goalText = Normal updated <->
     exists g,
       goalText = VString g /\ trim g <> EmptyString /\
       ~ In (toLowerCase (trim g)) (List.map toLowerCase goals) /\
       updated = goals ++ [trim g] /\
       setGoals updated = Normal tt) /\
    (addGoal getGoals setGoals goalText = Normal updated ->
     distinctIgnoringCase goals -> distinctIgnoringCase updated).
Proof.
  intros Hg updated. split; [split|].
  - intros H. destruct (addGoal_success _ _ _ _ _ Hg H) as (g & E & N & S & U & W).
    exists g. repeat split; try assumption.
    rewrite <- someSameIgnoringCase_In. congruence.
  - intros (g & -> & N & S & -> & W).
    rewrite (addGoal_string _ _ _ _ Hg N), W.
    destruct (someSameIgnoringCase (trim g) goals) eqn:E; [|reflexivity].
    now apply someSameIgnoringCase_In in E.
  - intros H D. destruct (addGoal_success _ _ _ _ _ Hg H) as (g & _ & _ & S & -> & _).
    now apply distinctIgnoringCase_snoc.
Qed.

Lemma addGoal_appends_trimmed_witness :
  addGoal (Normal ["Sleep"]) (fun _ => Normal tt) (VString " Walk ")
  = Normal ["Sleep"; "Walk"].
Proof.
  destruct (addGoal_appends_trimmed (Normal ["Sleep"]) (fun _ => Normal tt)
              (VString " Walk ") ["Sleep"] eq_refl ["Sleep"; "Walk"]) as [[_ H] _].
  apply H. exists " Walk ". vm_compute. repeat split; try discriminate.
  intros [H1|[]]. discriminate.
Defined.

(** ** [removeGoal] *)

Lemma filter_length_same {A} (f : A -> bool) (l : list A) :
  List.length (List.filter f l) = List.length l <->
  forall x, In x l -> f x = true.
Proof.
  split.
  - intros H x Hx. apply filter_length_full in H. rewrite <- H in Hx.
    now apply filter_In in Hx.
  - intros H. now rewrite filter_all.
Qed.

Lemma removeGoal_found (getGoals : result (list string))
      (setGoals : list string -> result unit) (g : string) (goals : list string) :
  getGoals = Normal goals -> In g goals ->
  removeGoal getGoals setGoals (VString g)
  = match setGoals (List.filter (fun goal => negb (String.eqb g goal)) goals) with
    | Normal _ => Normal (List.filter (fun goal => negb (String.eqb g goal)) goals)
    | Throw e => Throw (String.append "Failed to remove goal: " e)
    end.
Proof.
  intros -> Hin. unfold removeGoal. cbn [bind strictEqString].
  destruct (_ =? _) eqn:E.
  - apply Nat.eqb_eq in E.
    pose proof (proj1 (filter_length_same _ _) E g Hin) as E'.
    cbv beta in E'. now rewrite String.eqb_refl in E'.
  - now destruct (setGoals _).
Qed.

Lemma removeGoal_absent (getGoals : result (list string))
      (setGoals : list string -> result unit) (goalText : value)
      (goals : list string) :
  getGoals = Normal goals ->
  (forall g, goalText = VString g -> ~ In g goals) ->
  removeGoal getGoals setGoals goalText
  = Throw "Failed to remove goal: Goal not found".
Proof.
  intros -> H. unfold removeGoal. cbn [bind].
  rewrite filter_all; [now rewrite Nat.eqb_refl|].
  intros x Hx. apply negb_true_iff.
  destruct goalText; try reflexivity. cbn [strictEqString].
  apply String.eqb_neq. intros ->. now apply (H x).
Qed.

(** X17.  [removeGoal] compares the goal text exactly, without
    trimming or case folding: it succeeds only for a string that is a
    current goal, and then returns the list without any goal equal to
    it; for any other argument it throws "Goal not found". *)
Theorem removeGoal_exact_text (getGoals : result (list string))
        (setGoals : list string -> result unit) (goalText : value)
        (goals : list string) :
  getGoals = Normal goals ->
  (forall updated,
      removeGoal getGoals setGoals goalText = Normal updated ->
      exists g,
        goalText = VString g /\ In g goals /\ ~ In g updated /\
        (forall other, other <> g -> (In other updated <-> In other goals)) /\
        List.length updated < List.length goals /\
        setGoals updated = Normal tt) /\
  ((forall g, goalText = VString g -> ~ In g goals) ->
   removeGoal getGoals setGoals goalText
   = Throw "Failed to remove goal: Goal not found").
Proof.
  intros Hg. split; [|now apply removeGoal_absent].
  intros updated H.
  assert (P : exists g, goalText = VString g /\ In g goals).
  { destruct goalText as [| | b | n | g | l | fields].
    5: { destruct (in_dec string_dec g goals) as [Hin|Hout]; [now exists g|].
         rewrite (removeGoal_absent _ setGoals (VString g) _ Hg) in H;
           [discriminate|]. now intros ? [= <-]. }
    all: rewrite (removeGoal_absent _ setGoals _ _ Hg) in H;
      [discriminate | intros ?; discriminate]. }
  destruct P as (g & -> & Hin). exists g.
  rewrite (removeGoal_found _ _ _ _ Hg Hin) in H.
  destruct (setGoals _) as [[]|e] eqn:W; [|discriminate].
  injection H as <-. split; [reflexivity|]. split; [exact Hin|].
  split; [|split; [|split; [|exact W]]].
  - rewrite filter_In. intros [_ E]. now rewrite String.eqb_refl in E.
  - intros other D. rewrite filter_In. split; [now intros []|].
    intros Ho. split; [exact Ho|].
    apply negb_true_iff, String.eqb_neq. congruence.
  - pose proof (filter_length_le (fun goal => negb (String.eqb g goal)) goals) as L.
    destruct (Nat.eq_dec
                (List.length (List.filter (fun goal => negb (String.eqb g goal)) goals))
                (List.length goals)) as [E|E]; [|lia].
    pose proof (proj1 (filter_length_same _ _) E g Hin) as E'.
    cbv beta in E'. now rewrite String.eqb_refl in E'.
Qed.

Lemma removeGoal_exact_text_witness :
  removeGoal (Normal ["Sleep"; "Walk"]) (fun _ => Normal tt) (VString " Walk")
  = Throw "Failed to remove goal: Goal not found".
Proof.
  destruct (removeGoal_exact_text (Normal ["Sleep"; "Walk"]) (fun _ => Normal tt)
              (VString " Walk") ["Sleep"; "Walk"] eq_refl) as [_ H].
  apply H. intros g [= <-] [H1|[H1|[]]]; discriminate.
Defined.

(** X18.  Removing what [addGoal] has just stored restores the list,
    when the trimmed text is used; the text as it was passed to
    [addGoal] is not found when it has white space around it. *)
Theorem addGoal_then_removeGoal (setGoals : list string -> result unit)
        (g : string) (goals updated : list string) :
  addGoal (Normal goals) setGoals (VString g) = Normal updated ->
  (setGoals goals = Normal tt ->
   removeGoal (Normal updated) setGoals (VString (trim g)) = Normal goals) /\
  (trim g <> g ->
   ~ In g goals ->
   removeGoal (Normal updated) setGoals (VString g)
   = Throw "Failed to remove goal: Goal not found").
Proof.
  intros H.
  destruct (addGoal_success _ _ _ _ _ eq_refl H) as (g' & [= <-] & N & S & -> & W).
  pose proof (someSameIgnoringCase_not_In _ _ S) as Hout.
  split.
  - intros W0. rewrite (removeGoal_found _ _ _ _ eq_refl)
      by (apply in_or_app; right; now left).
    rewrite filter_app. cbn [List.filter]. rewrite String.eqb_refl. cbn [negb].
    rewrite app_nil_r, filter_all; [now rewrite W0|].
    intros x Hx. apply negb_true_iff, String.eqb_neq. congruence.
  - intros D Hg. apply (removeGoal_absent _ _ _ _ eq_refl).
    intros g0 [= <-] Hin. apply in_app_or in Hin as [Hin|[Hin|[]]]; congruence.
Qed.

Lemma addGoal_then_removeGoal_witness :
  removeGoal (Normal ["Sleep"; "Walk"]) (fun _ => Normal tt) (VString "Walk")
  = Normal ["Sleep"].
Proof.
  destruct (addGoal_then_removeGoal (fun _ => Normal tt) " Walk " ["Sleep"]
              ["Sleep"; "Walk"] eq_refl) as [H _].
  exact (H eq_refl).
Defined.

(** ** [updateGoal] *)

Lemma findIndex_split (p : string -> bool) (goals : list string) (i : nat) :
  findIndex p goals = Some i ->
  exists before x after,
    goals = before ++ x :: after /\ List.length before = i /\
    p x = true /\ forall y, In y before -> p y = false.
Proof.
  revert i. induction goals as [|goal rest IH]; intros i; [discriminate|].
  cbn [findIndex]. destruct (p goal) eqn:E.
  - intros [= <-]. exists [], goal, rest. repeat split; [exact E | now intros ? []].
  - destruct (findIndex p rest) as [j|]; [|discriminate].
    intros [= <-]. destruct (IH j eq_refl) as (b & x & a & -> & L & Px & Pb).
    exists (goal :: b), x, a. repeat split; [cbn; now rewrite L | exact Px |].
    intros y [<-|Hy]; [exact E | now apply Pb].
Qed.

Lemma withoutIndex_middle (before after : list string) (x : string) :
  withoutIndex (List.length before) (before ++ x :: after) = before ++ after.
Proof. induction before as [|y r IH]; [reflexivity|]. cbn. now rewrite IH. Qed.

Lemma setIndex_middle (before after : list string) (x new : string) :
  setIndex (List.length before) new (before ++ x :: after)
  = before ++ new :: after.
Proof. induction before as [|y r IH]; [reflexivity|]. cbn. now rewrite IH. Qed.

(** X19.  [updateGoal] replaces the first goal that is exactly the old
    text, and only that one, by the trimmed new text: a successful call
    returns the list with that one position changed, and a list
    without goals equal up to case stays so. *)
Theorem updateGoal_replaces_first (getGoals : result (list string))
        (setGoals : list string -> result unit) (oldGoalText newGoalText : value)
        (goals updated : list string) :
  getGoals = Normal goals ->
  updateGoal getGoals setGoals oldGoalText newGoalText = Normal updated ->
  exists old new before after,
    oldGoalText = VString old /\ newGoalText = VString new /\
    trim new <> EmptyString /\
    goals = before ++ old :: after /\ ~ In old before /\
    updated = before ++ trim new :: after /\
    setGoals updated = Normal tt /\
    (distinctIgnoringCase goals -> distinctIgnoringCase updated).
Proof.
  intros -> H. unfold updateGoal in H.
  destruct (blank newGoalText) as [isBlank|e] eqn:B; [|discriminate].
  cbn [bind] in H. destruct isBlank; [discriminate|].
  destruct (blank_not_string _ _ B eq_refl) as (new & ->).
  rewrite blank_string in B. injection B as B. apply String.eqb_neq in B.
  cbn [bind callTrim] in H.
  destruct (findIndex (strictEqString oldGoalText) goals) as [i|] eqn:F;
    [|discriminate].
  destruct (findIndex_split _ _ _ F) as (before & x & after & -> & <- & Px & Pb).
  destruct oldGoalText as [| | | | old | |]; try discriminate.
  cbn [strictEqString] in Px, Pb. apply String.eqb_eq in Px. subst x.
  rewrite withoutIndex_middle, setIndex_middle in H.
  destruct (someSameIgnoringCase (trim new) (before ++ after)) eqn:S;
    [discriminate|].
  destruct (setGoals _) as [[]|e] eqn:W; [|discriminate].
  injection H as <-.
  exists old, new, before, after. repeat split; try assumption.
  - intros Hin. apply Pb in Hin. now rewrite String.eqb_refl in Hin.
  - unfold distinctIgnoringCase. rewrite !map_app. cbn [List.map].
    intros D. apply NoDup_remove_1 in D.
    apply (NoDup_Add (Add_app (toLowerCase (trim new)) _ _)).
    split; [exact D|]. rewrite <- map_app.
    intros Hin. apply someSameIgnoringCase_In in Hin. congruence.
Qed.

Lemma updateGoal_replaces_first_witness :
  exists before after,
    ["Sleep"; "Walk"; "Sleep"] = before ++ "Sleep" :: after /\
    ~ In "Sleep" before /\
    ["Read"; "Walk"; "Sleep"] = before ++ "Read" :: after.
Proof.
  destruct (updateGoal_replaces_first (Normal ["Sleep"; "Walk"; "Sleep"])
              (fun _ => Normal tt) (VString "Sleep") (VString " Read ")
              ["Sleep"; "Walk"; "Sleep"] ["Read"; "Walk"; "Sleep"]
              eq_refl eq_refl)
    as (old & new & before & after & Eo & En & _ & G & B & U & _).
  injection Eo as <-. injection En as <-.
  exists before, after. repeat split; assumption.
Defined.

(** ** [reorderGoals] *)

Lemma forallb_mem_incl (l m : list string) :
  forallb (fun goal => mem goal m) l = true <-> incl l m.
Proof.
  rewrite forallb_forall. unfold incl.
  split; intros H x Hx; apply mem_In, H, Hx.
Qed.

Lemma same_elements_unique_length (l m : list string) :
  (forall x, In x l <-> In x m) ->
  List.length (unique l) = List.length (unique m).
Proof.
  intros H. apply Permutation_length, NoDup_Permutation; try apply unique_NoDup.
  intros x. now rewrite !unique_In.
Qed.

Lemma reorderGoals_check (current reordered : list string) :
  negb (List.length (unique current) =? List.length (unique reordered))
  || negb (forallb (fun goal => mem goal (unique reordered)) (unique current))
  = false
  <-> forall x, In x current <-> In x reordered.
Proof.
  rewrite orb_false_iff, !negb_false_iff, Nat.eqb_eq, forallb_mem_incl.
  split.
  - intros [L I] x. rewrite <- (unique_In x current), <- (unique_In x reordered).
    split; [apply I|].
    apply (NoDup_length_incl (unique_NoDup current)); [lia | exact I].
  - intros H. split; [now apply same_elements_unique_length|].
    intros x. rewrite !unique_In. apply H.
Qed.

(** X20.  [reorderGoals] accepts a new order exactly when it has as
    many goals as the current list and the same goals occur in both
    (and the store accepts it); it then returns the new order as given.
    When the current goals are pairwise different the accepted orders
    are exactly the permutations of the current list. *)
Theorem reorderGoals_accepts (getGoals : result (list string))
        (setGoals : list string -> result unit)
        (goals reorderedGoals : list string) :
  getGoals = Normal goals ->
  (forall updated,
      reorderGoals getGoals setGoals reorderedGoals = Normal updated <->
      updated = reorderedGoals /\
      List.length reorderedGoals = List.length goals /\
      (forall x, In x goals <-> In x reorderedGoals) /\
      setGoals reorderedGoals = Normal tt) /\
  (NoDup goals ->
   forall updated,
     reorderGoals getGoals setGoals reorderedGoals = Normal updated ->
     Permutation goals updated) /\
  (Permutation goals reorderedGoals ->
   setGoals reorderedGoals = Normal tt ->
   reorderGoals getGoals setGoals reorderedGoals = Normal reorderedGoals).
Proof.
  intros ->.
  assert (A : forall updated,
      reorderGoals (Normal goals) setGoals reorderedGoals = Normal updated <->
      updated = reorderedGoals /\
      List.length reorderedGoals = List.length goals /\
      (forall x, In x goals <-> In x reorderedGoals) /\
      setGoals reorderedGoals = Normal tt).
  { intros updated. unfold reorderGoals. cbn [bind].
    destruct (List.length reorderedGoals =? List.length goals) eqn:L;
      cbn [negb]; [apply Nat.eqb_eq in L | apply Nat.eqb_neq in L].
    - destruct (negb _ || negb _) eqn:C.
      + split; [discriminate|]. intros (_ & _ & S & _).
        apply (proj2 (reorderGoals_check _ _)) in S. congruence.
      + pose proof (proj1 (reorderGoals_check _ _) C) as S.
        destruct (setGoals reorderedGoals) as [[]|e]; cbn [bind try_catch].
        * split; [intros [= <-]; auto | now intros (-> & _)].
        * split; [discriminate | intros (_ & _ & _ & W); discriminate].
    - split; [discriminate | intros (_ & L' & _); contradiction]. }
  split; [exact A|]. split.
  - intros D updated H. apply A in H as (-> & L & S & _).
    apply NoDup_Permutation_bis; [exact D | lia | intros x; apply S].
  - intros P W. apply A. split; [reflexivity|].
    split; [symmetry; now apply Permutation_length|].
    split; [|exact W].
    intros x. split; [apply Permutation_in; exact P
                     | apply Permutation_in; now symmetry].
Qed.

Lemma reorderGoals_accepts_witness :
  reorderGoals (Normal ["Sleep"; "Walk"; "Read"]) (fun _ => Normal tt)
    ["Read"; "Sleep"; "Walk"]
  = Normal ["Read"; "Sleep"; "Walk"].
Proof.
  destruct (reorderGoals_accepts (Normal ["Sleep"; "Walk"; "Read"])
              (fun _ => Normal tt) ["Sleep"; "Walk"; "Read"]
              ["Read"; "Sleep"; "Walk"] eq_refl) as (_ & _ & H).
  apply H; [|reflexivity].
  apply Permutation_sym, (Permutation_cons_app ["Sleep"; "Walk"] []).
  apply Permutation_refl.
Defined.

(** ** [bulkUpdateGoals] *)

Lemma filterNonBlank_strings (goals : list string) :
  filterNonBlank (List.map VString goals)
  = Normal (List.map VString
              (List.filter (fun g => negb (String.eqb (trim g) "")) goals)).
Proof.
  induction goals as [|g r IH]; [reflexivity|].
  cbn [List.map filterNonBlank List.filter]. rewrite IH, truthy_string.
  destruct g as [|c t]; [reflexivity|].
  cbn [isEmpty negb callTrim bind].
  now destruct (negb (String.eqb (trim (String c t)) "")).
Qed.

Lemma trimAll_strings (goals : list string) :
  trimAll (List.map VString goals) = Normal (List.map trim goals).
Proof.
  induction goals as [|g r IH]; [reflexivity|].
  cbn [List.map trimAll callTrim bind]. now rewrite IH.
Qed.

Lemma filterNonBlank_success (newGoals kept : list value) :
  filterNonBlank newGoals = Normal kept ->
  exists goals,
    kept = List.map VString goals /\
    Forall (fun g => trim g <> EmptyString) goals /\
    forall g, In g goals -> In (VString g) newGoals.
Proof.
  revert kept. induction newGoals as [|v r IH]; intros kept.
  - intros [= <-]. exists []. repeat split; [constructor | now intros ? []].
  - cbn [filterNonBlank].
    destruct (if truthy v then _ else _) as [keep|e] eqn:K; [|discriminate].
    cbn [bind]. destruct (filterNonBlank r) as [kept'|e]; [|discriminate].
    destruct (IH kept' eq_refl) as (goals & -> & F & I).
    cbn [bind]. intros [= <-]. destruct keep.
    + destruct (truthy v); [|discriminate].
      destruct v as [| | | | g | |]; try discriminate.
      cbn [callTrim bind] in K. injection K as K.
      apply negb_true_iff, String.eqb_neq in K.
      exists (g :: goals). split; [reflexivity|]. split; [now constructor|].
      intros g' [<-|Hg]; [now left | right; now apply I].
    + exists goals. split; [reflexivity|]. split; [exact F|].
      intros g' Hg. right. now apply I.
Qed.

Lemma trimmed_goal (g : string) :
  trim g <> EmptyString -> trim (trim g) = trim g /\ trim g <> EmptyString.
Proof. intros N. split; [apply trim_idem | exact N]. Qed.

(** X21.  A list returned by [bulkUpdateGoals] holds only trimmed,
    non-empty goals, pairwise different, each the trimmed form of a
    string of the input; storing such a list again returns it
    unchanged. *)
Theorem bulkUpdateGoals_validated (setGoals : list string -> result unit)
        (newGoals : list value) (validated : list string) :
  bulkUpdateGoals setGoals newGoals = Normal validated ->
  NoDup validated /\
  Forall (fun goal => trim goal = goal /\ goal <> EmptyString) validated /\
  (forall goal, In goal validated ->
                exists g, In (VString g) newGoals /\ goal = trim g) /\
  setGoals validated = Normal tt /\
  bulkUpdateGoals setGoals (List.map VString validated) = Normal validated.
Proof.
  unfold bulkUpdateGoals at 1. intros H.
  destruct (filterNonBlank newGoals) as [kept|e] eqn:K; [|discriminate].
  destruct (filterNonBlank_success _ _ K) as (goals & -> & F & I).
  cbn [bind] in H. rewrite trimAll_strings in H. cbn [bind] in H.
  destruct (setGoals _) as [[]|e] eqn:W; [|discriminate].
  injection H as <-.
  assert (T : Forall (fun goal => trim goal = goal /\ goal <> EmptyString)
                (unique (List.map trim goals))).
  { apply Forall_forall. intros x Hx.
    apply unique_In, in_map_iff in Hx as (g & <- & Hg).
    rewrite Forall_forall in F. apply trimmed_goal, F, Hg. }
  split; [apply unique_NoDup|]. split; [exact T|]. split; [|split; [exact W|]].
  - intros goal Hg. apply unique_In, in_map_iff in Hg as (g & <- & Hg).
    exists g. split; [now apply I | reflexivity].
  - unfold bulkUpdateGoals. rewrite filterNonBlank_strings.
    set (u := unique (List.map trim goals)) in *.
    assert (E1 : List.filter (fun g => negb (String.eqb (trim g) "")) u = u).
    { apply filter_all. intros x Hx. rewrite Forall_forall in T.
      destruct (T x Hx) as [E N]. rewrite E.
      now apply negb_true_iff, String.eqb_neq. }
    assert (E2 : List.map trim u = u).
    { clear E1 W. induction T as [|x l [E _] _ IH]; [reflexivity|].
      cbn [List.map]. now rewrite E, IH. }
    rewrite E1. cbn [bind]. rewrite trimAll_strings, E2. cbn [bind].
    subst u. rewrite unique_idem, W. reflexivity.
Qed.

Lemma bulkUpdateGoals_validated_witness :
  bulkUpdateGoals (fun _ => Normal tt) (List.map VString ["Walk"; "Sleep"])
  = Normal ["Walk"; "Sleep"].
Proof.
  destruct (bulkUpdateGoals_validated (fun _ => Normal tt)
              [VString " Walk"; VString ""; VNull; VString "Sleep "; VString "Walk"]
              ["Walk"; "Sleep"] eq_refl) as (_ & _ & _ & _ & H).
  exact H.
Defined.

End GoalExtras.

(* ================================================================== *)
(** * Generated identifiers and duplicate events *)
(* ================================================================== *)

Section EventExtras.

Import CalendarService.

(** ** 32-bit arithmetic *)

Lemma toInt32_range (z : Z) :
  (- 2147483648 <= toInt32 z < 2147483648)%Z.
Proof.
  unfold toInt32.
  pose proof (Z.mod_pos_bound (z + 2147483648) 4294967296 eq_refl). lia.
Qed.

Lemma toInt32_plus (z k : Z) : toInt32 (z + k * 4294967296) = toInt32 z.
Proof.
  unfold toInt32.
  replace (z + k * 4294967296 + 2147483648)%Z
    with (z + 2147483648 + k * 4294967296)%Z by lia.
  now rewrite Z_mod_plus_full.
Qed.

Lemma toInt32_eq (z : Z) : exists k, toInt32 z = (z + k * 4294967296)%Z.
Proof.
  exists (- ((z + 2147483648) / 4294967296))%Z. unfold toInt32.
  pose proof (Z.div_mod (z + 2147483648) 4294967296). lia.
Qed.

Lemma hashStep_toInt32 (x : Z) (b : ascii) :
  hashStep (toInt32 x) b = toInt32 (x * 31 + charCode b).
Proof.
  unfold hashStep. rewrite Z.shiftl_mul_pow2 by lia.
  destruct (toInt32_eq x) as (k & ->).
  destruct (toInt32_eq ((x + k * 4294967296) * 2 ^ 5)) as (k' & ->).
  replace ((x + k * 4294967296) * 2 ^ 5 + k' * 4294967296
           - (x + k * 4294967296) + charCode b)%Z
    with (x * 31 + charCode b + (31 * k + k') * 4294967296)%Z by lia.
  apply toInt32_plus.
Qed.

Lemma reduceChars_polynomial (x : Z) (title : string) :
  reduceChars hashStep (toInt32 x) title = toInt32 (polynomial31 x title).
Proof.
  revert x. induction title as [|b rest IH]; intros x; [reflexivity|].
  cbn [reduceChars polynomial31]. rewrite hashStep_toInt32. apply IH.
Qed.

(** X22.  The hash that [generateEventId] takes of a title is the
    polynomial of the character codes with base 31, reduced to a signed
    32-bit integer; the number written into the identifier is its
    absolute value, between 0 and 2^31. *)
Theorem titleHash_polynomial (title : string) :
  titleHash title = toInt32 (polynomial31 0 title) /\
  (- 2147483648 <= titleHash title < 2147483648)%Z /\
  (0 <= Z.abs (titleHash title) <= 2147483648)%Z.
Proof.
  assert (E : titleHash title = toInt32 (polynomial31 0 title))
    by exact (reduceChars_polynomial 0 title).
  split; [exact E|]. rewrite E.
  pose proof (toInt32_range (polynomial31 0 title)). lia.
Qed.

(** ** Decimal rendering *)

Lemma append_String (c : ascii) (s t : string) :
  String.append (String c s) t = String c (String.append s t).
Proof. reflexivity. Qed.

Lemma digits_no_underscore (d : Decimal.uint) :
  includesChar (NilEmpty.string_of_uint d) "_" = false.
Proof. induction d; cbn; assumption || reflexivity. Qed.

Lemma ofZ_no_underscore (n : Z) : includesChar (ofZ n) "_" = false.
Proof.
  unfold ofZ, NilZero.string_of_int, NilZero.string_of_uint.
  destruct (Z.to_int n) as [d|d]; destruct d; cbn [includesChar Ascii.eqb];
    try reflexivity;
    try exact (digits_no_underscore (Decimal.D0 d));
    try exact (digits_no_underscore (Decimal.D1 d));
    try exact (digits_no_underscore (Decimal.D2 d));
    try exact (digits_no_underscore (Decimal.D3 d));
    try exact (digits_no_underscore (Decimal.D4 d));
    try exact (digits_no_underscore (Decimal.D5 d));
    try exact (digits_no_underscore (Decimal.D6 d));
    try exact (digits_no_underscore (Decimal.D7 d));
    try exact (digits_no_underscore (Decimal.D8 d));
    try exact (digits_no_underscore (Decimal.D9 d)).
Qed.

Lemma ofZ_inj (n m : Z) : ofZ n = ofZ m -> n = m.
Proof.
  unfold ofZ. intros H. apply DecimalZ.to_int_inj.
  assert (N : forall z, Z.to_int z <> Decimal.Pos Decimal.Nil
                        /\ Z.to_int z <> Decimal.Neg Decimal.Nil).
  { intros [|p|p]; split; try discriminate; cbn; intros [= E];
      now apply (DecimalPos.Unsigned.to_uint_nonnil p). }
  pose proof (NilZero.isi (Z.to_int n) (proj1 (N n)) (proj2 (N n))) as E1.
  pose proof (NilZero.isi (Z.to_int m) (proj1 (N m)) (proj2 (N m))) as E2.
  rewrite H in E1. congruence.
Qed.

Lemma append_cancel_l (p x y : string) :
  String.append p x = String.append p y -> x = y.
Proof.
  induction p as [|c p IH]; [easy|].
  rewrite !append_String. intros [= H]. now apply IH.
Qed.

Lemma split_at_char (c : ascii) (a b x y : string) :
  includesChar a c = false -> includesChar b c = false ->
  String.append a (String c x) = String.append b (String c y) ->
  a = b /\ x = y.
Proof.
  revert b. induction a as [|d a IH]; intros [|e b] Ha Hb H.
  - injection H as H. now split.
  - cbn in H, Hb. injection H as -> _. now rewrite Ascii.eqb_refl in Hb.
  - cbn in H, Ha. injection H as -> _. now rewrite Ascii.eqb_refl in Ha.
  - cbn in Ha, Hb. apply orb_false_iff in Ha as [_ Ha], Hb as [_ Hb].
    rewrite !append_String in H. injection H as -> H.
    destruct (IH b Ha Hb H) as [-> ->]. now split.
Qed.

(** X23.  Two generated identifiers are equal exactly when the start
    times are equal and the title hashes have the same absolute value:
    events that start at different times never share a generated
    identifier. *)
Theorem generateEventId_equal (t1 t2 : Z) (title1 title2 : string) :
  generateEventId t1 title1 = generateEventId t2 title2
  <-> t1 = t2 /\ Z.abs (titleHash title1) = Z.abs (titleHash title2).
Proof.
  unfold generateEventId. split; [|intros [-> E]; now rewrite E].
  intros H.
  apply append_cancel_l in H.
  change (String.append "_" ?s) with (String "_" s) in H.
  apply split_at_char in H as [H1 H2]; try apply ofZ_no_underscore.
  split; [now apply ofZ_inj | now apply ofZ_inj].
Qed.

(** ** [removeDuplicateEvents] *)

Lemma filterUnseen_keys (seen : list string) (events : list event) :
  List.map eventKey (filterUnseen seen events)
  = List.filter (fun key => negb (mem key seen))
      (unique (List.map eventKey events)).
Proof.
  revert seen. induction events as [|e rest IH]; intros seen; [reflexivity|].
  cbn [filterUnseen List.map unique List.filter].
  destruct (mem (eventKey e) seen) eqn:M; cbn [negb List.map].
  - rewrite IH, filter_both. apply filter_ext. intros key.
    destruct (String.eqb_spec key (eventKey e)) as [->|_];
      [now rewrite M | reflexivity].
  - f_equal. rewrite IH, filter_both. apply filter_ext. intros key.
    unfold mem. cbn [existsb]. fold (mem key seen).
    apply negb_orb.
Qed.

Lemma filterUnseen_In (seen : list string) (events : list event) (e : event) :
  In e (filterUnseen seen events) -> In e events.
Proof.
  revert seen. induction events as [|x rest IH]; intros seen; [easy|].
  cbn [filterUnseen]. destruct (mem (eventKey x) seen).
  - intros H. right. now apply (IH seen).
  - intros [<-|H]; [now left | right; now apply (IH (eventKey x :: seen))].
Qed.

Lemma filterUnseen_fix (seen : list string) (events : list event) :
  NoDup (List.map eventKey events) ->
  (forall e, In e events -> ~ In (eventKey e) seen) ->
  filterUnseen seen events = events.
Proof.
  revert seen. induction events as [|x rest IH]; intros seen D S; [reflexivity|].
  cbn [filterUnseen].
  rewrite (proj2 (mem_not_In _ _) (S x (or_introl eq_refl))).
  f_equal. cbn [List.map] in D. apply NoDup_cons_iff in D as [Dx D].
  apply IH; [exact D|].
  intros e He [E|Hs]; [|now apply (S e (or_intror He))].
  apply Dx. rewrite E. now apply in_map.
Qed.

Lemma filterUnseen_first (seen : list string)
      (before after : list event) (e : event) :
  ~ In (eventKey e) seen ->
  (forall x, In x before -> eventKey x <> eventKey e) ->
  In e (filterUnseen seen (before ++ e :: after)).
Proof.
  revert seen. induction before as [|x before IH]; intros seen S B.
  - cbn [app filterUnseen]. rewrite (proj2 (mem_not_In _ _) S). now left.
  - cbn [app filterUnseen].
    assert (B' : forall y, In y before -> eventKey y <> eventKey e)
      by (intros y Hy; apply B; now right).
    destruct (mem (eventKey x) seen); [now apply IH|].
    right. apply IH; [|exact B'].
    intros [E|H]; [|contradiction]. now apply (B x (or_introl eq_refl)).
Qed.

(** X24.  [removeDuplicateEvents] keeps, for every key (start time and
    title), the first event that has it and drops the later ones: the
    keys of the result are the distinct keys of the input in order of
    first appearance, every kept event is an input event, and a second
    pass changes nothing. *)
Theorem removeDuplicateEvents_first_kept (events : list event) :
  List.map eventKey (removeDuplicateEvents events)
  = unique (List.map eventKey events) /\
  NoDup (List.map eventKey (removeDuplicateEvents events)) /\
  (forall e, In e (removeDuplicateEvents events) -> In e events) /\
  (forall before e after,
      events = before ++ e :: after ->
      (forall x, In x before -> eventKey x <> eventKey e) ->
      In e (removeDuplicateEvents events)) /\
  removeDuplicateEvents (removeDuplicateEvents events)
  = removeDuplicateEvents events.
Proof.
  assert (K : List.map eventKey (removeDuplicateEvents events)
              = unique (List.map eventKey events)).
  { unfold removeDuplicateEvents. rewrite filterUnseen_keys.
    apply filter_all. reflexivity. }
  split; [exact K|]. split; [rewrite K; apply unique_NoDup|].
  split; [intros e; apply filterUnseen_In|]. split.
  - intros before e after -> B. apply filterUnseen_first; [now intros []|exact B].
  - unfold removeDuplicateEvents at 1. apply filterUnseen_fix.
    + rewrite K. apply unique_NoDup.
    + now intros e _ [].
Qed.

Lemma removeDuplicateEvents_first_kept_witness :
  let first := {| eventStart := 5; eventTitle := "Therapy"; eventRest := [] |} in
  let again := {| eventStart := 5; eventTitle := "Therapy";
                  eventRest := [("location", VString "A")] |} in
  In first (removeDuplicateEvents [first; again]).
Proof.
  intros first again.
  destruct (removeDuplicateEvents_first_kept [first; again]) as (_ & _ & _ & H & _).
  apply (H [] first [again] eq_refl). now intros x [].
Defined.

End EventExtras.

(* ================================================================== *)
(** * Further properties of the matcher *)
(* ================================================================== *)

Section MatcherExtras.

Import PipeDelimitedHelpers CalendarService.

Lemma findIn_In (pred : value -> result bool) (l : list value) (x : value) :
  findIn pred l = Normal x -> truthy x = true -> In x l.
Proof.
  induction l as [|y r IH]; cbn [findIn].
  - intros [= <-]. discriminate.
  - destruct (pred y) as [[]|e]; cbn [bind]; try discriminate.
    + intros [= <-] _. now left.
    + intros H T. right. now apply IH.
Qed.

Lemma callFind_In (all : value) (pred : value -> result bool) (x : value) :
  callFind all pred = Normal x -> truthy x = true ->
  exists l, all = VArray l /\ In x l.
Proof.
  destruct all; try discriminate. cbn [callFind]. intros H T.
  eexists. split; [reflexivity|]. now apply (findIn_In pred).
Qed.

(** X25.  [matchAppointmentToClient] never makes up a client: for every
    outcome of [getAllClients] and every appointment value it returns
    null or an element of the array that [getAllClients] returned. *)
Theorem match_returns_candidate (source : clientSource) (appointment : value) :
  exists r,
    matchAppointmentToClient source appointment = Normal r /\
    (r = VNull \/
     truthy r = true /\
     exists allClients, source = Returns (VArray allClients) /\ In r allClients).
Proof.
  unfold matchAppointmentToClient.
  destruct source as [|all|e];
    try (exists VNull; split; [reflexivity | now left]).
  destruct (noClients all) as [empty|e]; cbn [bind try_catch];
    [|exists VNull; split; [reflexivity | now left]].
  destruct empty; [exists VNull; split; [reflexivity | now left]|].
  destruct (get appointment "extractedClientId") as [eid|e]; cbn [bind try_catch];
    [|exists VNull; split; [reflexivity | now left]].
  destruct (if truthy eid then _ else _) as [byId|e] eqn:B; cbn [bind try_catch];
    [|exists VNull; split; [reflexivity | now left]].
  destruct (truthy byId) eqn:T.
  { exists byId. split; [reflexivity|]. right. split; [exact T|].
    destruct (truthy eid).
    - destruct (callFind_In _ _ _ B T) as (l & -> & Hin). now exists l.
    - injection B as <-. discriminate. }
  destruct (get appointment "extractedClientName") as [ename|e];
    cbn [bind try_catch]; [|exists VNull; split; [reflexivity | now left]].
  destruct (truthy ename); [|exists VNull; split; [reflexivity | now left]].
  destruct (callToLowerCase ename) as [lowered|e]; cbn [bind try_catch];
    [|exists VNull; split; [reflexivity | now left]].
  destruct (callFind all (nameMatches (trim lowered))) as [exactMatch|e] eqn:E;
    cbn [bind try_catch]; [|exists VNull; split; [reflexivity | now left]].
  destruct (truthy exactMatch) eqn:Te.
  { exists exactMatch. split; [reflexivity|]. right. split; [exact Te|].
    destruct (callFind_In _ _ _ E Te) as (l & -> & Hin). now exists l. }
  destruct (callFind all (namePartiallyMatches (trim lowered)))
    as [partialMatch|e] eqn:P;
    cbn [bind try_catch]; [|exists VNull; split; [reflexivity | now left]].
  destruct (truthy partialMatch) eqn:Tp.
  - exists partialMatch. split; [reflexivity|]. right. split; [exact Tp|].
    destruct (callFind_In _ _ _ P Tp) as (l & -> & Hin). now exists l.
  - exists VNull. split; [reflexivity | now left].
Qed.

(** ** Confidence of what the search returns *)

Lemma confidence_none_iff (appointment client : value) (c : confidence) :
  calculateMatchConfidence appointment client = Normal c ->
  (c = none <-> truthy client = false).
Proof.
  unfold calculateMatchConfidence.
  destruct (truthy client); cbn [negb].
  - intros H. split; [|discriminate]. intros ->. exfalso.
    repeat match type of H with
           | context [bind ?m _] => destruct m; cbn [bind try_catch] in H
           | context [if ?b then _ else _] => destruct b
           end; discriminate.
  - intros [= <-]. now split.
Qed.

Lemma cascade_confident (clients : list Client) (a : Appointment) (c : Client) :
  trim (extractedClientName a) = extractedClientName a ->
  cascade clients a = Some c ->
  confidenceRule a c = high \/ confidenceRule a c = medium.
Proof.
  intros Ht. unfold cascade.
  rewrite trim_toLowerCase, Ht.
  assert (Hid : forall x, idCandidate (extractedClientId a) x = true ->
                          nonEmpty (extractedClientId a) = true ->
                          confidenceRule a x = high).
  { intros x H Ei. unfold idCandidate in H. apply andb_true_iff in H as [H1 H2].
    unfold confidenceRule, sameIgnoringCase. rewrite Ei, H1, H2. reflexivity. }
  assert (Hname : forall x,
             partialCandidate (toLowerCase (extractedClientName a)) x = true ->
             nonEmpty (extractedClientName a) = true ->
             confidenceRule a x = high \/ confidenceRule a x = medium).
  { intros x H En. unfold partialCandidate in H. apply andb_true_iff in H as [H1 H2].
    unfold confidenceRule, overlapIgnoringCase. rewrite En, H1, H2.
    cbn [andb].
    match goal with
    | |- (if ?b then _ else _) = _ \/ _ => destruct b; [now left | now right]
    end. }
  destruct (nonEmpty (extractedClientId a)) eqn:Ei.
  - destruct (find (idCandidate _) clients) as [x|] eqn:F.
    + intros [= <-]. left. apply find_some in F as [_ F]. now apply Hid.
    + destruct (nonEmpty (extractedClientName a)) eqn:En; [|discriminate].
      destruct (find (exactCandidate _) clients) as [x|] eqn:F2.
      * intros [= <-]. apply find_some in F2 as [_ F2].
        apply Hname; [now apply exact_is_partial | reflexivity].
      * intros F3. apply find_some in F3 as [_ F3]. now apply Hname.
  - destruct (nonEmpty (extractedClientName a)) eqn:En; [|discriminate].
    destruct (find (exactCandidate _) clients) as [x|] eqn:F2.
    + intros [= <-]. apply find_some in F2 as [_ F2].
      apply Hname; [now apply exact_is_partial | reflexivity].
    + intros F3. apply find_some in F3 as [_ F3]. now apply Hname.
Qed.

(** X26.  For an extracted name without white space at its ends, the
    search and the score agree: the confidence computed for what
    [matchAppointmentToClient] returns is [none] when no client is
    returned and [high] or [medium] otherwise, never [low]. *)
Theorem matched_client_confidence (clients : list Client) (a : Appointment) :
  trim (extractedClientName a) = extractedClientName a ->
  exists r conf,
    matchAppointmentToClient (Returns (VArray (List.map clientValue clients)))
      (appointmentValue a) = Normal r /\
    calculateMatchConfidence (appointmentValue a) r = Normal conf /\
    conf <> low /\
    (conf = none <-> r = VNull).
Proof.
  intros Ht. rewrite match_cascade.
  destruct (match clients with [] => None | _ => cascade clients a end)
    as [c|] eqn:E.
  - exists (clientValue c), (confidenceRule a c).
    split; [reflexivity|]. split; [apply confidence_rule|].
    assert (C : cascade clients a = Some c) by (destruct clients; congruence).
    destruct (cascade_confident clients a c Ht C) as [-> | ->];
      (split; [discriminate | split; discriminate]).
  - exists VNull, none. repeat split; discriminate.
Qed.

Lemma matched_client_confidence_witness :
  let john := {| clientId := "C001"; clientName := "John Doe"; clientRest := [] |} in
  let a := {| extractedClientId := ""; extractedClientName := "john";
              appointmentRest := [] |} in
  exists r conf,
    matchAppointmentToClient (Returns (VArray [clientValue john]))
      (appointmentValue a) = Normal r /\
    calculateMatchConfidence (appointmentValue a) r = Normal conf /\
    conf <> low.
Proof.
  intros john a.
  destruct (matched_client_confidence [john] a eq_refl) as (r & conf & H1 & H2 & H3 & _).
  now exists r, conf.
Defined.

Lemma includes_empty (s : string) : includes s "" = true.
Proof. destruct s; reflexivity. Qed.

(** X27.  An extracted name that holds only white space, with no
    extracted identifier, matches by containment of the empty string:
    the search returns the first client that has a name at all. *)
Theorem match_blank_name (clients : list Client) (a : Appointment) :
  extractedClientId a = EmptyString ->
  extractedClientName a <> EmptyString ->
  trim (extractedClientName a) = EmptyString ->
  matchAppointmentToClient (Returns (VArray (List.map clientValue clients)))
    (appointmentValue a)
  = Normal (optionalClient (find (fun c => nonEmpty (clientName c)) clients)).
Proof.
  intros Hid Hn Ht. rewrite match_cascade. destruct clients as [|c0 r]; [reflexivity|].
  do 2 f_equal. unfold cascade. rewrite Hid.
  change (nonEmpty "") with false. cbv iota.
  rewrite (proj2 (nonEmpty_true _) Hn), trim_toLowerCase, Ht.
  change (toLowerCase "") with EmptyString.
  rewrite find_absent.
  - apply find_same. intros c. unfold partialCandidate.
    now rewrite includes_empty, andb_true_r.
  - intros c _. unfold exactCandidate.
    destruct (clientName c); reflexivity.
Qed.

Lemma match_blank_name_witness :
  let anon := {| clientId := "C001"; clientName := ""; clientRest := [] |} in
  let jane := {| clientId := "C002"; clientName := "Jane"; clientRest := [] |} in
  let a := {| extractedClientId := ""; extractedClientName := "  ";
              appointmentRest := [] |} in
  matchAppointmentToClient (Returns (VArray [clientValue anon; clientValue jane]))
    (appointmentValue a) = Normal (clientValue jane).
Proof.
  intros anon jane a.
  apply (match_blank_name [anon; jane] a); [reflexivity | discriminate | reflexivity].
Defined.

(** ** [getAppointmentsWithClientMatches] *)

Lemma withClientMatch_returns (source : clientSource) (a : value) :
  exists m,
    withClientMatch source a = Normal m /\
    appointment m = a /\
    matchAppointmentToClient source a = Normal (matchedClient m) /\
    calculateMatchConfidence a (matchedClient m) = Normal (matchConfidence m) /\
    hasClientMatch m = truthy (matchedClient m).
Proof.
  unfold withClientMatch.
  destruct (match_returns source a) as (r & ->).
  destruct (confidence_returns a r) as (c & Hc).
  cbn [bind]. rewrite Hc. cbn [bind try_catch].
  eexists. split; [reflexivity|]. cbn. auto.
Qed.

(** X28.  [getAppointmentsWithClientMatches] returns one record for
    each fetched appointment, in order, holding what
    [matchAppointmentToClient] and [calculateMatchConfidence] give for
    it; in every record [hasClientMatch] is false exactly when the
    confidence is [none].  It throws only when fetching the
    appointments throws, and then the same error. *)
Theorem getAppointmentsWithClientMatches_records
        (fetched : result (list value)) (source : clientSource) :
  (forall e, fetched = Throw e ->
             getAppointmentsWithClientMatches fetched source = Throw e) /\
  (forall appointments,
      fetched = Normal appointments ->
      exists matched,
        getAppointmentsWithClientMatches fetched source = Normal matched /\
        List.map appointment matched = appointments /\
        Forall (fun m =>
                  matchAppointmentToClient source (appointment m)
                  = Normal (matchedClient m) /\
                  calculateMatchConfidence (appointment m) (matchedClient m)
                  = Normal (matchConfidence m) /\
                  hasClientMatch m = truthy (matchedClient m) /\
                  (hasClientMatch m = false <-> matchConfidence m = none))
               matched).
Proof.
  split; [now intros e ->|].
  intros appointments ->. unfold getAppointmentsWithClientMatches. cbn [bind].
  induction appointments as [|a rest IH].
  - exists []. repeat split. constructor.
  - destruct IH as (matched & Hm & Ha & F).
    destruct (withClientMatch_returns source a) as (m & Hw & A & M & C & T).
    cbn [mapAppointments]. rewrite Hw. cbn [bind].
    destruct (mapAppointments (withClientMatch source) rest) as [ms|e];
      [|discriminate].
    injection Hm as ->. cbn [bind try_catch].
    exists (m :: matched). split; [reflexivity|].
    split; [cbn [List.map]; now rewrite A, Ha|].
    constructor; [|exact F]. rewrite A. repeat split; try assumption.
    + intros Hf. apply (confidence_none_iff _ _ _ C). congruence.
    + intros Hn. rewrite T. now apply (confidence_none_iff _ _ _ C).
Qed.

Lemma getAppointmentsWithClientMatches_records_witness :
  exists matched,
    getAppointmentsWithClientMatches (Normal [VNull; VString "x"]) NotDefined
    = Normal matched /\
    List.map appointment matched = [VNull; VString "x"].
Proof.
  destruct (getAppointmentsWithClientMatches_records
              (Normal [VNull; VString "x"]) NotDefined) as [_ H].
  destruct (H [VNull; VString "x"] eq_refl) as (matched & H1 & H2 & _).
  now exists matched.
Defined.

End MatcherExtras.
